(** * Cooklix: encrypted cookie presets

    A shallow embedding of the background service worker
    ([src/background/service-worker.js]) and of its cryptographic helpers
    ([lib/crypto.js], the second half of the same file), with the properties
    of the preset store, the key manager, the envelope cipher and the
    cookie application protocol; and of what the popup ([popup.js]) shows
    of a cookie value and sends to delete a cookie.

    JavaScript values are modelled dynamically ([JsValue]); [async]
    functions are trees of event-loop turns ([Async]) over an explicit
    [World] holding [chrome.storage.local], the random source and the
    cookie store. *)

From Stdlib Require Import ZArith NArith Lia ZifyNat Ascii.
From stdpp Require Import base strings gmap list pretty.

Set Warnings "-register-all".
Open Scope string_scope.

(** ** JavaScript values *)

(** [VNative] stands for a built-in object or function reached through the
    prototype chain ([Object.prototype] and its methods). Numbers are only
    copied and tested for truthiness by this code, so integers suffice.
    A string is a sequence of 8-bit code units. *)
Inductive JsValue : Type :=
| VUndefined
| VNull
| VBool (b : bool)
| VNumber (n : Z)
| VString (s : string)
| VArray (items : list JsValue)
| VObject (props : gmap string JsValue)
| VNative (what : string).

(** Results of fallible platform calls and of [try]/[catch]: the left side
    is the [message] of the thrown [Error]. *)
Definition Result (A : Type) : Type := string + A.
Abbreviation Ok := inr.
Abbreviation Err := inl.

Definition is_empty (s : string) : bool :=
  match s with EmptyString => true | _ => false end.

(** ToBoolean. *)
Definition truthy (v : JsValue) : bool :=
  match v with
  | VUndefined | VNull => false
  | VBool b => b
  | VNumber n => negb (n =? 0)%Z
  | VString s => negb (is_empty s)
  | VArray _ | VObject _ | VNative _ => true
  end.

(** [a || b] *)
Definition or_else (a b : JsValue) : JsValue := if truthy a then a else b.

(** [typeof v] *)
Definition typeof (v : JsValue) : string :=
  match v with
  | VUndefined => "undefined"
  | VNull | VArray _ | VObject _ => "object"
  | VBool _ => "boolean"
  | VNumber _ => "number"
  | VString _ => "string"
  | VNative what => if String.eqb what "__proto__" then "object" else "function"
  end.

Definition Array_isArray (v : JsValue) : bool :=
  match v with VArray _ => true | _ => false end.

(** *** Ordinary objects

    An object literal or an object read back from storage is an ordinary
    object: its own properties (a finite map) on top of [Object.prototype].
    The names below are the properties every such object inherits. *)
Definition Object_prototype : list string :=
  [ "constructor"; "__defineGetter__"; "__defineSetter__"; "hasOwnProperty";
    "__lookupGetter__"; "__lookupSetter__"; "isPrototypeOf";
    "propertyIsEnumerable"; "toString"; "valueOf"; "__proto__";
    "toLocaleString" ].

Definition inherited (k : string) : JsValue :=
  if bool_decide (k ∈ Object_prototype) then VNative k else VUndefined.

(** [obj[k]] as an expression: the own property, else the inherited one. *)
Definition prop_get (props : gmap string JsValue) (k : string) : JsValue :=
  match props !! k with
  | Some v => v
  | None => inherited k
  end.

(** [obj[k] = v]. Every inherited property is a writable data property
    that the assignment shadows by a new own property, except [__proto__],
    an accessor: its setter ignores a primitive [v] and otherwise replaces
    the prototype; in both cases no own property is created. The objects
    assigned to in this program are persisted (own properties only)
    without being read again. *)
Definition prop_set (props : gmap string JsValue) (k : string) (v : JsValue)
  : gmap string JsValue :=
  match props !! k with
  | Some _ => <[k:=v]> props
  | None => if String.eqb k "__proto__" then props else <[k:=v]> props
  end.

(** [v.k] for an arbitrary value. Reading a property of [null] or
    [undefined] throws a TypeError. The program reads primitives and arrays
    only at cookie field names, which no built-in prototype defines. *)
Definition get_property (v : JsValue) (k : string) : Result JsValue :=
  match v with
  | VUndefined =>
      Err ("Cannot read properties of undefined (reading '" ++ k ++ "')")
  | VNull => Err ("Cannot read properties of null (reading '" ++ k ++ "')")
  | VObject props => Ok (prop_get props k)
  | _ => Ok (inherited k)
  end.

(** [{...v}]: the own enumerable properties of [v]. *)
Definition indexed (items : list JsValue) : gmap string JsValue :=
  list_to_map (imap (fun i x => (pretty i, x)) items).

Definition spread (v : JsValue) : gmap string JsValue :=
  match v with
  | VObject props => props
  | VArray items => indexed items
  | VString s =>
      indexed ((fun c => VString (String c EmptyString)) <$> String.list_ascii_of_string s)
  | _ => ∅
  end.

(** *** Strings *)

Definition byte : Type := ascii.
Definition Uint8Array : Type := list byte.

(** [String.fromCharCode.apply(null, bytes)] and its inverse
    [s.split('').map(char => char.charCodeAt(0))]. An engine bounds the
    number of arguments that [apply] can spread; like memory, the bound is
    left out of the model. *)
Definition String_fromCharCode (a : Uint8Array) : string := String.string_of_list_ascii a.
Definition charCodes (s : string) : Uint8Array := String.list_ascii_of_string s.

(** White space and line terminators among the 8-bit code units. *)
Definition is_whitespace (c : ascii) : bool :=
  let n := N_of_ascii c in
  ((9 <=? n) && (n <=? 13) || (n =? 32) || (n =? 160))%N.

Fixpoint trimStart (s : string) : string :=
  match s with
  | String c rest => if is_whitespace c then trimStart rest else s
  | EmptyString => EmptyString
  end.

Definition trimEnd (s : string) : string :=
  String.rev (trimStart (String.rev s)).

Definition trim (s : string) : string := trimEnd (trimStart s).

(** The double quote, for messages that quote a name. *)
Definition dquote : string := String (ascii_of_nat 34) EmptyString.

(** ** The world outside the program

    [chrome.storage.local] holds the master secret and the preset object;
    [storage_faults] lists the outcome of the coming storage calls
    ([Some msg]: the call fails and reports [msg]; none left: no failure);
    [entropy] is the stream read by [crypto.getRandomValues];
    [cookie_store] is the answer of [chrome.cookies.set], which may depend
    on the calls made so far, recorded in [cookie_calls]. *)
Record World : Type := mkWorld {
  masterEncryptionKey : option string;
  presets : option (gmap string JsValue);
  storage_faults : list (option string);
  entropy : nat -> byte;
  entropy_used : nat;
  cookie_store : list (gmap string JsValue) -> gmap string JsValue -> Result JsValue;
  cookie_calls : list (gmap string JsValue);
}.

Definition set_masterEncryptionKey (k : option string) (w : World) : World :=
  mkWorld k (presets w) (storage_faults w) (entropy w) (entropy_used w)
    (cookie_store w) (cookie_calls w).

Definition set_presets (p : option (gmap string JsValue)) (w : World) : World :=
  mkWorld (masterEncryptionKey w) p (storage_faults w) (entropy w)
    (entropy_used w) (cookie_store w) (cookie_calls w).

Definition set_storage_faults (f : list (option string)) (w : World) : World :=
  mkWorld (masterEncryptionKey w) (presets w) f (entropy w) (entropy_used w)
    (cookie_store w) (cookie_calls w).

Definition set_entropy_used (n : nat) (w : World) : World :=
  mkWorld (masterEncryptionKey w) (presets w) (storage_faults w) (entropy w) n
    (cookie_store w) (cookie_calls w).

Definition set_cookie_calls (c : list (gmap string JsValue)) (w : World) : World :=
  mkWorld (masterEncryptionKey w) (presets w) (storage_faults w) (entropy w)
    (entropy_used w) (cookie_store w) c.

(** ** Asynchronous computations

    An [async] function is a tree of event-loop turns. [Await k] suspends
    until the platform completes an operation: [k] performs it on the
    world and gives the rest of the function. [Sync k] is an effect that
    happens without suspending. [Reject] is a thrown [Error] (its
    message). *)
Inductive Async (A : Type) : Type :=
| Resolve (a : A)
| Reject (message : string)
| Sync (k : World -> World * Async A)
| Await (k : World -> World * Async A).
Arguments Resolve {A} a.
Arguments Reject {A} message.
Arguments Sync {A} k.
Arguments Await {A} k.

Fixpoint bind {A B} (t : Async A) (f : A -> Async B) : Async B :=
  match t with
  | Resolve a => f a
  | Reject e => Reject e
  | Sync k => Sync (fun w => let '(w', t') := k w in (w', bind t' f))
  | Await k => Await (fun w => let '(w', t') := k w in (w', bind t' f))
  end.

(** [try { t } catch (error) { h error.message }] *)
Fixpoint try_catch {A} (t : Async A) (h : string -> Async A) : Async A :=
  match t with
  | Resolve a => Resolve a
  | Reject e => h e
  | Sync k => Sync (fun w => let '(w', t') := k w in (w', try_catch t' h))
  | Await k => Await (fun w => let '(w', t') := k w in (w', try_catch t' h))
  end.

Notation "x <- t ;; k" := (bind t (fun x => k))
  (at level 100, t at next level, right associativity).

(** Lifting a synchronous result that may have thrown. *)
Definition of_result {A} (r : Result A) : Async A :=
  match r with inl msg => Reject msg | inr a => Resolve a end.

(** Running one computation to completion, with nothing interleaved. *)
Fixpoint run {A} (t : Async A) (w : World) : World * Result A :=
  match t with
  | Resolve a => (w, Ok a)
  | Reject e => (w, Err e)
  | Sync k | Await k => let '(w', t') := k w in run t' w'
  end.

(** *** Several computations in flight

    [sync_steps] runs the effects that need no suspension; [turn] is what
    the event loop executes atomically when a task is resumed. A schedule
    says which of two tasks is resumed next ([true]: the first). *)
Fixpoint sync_steps {A} (t : Async A) (w : World) : World * Async A :=
  match t with
  | Sync k => let '(w', t') := k w in sync_steps t' w'
  | _ => (w, t)
  end.

Definition turn {A} (t : Async A) (w : World) : World * Async A :=
  match t with
  | Await k => let '(w', t') := k w in sync_steps t' w'
  | _ => sync_steps t w
  end.

Fixpoint interleave {A B} (schedule : list bool) (a : Async A) (b : Async B)
    (w : World) : World * Async A * Async B :=
  match schedule with
  | [] => (w, a, b)
  | true :: rest => let '(w', a') := turn a w in interleave rest a' b w'
  | false :: rest => let '(w', b') := turn b w in interleave rest a b' w'
  end.

(** ** Platform capabilities *)

(** Web Crypto, JSON and the UTF-8 codec are external. AES-GCM decryption
    under the key and nonce of the encryption returns the plaintext. *)
Class WebPlatform : Type := {
  CryptoKey : Type;
  PBKDF2_SHA256 : Uint8Array -> Uint8Array -> N -> CryptoKey;
  AES_GCM_encrypt : CryptoKey -> Uint8Array -> Uint8Array -> Uint8Array;
  AES_GCM_decrypt : CryptoKey -> Uint8Array -> Uint8Array -> Result Uint8Array;
  AES_GCM_decrypt_encrypt : forall k iv data,
    AES_GCM_decrypt k iv (AES_GCM_encrypt k iv data) = Ok data;
  JSON_stringify : JsValue -> option string;
  JSON_parse : string -> Result JsValue;
  TextEncoder_encode : string -> Uint8Array;
  TextDecoder_decode : Uint8Array -> string;
}.

(** One call to [chrome.storage.local]: it fails, or performs [op]. *)
Definition storage_call {A} (op : World -> World * A) : Async (Result A) :=
  Await (fun w =>
    match storage_faults w with
    | Some msg :: rest => (set_storage_faults rest w, Resolve (Err msg))
    | None :: rest =>
        let '(w', a) := op (set_storage_faults rest w) in (w', Resolve (Ok a))
    | [] => let '(w', a) := op w in (w', Resolve (Ok a))
    end).

(** The promise form rejects with the error of the failed call. *)
Definition storage_promise {A} (op : World -> World * A) : Async A :=
  r <- storage_call op ;; of_result r.

(** [crypto.getRandomValues(new Uint8Array(n))] *)
Definition crypto_getRandomValues (n : nat) : Async Uint8Array :=
  Sync (fun w =>
    (set_entropy_used (entropy_used w + n) w,
     Resolve (entropy w <$> seq (entropy_used w) n))).

(** A platform promise that touches nothing in the world. *)
Definition promise {A} (r : Result A) : Async A :=
  Await (fun w => (w, of_result r)).

(** ** Base64: [btoa] and [atob]

    [btoa] maps every three bytes to four characters of the alphabet and
    pads the last group with [=]. [atob] is the forgiving decoder of the
    HTML standard: ASCII white space is dropped, up to two padding
    characters are removed from a length that is a multiple of four, a
    remaining length of 1 modulo 4 or a foreign character is an error. *)
Definition base64_alphabet : string :=
  "ABCDEFGHIJKLMNOPQRSTUVWXYZabcdefghijklmnopqrstuvwxyz0123456789+/".

Definition pad : ascii := "="%char.
Definition is_pad (c : ascii) : bool := Ascii.eqb c pad.

Definition base64_char (n : N) : ascii :=
  match String.get (N.to_nat n) base64_alphabet with
  | Some c => c
  | None => pad
  end.

Fixpoint index_from (i : N) (c : ascii) (s : string) : option N :=
  match s with
  | EmptyString => None
  | String d rest => if Ascii.eqb c d then Some i else index_from (N.succ i) c rest
  end.

Definition base64_index (c : ascii) : option N := index_from 0 c base64_alphabet.

Fixpoint btoa_bytes (l : list ascii) : list ascii :=
  match l with
  | [] => []
  | [a] =>
      let x := N_of_ascii a in
      [base64_char (x / 4); base64_char ((x mod 4) * 16); pad; pad]
  | [a; b] =>
      let x := N_of_ascii a in
      let y := N_of_ascii b in
      [base64_char (x / 4); base64_char ((x mod 4) * 16 + y / 16);
       base64_char ((y mod 16) * 4); pad]
  | a :: b :: c :: rest =>
      let x := N_of_ascii a in
      let y := N_of_ascii b in
      let z := N_of_ascii c in
      base64_char (x / 4) :: base64_char ((x mod 4) * 16 + y / 16)
      :: base64_char ((y mod 16) * 4 + z / 64) :: base64_char (z mod 64)
      :: btoa_bytes rest
  end%N.

Definition btoa (s : string) : string :=
  String.string_of_list_ascii (btoa_bytes (String.list_ascii_of_string s)).

Definition is_ascii_whitespace (c : ascii) : bool :=
  let n := N_of_ascii c in
  ((n =? 9) || (n =? 10) || (n =? 12) || (n =? 13) || (n =? 32))%N.

(** Removal of one or two [=] at the end. *)
Fixpoint strip_padding (l : list ascii) : list ascii :=
  match l with
  | [] => []
  | c :: rest =>
      match rest with
      | [] => if is_pad c then [] else [c]
      | [d] => if is_pad d then (if is_pad c then [] else [c]) else [c; d]
      | _ => c :: strip_padding rest
      end
  end.

Fixpoint decode_sextets (l : list N) : list ascii :=
  match l with
  | s0 :: s1 :: s2 :: s3 :: rest =>
      ascii_of_N (s0 * 4 + s1 / 16) :: ascii_of_N ((s1 mod 16) * 16 + s2 / 4)
      :: ascii_of_N ((s2 mod 4) * 64 + s3) :: decode_sextets rest
  | [s0; s1; s2] =>
      [ascii_of_N (s0 * 4 + s1 / 16); ascii_of_N ((s1 mod 16) * 16 + s2 / 4)]
  | [s0; s1] => [ascii_of_N (s0 * 4 + s1 / 16)]
  | _ => []
  end%N.

Definition atob_error : string :=
  "Failed to execute 'atob' on 'WorkerGlobalScope': The string to be decoded is not correctly encoded.".

Definition atob (s : string) : Result string :=
  let data := filter (fun c => is_ascii_whitespace c = false)
                (String.list_ascii_of_string s) in
  let data := if (length data mod 4 =? 0)%nat then strip_padding data else data in
  if (length data mod 4 =? 1)%nat then Err atob_error
  else match mapM base64_index data with
       | None => Err atob_error
       | Some sextets => Ok (String.string_of_list_ascii (decode_sextets sextets))
       end.

(** [s.replace(/=+$/, '')]: every [=] at the end is removed. *)
Fixpoint strip_trailing_pad (l : list ascii) : list ascii :=
  match l with
  | [] => []
  | c :: rest =>
      match strip_trailing_pad rest with
      | [] => if is_pad c then [] else [c]
      | r => c :: r
      end
  end.

Definition remove_trailing_equals (s : string) : string :=
  String.string_of_list_ascii (strip_trailing_pad (String.list_ascii_of_string s)).

(** What every handler hands back: [{ success: true, ... }] or
    [{ success: false, error }]. *)
Inductive Response (A : Type) : Type :=
| Success (a : A)
| Failure (error : string).
Arguments Success {A} a.
Arguments Failure {A} error.

(** [return { success: false, error: error.message }] *)
Definition fail {A} (message : string) : Async (Response A) :=
  Resolve (Failure message).

(** ** Cryptographic helpers ([lib/crypto.js]) *)

Section Program.
Context `{WebPlatform}.

Definition generateEncryptionKey : Async string :=
  array <- crypto_getRandomValues 24 ;;
  let base64 := btoa (String_fromCharCode array) in
  Resolve (remove_trailing_equals base64).

(** The [try]/[catch] around [new Promise] never sees a rejection: the
    promise is returned without being awaited, and its executor cannot
    throw into the surrounding block. *)
Definition getOrCreateKey : Async string :=
  r <- storage_call (fun w => (w, masterEncryptionKey w)) ;;
  match r with
  | inl lastError => Reject ("Failed to retrieve encryption key: " ++ lastError)
  | inr result =>
      let generate : Async string :=
        newKey <- generateEncryptionKey ;;
        if negb (String.length newKey =? 32)%nat then
          Reject ("Generated key has invalid length: "
                  ++ pretty (String.length newKey) ++ " (expected 32)")
        else
          r <- storage_call (fun w => (set_masterEncryptionKey (Some newKey) w, tt)) ;;
          match r with
          | inl lastError => Reject ("Failed to store encryption key: " ++ lastError)
          | inr _ => Resolve newKey
          end in
      match result with
      | Some key =>
          if negb (is_empty key) && (String.length key =? 32)%nat then Resolve key
          else generate
      | None => generate
      end
  end.

Definition stringToCryptoKey (keyString : string) : Async CryptoKey :=
  let keyMaterial := TextEncoder_encode keyString in
  importedKey <- promise (Ok keyMaterial) ;;
  let salt := TextEncoder_encode "CookieManagerPro-AES-Salt" in
  promise (Ok (PBKDF2_SHA256 importedKey salt 100000)).

(** [encoder.encode(undefined)] encodes the empty string. *)
Definition encrypt (data : JsValue) : Async string :=
  try_catch
    (key <- getOrCreateKey ;;
     cryptoKey <- stringToCryptoKey key ;;
     iv <- crypto_getRandomValues 12 ;;
     let dataString := JSON_stringify data in
     let dataBytes := TextEncoder_encode (default "" dataString) in
     encryptedBytes <- promise (Ok (AES_GCM_encrypt cryptoKey iv dataBytes)) ;;
     let combinedBytes := (iv ++ encryptedBytes)%list in
     Resolve (btoa (String_fromCharCode combinedBytes)))
    (fun message => Reject ("Encryption failed: " ++ message)).

Definition decrypt (encryptedData : string) : Async JsValue :=
  try_catch
    (key <- getOrCreateKey ;;
     cryptoKey <- stringToCryptoKey key ;;
     binary <- of_result (atob encryptedData) ;;
     let combinedBytes := charCodes binary in
     let iv := take 12 combinedBytes in
     let encryptedBytes := drop 12 combinedBytes in
     decryptedBytes <- promise (AES_GCM_decrypt cryptoKey iv encryptedBytes) ;;
     let decryptedString := TextDecoder_decode decryptedBytes in
     of_result (JSON_parse decryptedString))
    (fun message => Reject ("Decryption failed: " ++ message)).

Definition is_json_object (v : JsValue) : bool :=
  String.eqb (typeof v) "object" && match v with VNull => false | _ => true end.

(** [JSON.stringify] cannot throw on a [JsValue] (no cycle, no BigInt), so
    the serializability probe of [encryptJSON] always passes. *)
Definition encryptJSON (jsonData : JsValue) : Async string :=
  if negb (is_json_object jsonData) then
    Reject "encryptJSON requires a valid JSON object"
  else encrypt jsonData.

Definition decryptJSON (encryptedString : JsValue) : Async JsValue :=
  match encryptedString with
  | VString s =>
      decryptedData <- decrypt s ;;
      if negb (is_json_object decryptedData) then
        Reject "Decrypted data is not a valid JSON object"
      else Resolve decryptedData
  | _ => Reject "decryptJSON requires a string input"
  end.

(** ** The service worker ([background/service-worker.js]) *)

Definition stripLeadingDot (domain : string) : string :=
  match domain with
  | String "." rest => rest
  | _ => domain
  end.

(** [constructUrl(domain, secure = false)]. [domain.startsWith] throws
    when [domain] is not a string. *)
Definition constructUrl (domain secure : JsValue) : Result string :=
  let protocol := if truthy secure then "https://" else "http://" in
  match domain with
  | VString d => Ok (protocol ++ stripLeadingDot d)
  | VUndefined =>
      Err "Cannot read properties of undefined (reading 'startsWith')"
  | VNull => Err "Cannot read properties of null (reading 'startsWith')"
  | _ => Err "domain.startsWith is not a function"
  end.

Definition is_undefined (v : JsValue) : bool :=
  match v with VUndefined => true | _ => false end.

(** The object handed to [chrome.cookies.set] by [setCookie]. *)
Definition cookieConfig (url : JsValue) (cookieDetails : gmap string JsValue)
  : gmap string JsValue :=
  let field := prop_get cookieDetails in
  let config : gmap string JsValue :=
    <["value" := field "value"]> (<["name" := field "name"]> {["url" := url]}) in
  let config := if truthy (field "domain")
                then prop_set config "domain" (field "domain") else config in
  let config := if truthy (field "path")
                then prop_set config "path" (field "path") else config in
  let config := if negb (is_undefined (field "secure"))
                then prop_set config "secure" (field "secure") else config in
  let config := if negb (is_undefined (field "httpOnly"))
                then prop_set config "httpOnly" (field "httpOnly") else config in
  let config := if truthy (field "expirationDate")
                then prop_set config "expirationDate" (field "expirationDate")
                else config in
  if truthy (field "sameSite")
  then prop_set config "sameSite" (field "sameSite") else config.

(** [chrome.cookies.set(config)] *)
Definition chrome_cookies_set (config : gmap string JsValue) : Async JsValue :=
  Await (fun w =>
    (set_cookie_calls (cookie_calls w ++ [config]) w,
     of_result (cookie_store w (cookie_calls w) config))).

Definition setCookie (cookieDetails : gmap string JsValue)
  : Async (Response JsValue) :=
  let field := prop_get cookieDetails in
  try_catch
    (if negb (truthy (field "url")) && negb (truthy (field "domain")) then
       Reject "Either url or domain must be provided"
     else
       url <- (if truthy (field "url") then Resolve (field "url")
               else u <- of_result (constructUrl (field "domain") (field "secure")) ;;
                    Resolve (VString u)) ;;
       cookie <- chrome_cookies_set (cookieConfig url cookieDetails) ;;
       Resolve (Success cookie))
    fail.

(** [chrome.storage.local.get(['presets'])] and
    [chrome.storage.local.set({ presets })]. A value that is not JSON data
    (a built-in reached through the prototype chain) is stored as [{}]. *)
Definition chrome_storage_local_get_presets : Async (option (gmap string JsValue)) :=
  storage_promise (fun w => (w, presets w)).

Definition persisted (v : JsValue) : JsValue :=
  match v with
  | VNative _ => VObject ∅
  | _ => v
  end.

Definition chrome_storage_local_set_presets (p : gmap string JsValue) : Async unit :=
  storage_promise (fun w => (set_presets (Some (persisted <$> p)) w, tt)).

Definition not_found (presetName : string) : string :=
  "Preset " ++ dquote ++ presetName ++ dquote ++ " not found".

Definition already_exists (presetName : string) : string :=
  "Preset " ++ dquote ++ presetName ++ dquote ++ " already exists".

Definition savePreset (presetName : string) (cookies : JsValue)
  : Async (Response string) :=
  try_catch
    (if is_empty presetName || is_empty (trim presetName) then
       Reject "Preset name is required"
     else if negb (Array_isArray cookies) then
       Reject "Cookies must be an array"
     else
       encryptedData <- encryptJSON cookies ;;
       result <- chrome_storage_local_get_presets ;;
       let presets := default ∅ result in
       let presets := prop_set presets presetName (VString encryptedData) in
       _ <- chrome_storage_local_set_presets presets ;;
       Resolve (Success presetName))
    fail.

Definition loadPreset (presetName : string) : Async (Response JsValue) :=
  try_catch
    (if is_empty presetName then Reject "Preset name is required"
     else
       result <- chrome_storage_local_get_presets ;;
       let presets := default ∅ result in
       if negb (truthy (prop_get presets presetName)) then
         Reject (not_found presetName)
       else
         cookies <- decryptJSON (prop_get presets presetName) ;;
         Resolve (Success cookies))
    fail.

Definition deletePreset (presetName : string) : Async (Response string) :=
  try_catch
    (if is_empty presetName then Reject "Preset name is required"
     else
       result <- chrome_storage_local_get_presets ;;
       let presets := default ∅ result in
       if negb (truthy (prop_get presets presetName)) then
         Reject (not_found presetName)
       else
         let presets := delete presetName presets in
         _ <- chrome_storage_local_set_presets presets ;;
         Resolve (Success presetName))
    fail.

Definition renamePreset (oldName newName : string)
  : Async (Response (string * string)) :=
  try_catch
    (if is_empty oldName || is_empty newName then
       Reject "Both old and new names are required"
     else if String.eqb oldName newName then
       Reject "New name must be different from old name"
     else
       result <- chrome_storage_local_get_presets ;;
       let presets := default ∅ result in
       if negb (truthy (prop_get presets oldName)) then
         Reject (not_found oldName)
       else if truthy (prop_get presets newName) then
         Reject (already_exists newName)
       else
         let presets := prop_set presets newName (prop_get presets oldName) in
         let presets := delete oldName presets in
         _ <- chrome_storage_local_set_presets presets ;;
         Resolve (Success (oldName, newName)))
    fail.

(** The outcome of a bulk operation: [applied] (or [imported]), [failed]
    and [errors], the list of [{ name, error }] in the order of failure,
    [undefined] when it is empty. *)
Record BulkResult : Type := mkBulkResult {
  applied : nat;
  failed : nat;
  errors : option (list (JsValue * string));
}.

Definition bulkResult (successCount failCount : nat)
    (errors : list (JsValue * string)) : BulkResult :=
  mkBulkResult successCount failCount
    (match errors with [] => None | _ => Some errors end).

(** [for (const cookie of cookies)]: arrays and strings can be iterated. *)
Definition iterate (cookies : JsValue) : Result (list JsValue) :=
  match cookies with
  | VArray items => Ok items
  | VString s =>
      Ok ((fun c => VString (String c EmptyString)) <$> String.list_ascii_of_string s)
  | _ => Err "cookies is not iterable"
  end.

(** The object literal of the loop of [applyPreset]. *)
Definition applyPreset_cookieDetails (domain : string) (cookie : JsValue)
  : Result (gmap string JsValue) :=
  match get_property cookie "secure" with
  | inl e => Err e
  | inr secure =>
      match constructUrl (VString domain) secure with
      | inl e => Err e
      | inr url =>
          Ok (<["url" := VString url]> (<["domain" := VString domain]> (spread cookie)))
      end
  end.

Fixpoint applyPreset_loop (domain : string) (cookies : list JsValue)
    (successCount failCount : nat) (errors : list (JsValue * string))
  : Async (nat * nat * list (JsValue * string)) :=
  match cookies with
  | [] => Resolve (successCount, failCount, errors)
  | cookie :: rest =>
      cookieDetails <- of_result (applyPreset_cookieDetails domain cookie) ;;
      result <- setCookie cookieDetails ;;
      match result with
      | Success _ => applyPreset_loop domain rest (S successCount) failCount errors
      | Failure error =>
          name <- of_result (get_property cookie "name") ;;
          applyPreset_loop domain rest successCount (S failCount)
            (errors ++ [(name, error)])
      end
  end.

Definition applyPreset (presetName domain : string) : Async (Response BulkResult) :=
  try_catch
    (if is_empty presetName then Reject "Preset name is required"
     else if is_empty domain then Reject "Domain is required"
     else
       loadResult <- loadPreset presetName ;;
       match loadResult with
       | Failure error => Reject error
       | Success cookies =>
           items <- of_result (iterate cookies) ;;
           r <- applyPreset_loop domain items 0 0 [] ;;
           let '(successCount, failCount, errors) := r in
           Resolve (Success (bulkResult successCount failCount errors))
       end)
    fail.

Definition is_string (s : string) (v : JsValue) : bool :=
  match v with VString s' => String.eqb s' s | _ => false end.

(** The object literal of the loop of [importCookies], with the two
    assignments that follow it. The first property read, [cookie.name],
    throws when [cookie] is [null]; the later reads then cannot. *)
Definition importCookies_cookieDetails (cookie : JsValue)
  : Result (gmap string JsValue) :=
  match get_property cookie "name" with
  | inl e => Err e
  | inr _ =>
      let field k :=
        match get_property cookie k with inr v => v | inl _ => VUndefined end in
      let cookieDetails : gmap string JsValue :=
        <["sameSite" :=
            if is_string "no_restriction" (field "sameSite") then VString "no_restriction"
            else if is_string "lax" (field "sameSite") then VString "lax"
            else if is_string "strict" (field "sameSite") then VString "strict"
            else VUndefined]>
        (<["httpOnly" := or_else (field "httpOnly") (VBool false)]>
        (<["secure" := or_else (field "secure") (VBool false)]>
        (<["path" := or_else (field "path") (VString "/")]>
        (<["domain" := field "domain"]>
        (<["value" := field "value"]>
        {["name" := field "name"]}))))) in
      let cookieDetails :=
        if truthy (field "expirationDate") && negb (truthy (field "session"))
        then prop_set cookieDetails "expirationDate" (field "expirationDate")
        else cookieDetails in
      match constructUrl (field "domain") (field "secure") with
      | inl e => Err e
      | inr url => Ok (prop_set cookieDetails "url" (VString url))
      end
  end.

Fixpoint importCookies_loop (cookies : list JsValue)
    (successCount failCount : nat) (errors : list (JsValue * string))
  : Async (nat * nat * list (JsValue * string)) :=
  match cookies with
  | [] => Resolve (successCount, failCount, errors)
  | cookie :: rest =>
      cookieDetails <- of_result (importCookies_cookieDetails cookie) ;;
      result <- setCookie cookieDetails ;;
      match result with
      | Success _ => importCookies_loop rest (S successCount) failCount errors
      | Failure error =>
          name <- of_result (get_property cookie "name") ;;
          importCookies_loop rest successCount (S failCount)
            (errors ++ [(name, error)])
      end
  end.

Definition importCookies (jsonData : string) (encrypted : bool)
  : Async (Response BulkResult) :=
  try_catch
    (if is_empty jsonData then Reject "JSON data is required"
     else
       cookies <- (if encrypted then decryptJSON (VString jsonData)
                   else of_result (JSON_parse jsonData)) ;;
       if negb (Array_isArray cookies) then
         Reject "Invalid cookie data: expected an array"
       else
         items <- of_result (iterate cookies) ;;
         r <- importCookies_loop items 0 0 [] ;;
         let '(successCount, failCount, errors) := r in
         Resolve (Success (bulkResult successCount failCount errors)))
    fail.

End Program.

(** ** A reference platform

    A small platform on which the program runs on concrete inputs: JSON
    text for null, booleans, integers, strings (escaping the quote and the
    backslash), arrays and objects; UTF-8 for 8-bit code units; and a
    cipher that authenticates with a tag computed from key and nonce and
    leaves the data readable. *)
Module Reference.

Definition quote : ascii := ascii_of_nat 34.
Definition backslash : ascii := ascii_of_nat 92.

Definition join (sep : string) (l : list string) : string :=
  match l with
  | [] => ""
  | x :: rest => fold_left (fun acc y => acc ++ sep ++ y) rest x
  end.

Fixpoint escape (s : string) : string :=
  match s with
  | EmptyString => EmptyString
  | String c rest =>
      if Ascii.eqb c quote || Ascii.eqb c backslash
      then String backslash (String c (escape rest))
      else String c (escape rest)
  end.

Definition quoted (s : string) : string :=
  String quote (escape s) ++ String quote EmptyString.

Fixpoint stringify (v : JsValue) : option string :=
  match v with
  | VUndefined | VNative _ => None
  | VNull => Some "null"
  | VBool b => Some (if b then "true" else "false")
  | VNumber n => Some (pretty n)
  | VString s => Some (quoted s)
  | VArray items =>
      Some ("[" ++ join "," ((fun x => default "null" (stringify x)) <$> items) ++ "]")
  | VObject props =>
      Some ("{" ++ join ","
              (map_fold (fun k x acc =>
                 match stringify x with
                 | Some s => app acc [quoted k ++ ":" ++ s]
                 | None => acc
                 end) [] props) ++ "}")
  end.

Fixpoint strip_prefix (p s : list ascii) : option (list ascii) :=
  match p, s with
  | [], _ => Some s
  | a :: p', b :: s' => if Ascii.eqb a b then strip_prefix p' s' else None
  | _ :: _, [] => None
  end.

(** The characters of a string literal after its opening quote. *)
Fixpoint parse_chars (s : list ascii) : option (string * list ascii) :=
  match s with
  | [] => None
  | c :: rest =>
      if Ascii.eqb c quote then Some (EmptyString, rest)
      else if Ascii.eqb c backslash then
        match rest with
        | e :: rest' =>
            match parse_chars rest' with
            | Some (str, r) => Some (String e str, r)
            | None => None
            end
        | [] => None
        end
      else
        match parse_chars rest with
        | Some (str, r) => Some (String c str, r)
        | None => None
        end
  end.

Definition digit (c : ascii) : option Z :=
  let n := N_of_ascii c in
  if ((48 <=? n) && (n <=? 57))%N then Some (Z.of_N n - 48)%Z else None.

Fixpoint parse_digits (s : list ascii) (acc : Z) : Z * list ascii :=
  match s with
  | c :: rest =>
      match digit c with
      | Some d => parse_digits rest (acc * 10 + d)%Z
      | None => (acc, s)
      end
  | [] => (acc, s)
  end.

Definition parse_number (s : list ascii) : option (JsValue * list ascii) :=
  match s with
  | c :: rest =>
      if Ascii.eqb c "-" then
        match rest with
        | d :: _ =>
            match digit d with
            | Some _ => let '(n, r) := parse_digits rest 0 in Some (VNumber (- n), r)
            | None => None
            end
        | [] => None
        end
      else
        match digit c with
        | Some _ => let '(n, r) := parse_digits s 0 in Some (VNumber n, r)
        | None => None
        end
  | [] => None
  end.

Definition literal (word : string) (v : JsValue) (s : list ascii)
  : option (JsValue * list ascii) :=
  match strip_prefix (String.list_ascii_of_string word) s with
  | Some rest => Some (v, rest)
  | None => None
  end.

Fixpoint parse_value (fuel : nat) (s : list ascii) : option (JsValue * list ascii) :=
  match fuel with
  | 0 => None
  | S fuel =>
      match s with
      | [] => None
      | c :: rest =>
          if Ascii.eqb c "[" then
            match rest with
            | d :: rest' =>
                if Ascii.eqb d "]" then Some (VArray [], rest')
                else parse_items fuel rest []
            | [] => None
            end
          else if Ascii.eqb c "{" then
            match rest with
            | d :: rest' =>
                if Ascii.eqb d "}" then Some (VObject ∅, rest')
                else parse_members fuel rest ∅
            | [] => None
            end
          else if Ascii.eqb c quote then
            match parse_chars rest with
            | Some (str, r) => Some (VString str, r)
            | None => None
            end
          else
            match literal "null" VNull s with
            | Some r => Some r
            | None =>
                match literal "true" (VBool true) s with
                | Some r => Some r
                | None =>
                    match literal "false" (VBool false) s with
                    | Some r => Some r
                    | None => parse_number s
                    end
                end
            end
      end
  end
with parse_items (fuel : nat) (s : list ascii) (acc : list JsValue)
  : option (JsValue * list ascii) :=
  match fuel with
  | 0 => None
  | S fuel =>
      match parse_value fuel s with
      | Some (v, c :: rest) =>
          if Ascii.eqb c "," then parse_items fuel rest (app acc [v])
          else if Ascii.eqb c "]" then Some (VArray (app acc [v]), rest)
          else None
      | _ => None
      end
  end
with parse_members (fuel : nat) (s : list ascii) (acc : gmap string JsValue)
  : option (JsValue * list ascii) :=
  match fuel with
  | 0 => None
  | S fuel =>
      match s with
      | q :: rest =>
          if Ascii.eqb q quote then
            match parse_chars rest with
            | Some (k, colon :: rest') =>
                if Ascii.eqb colon ":" then
                  match parse_value fuel rest' with
                  | Some (v, c :: rest'') =>
                      if Ascii.eqb c "," then parse_members fuel rest'' (<[k:=v]> acc)
                      else if Ascii.eqb c "}" then Some (VObject (<[k:=v]> acc), rest'')
                      else None
                  | _ => None
                  end
                else None
            | _ => None
            end
          else None
      | [] => None
      end
  end.

Definition parse (text : string) : Result JsValue :=
  match parse_value (S (String.length text)) (String.list_ascii_of_string text) with
  | Some (v, []) => Ok v
  | _ => Err "Unexpected token in JSON"
  end.

Definition utf8_encode (s : string) : Uint8Array :=
  flat_map
    (fun c =>
       let n := N_of_ascii c in
       if (n <? 128)%N then [c]
       else [ascii_of_N (192 + n / 64); ascii_of_N (128 + n mod 64)])
    (String.list_ascii_of_string s).

Fixpoint utf8_decode (l : Uint8Array) : string :=
  match l with
  | [] => EmptyString
  | c :: rest =>
      let n := N_of_ascii c in
      if (n <? 128)%N then String c (utf8_decode rest)
      else
        match rest with
        | d :: rest' =>
            let m := N_of_ascii d in
            if ((194 <=? n) && (n <=? 195) && (128 <=? m) && (m <? 192))%N
            then String (ascii_of_N ((n - 192) * 64 + (m - 128))) (utf8_decode rest')
            else String "?" (utf8_decode rest)
        | [] => String "?" EmptyString
        end
  end.

Definition derive (password salt : Uint8Array) (iterations : N) : Uint8Array :=
  app password salt.

Definition tag (key iv : Uint8Array) : Uint8Array :=
  replicate 16
    (ascii_of_N (fold_right (fun c acc => (N_of_ascii c + acc) mod 256) 0 (app key iv))%N).

Definition seal (key iv data : Uint8Array) : Uint8Array := app data (tag key iv).

Definition unseal (key iv sealed : Uint8Array) : Result Uint8Array :=
  let n := length sealed - 16 in
  if bool_decide (drop n sealed = tag key iv) then Ok (take n sealed)
  else Err "The operation failed for an operation-specific reason".

Definition platform : WebPlatform.
Proof.
  refine {| CryptoKey := Uint8Array;
            PBKDF2_SHA256 := derive;
            AES_GCM_encrypt := seal;
            AES_GCM_decrypt := unseal;
            JSON_stringify := stringify;
            JSON_parse := parse;
            TextEncoder_encode := utf8_encode;
            TextDecoder_decode := utf8_decode |}.
  intros k iv data. unfold unseal, seal.
  assert (Hn : length (app data (tag k iv)) - 16 = length data).
  { rewrite length_app. unfold tag. rewrite length_replicate. lia. }
  rewrite Hn, drop_app_length, take_app_length.
  rewrite bool_decide_eq_true_2; reflexivity.
Defined.

Definition cookie (name value : string) (secure : bool) : JsValue :=
  VObject (<["name" := VString name]> (<["value" := VString value]>
          (<["secure" := VBool secure]> ∅))).

Definition cookies : JsValue :=
  VArray [cookie "sid" "abc" true; cookie "theme" "dark" false;
          cookie "lang" "en" false].

(** A world with empty storage, no failure ahead and a cookie store that
    accepts every write. *)
Definition world : World :=
  {| masterEncryptionKey := None;
     presets := None;
     storage_faults := [];
     entropy := fun n => ascii_of_nat (7 * n + 3);
     entropy_used := 0;
     cookie_store := fun _ config => Ok (VObject config);
     cookie_calls := [] |}.

(** The world after the example cookies were saved under a name. *)
Definition saved (presetName : string) : World :=
  fst (run (@savePreset platform presetName cookies) world).

(** The world after the example cookies were saved under two names. *)
Definition saved_both (first second : string) : World :=
  fst (run (@savePreset platform second cookies) (saved first)).

(** Cookies to import: one with an unknown [sameSite] and nothing else
    beyond name, value and domain; one session cookie that still carries
    an expiration date. *)
Definition imported : JsValue :=
  VArray
    [VObject (<["name" := VString "sid"]> (<["value" := VString "abc"]>
             (<["domain" := VString ".example.com"]>
             (<["sameSite" := VString "unexpected"]> ∅))));
     VObject (<["name" := VString "tmp"]> (<["value" := VString "1"]>
             (<["domain" := VString "example.com"]>
             (<["session" := VBool true]>
             (<["expirationDate" := VNumber 1900000000]> ∅)))))].

Definition imported_text : string := default "" (stringify imported).

(** A world whose cookie store rejects its second write, with the example
    cookies saved under ["P"]. *)
Definition picky_world : World :=
  {| masterEncryptionKey := None;
     presets := None;
     storage_faults := [];
     entropy := fun n => ascii_of_nat (7 * n + 3);
     entropy_used := 0;
     cookie_store := fun history config =>
       if (length history =? 1)%nat then Err "Failed to parse or set cookie"
       else Ok (VObject config);
     cookie_calls := [] |}.

Definition picky_saved : World :=
  fst (run (@savePreset platform "P" cookies) picky_world).

(** A world that already holds a master secret, and an empty preset map. *)
Definition keyed_world : World := fst (run getOrCreateKey world).

End Reference.

(** ** Vocabulary of the statements *)

(** The 6-bit groups of a byte sequence, before they are written with the
    alphabet and padded. *)
Fixpoint sextets (l : list ascii) : list N :=
  match l with
  | [] => []
  | [a] => let x := N_of_ascii a in [x / 4; (x mod 4) * 16]
  | [a; b] =>
      let x := N_of_ascii a in
      let y := N_of_ascii b in
      [x / 4; (x mod 4) * 16 + y / 16; (y mod 16) * 4]
  | a :: b :: c :: rest =>
      let x := N_of_ascii a in
      let y := N_of_ascii b in
      let z := N_of_ascii c in
      x / 4 :: (x mod 4) * 16 + y / 16 :: (y mod 16) * 4 + z / 64 :: z mod 64
      :: sextets rest
  end%N.

(** The key that [generateEncryptionKey] draws from the entropy left in
    a world. *)
Definition fresh_key (w : World) : string :=
  remove_trailing_equals
    (btoa (String_fromCharCode (entropy w <$> seq (entropy_used w) 24))).

(** The failure, if any, that the next storage call meets, and the world
    once that call has consumed its entry of [storage_faults]. *)
Definition next_fault (w : World) : option string :=
  match storage_faults w with
  | Some msg :: _ => Some msg
  | _ => None
  end.

Definition pop_fault (w : World) : World :=
  match storage_faults w with
  | [] => w
  | _ :: rest => set_storage_faults rest w
  end.

(** The stored secret is usable: present, and of length 32. *)
Definition valid_key (k : option string) : bool :=
  match k with
  | Some key => negb (is_empty key) && (String.length key =? 32)%nat
  | None => false
  end.

(** The world and the secret after a call of [getOrCreateKey] that met no
    storage failure. *)
Definition keyed (w : World) : World :=
  if valid_key (masterEncryptionKey w) then w
  else set_masterEncryptionKey (Some (fresh_key w))
         (set_entropy_used (entropy_used w + 24) w).

Definition current_key (w : World) : string :=
  if valid_key (masterEncryptionKey w) then default "" (masterEncryptionKey w)
  else fresh_key w.

(** The nonce that [encrypt] draws from the entropy left in a world. *)
Definition nonce (w : World) : Uint8Array :=
  entropy w <$> seq (entropy_used w) 12.

Section Vocabulary.
Context `{WebPlatform}.

(** The WorkKey derived from a master secret. *)
Definition workKey (key : string) : CryptoKey :=
  PBKDF2_SHA256 (TextEncoder_encode key)
    (TextEncoder_encode "CookieManagerPro-AES-Salt") 100000.

(** The bytes that [encrypt] feeds to the cipher and what [decrypt] makes
    of the bytes it gets back. A value is serializable when it survives
    the two. *)
Definition serialize (data : JsValue) : Uint8Array :=
  TextEncoder_encode (default "" (JSON_stringify data)).

Definition deserialize (bytes : Uint8Array) : Result JsValue :=
  JSON_parse (TextDecoder_decode bytes).

Definition serializable (v : JsValue) : Prop := deserialize (serialize v) = Ok v.

(** The envelope of a value under a master secret and a nonce, and the
    opening of an envelope under a master secret. *)
Definition envelope (key : string) (iv : Uint8Array) (data : JsValue) : string :=
  btoa (String_fromCharCode
          (app iv (AES_GCM_encrypt (workKey key) iv (serialize data)))).

Definition decryption_failed {A} (r : Result A) : Result A :=
  match r with
  | inl e => Err ("Decryption failed: " ++ e)
  | inr a => Ok a
  end.

Definition open_envelope (key : string) (encryptedData : string) : Result JsValue :=
  match atob encryptedData with
  | inl e => decryption_failed (Err e)
  | inr binary =>
      match AES_GCM_decrypt (workKey key) (take 12 (charCodes binary))
              (drop 12 (charCodes binary)) with
      | inl e => decryption_failed (Err e)
      | inr bytes => decryption_failed (deserialize bytes)
      end
  end.

(** The world after an [encrypt] that met no storage failure, and the
    envelope it returned. *)
Definition after_encrypt (w : World) : World :=
  set_entropy_used (entropy_used (keyed w) + 12) (keyed w).

Definition sealed (w : World) (data : JsValue) : string :=
  envelope (current_key w) (nonce (keyed w)) data.

(** What [loadPreset] answers for a stored value it found truthy, under a
    master secret. *)
Definition opened (key : string) (stored : JsValue) : Response JsValue :=
  match stored with
  | VString s =>
      match open_envelope key s with
      | inl e => Failure e
      | inr data =>
          if is_json_object data then Success data
          else Failure "Decrypted data is not a valid JSON object"
      end
  | _ => Failure "decryptJSON requires a string input"
  end.

(** The preset object as the handlers see it: [result.presets || {}]. *)
Definition preset_object (w : World) : gmap string JsValue :=
  default ∅ (presets w).

End Vocabulary.

(** Every stored value is truthy, as every envelope is. *)
Definition envelopes_nonempty (m : gmap string JsValue) : Prop :=
  map_Forall (fun _ v => truthy v = true) m.

(** The failures of [rename] as the specification lists them, each
    condition on its own. *)
Definition rename_failures_as_listed (w : World) (oldName newName : string) : Prop :=
  (preset_object w !! oldName = None ->
   snd (run (renamePreset oldName newName) w) = Ok (Failure (not_found oldName)))
  /\ (oldName = newName ->
      snd (run (renamePreset oldName newName) w)
      = Ok (Failure "New name must be different from old name"))
  /\ (is_Some (preset_object w !! newName) ->
      snd (run (renamePreset oldName newName) w)
      = Ok (Failure (already_exists newName))
      /\ presets (fst (run (renamePreset oldName newName) w)) = presets w).

(** *** Bulk application *)

(** A value whose properties can be read: anything but [null] and
    [undefined]. [read c k] is [c.k] for such a value. *)
Definition has_properties (v : JsValue) : bool :=
  match v with
  | VUndefined | VNull => false
  | _ => true
  end.

Definition read (c : JsValue) (k : string) : JsValue :=
  match get_property c k with
  | inr v => v
  | inl _ => VUndefined
  end.

(** The target URL of the specification. *)
Definition target_url (domain : string) (secure : JsValue) : string :=
  (if truthy secure then "https://" else "http://") ++ stripLeadingDot domain.

(** The object that [applyPreset] hands to the Cookie Store for a cookie. *)
Definition applied_config (domain : string) (cookie : JsValue) : gmap string JsValue :=
  cookieConfig (VString (target_url domain (read cookie "secure")))
    (<["url" := VString (target_url domain (read cookie "secure"))]>
       (<["domain" := VString domain]> (spread cookie))).

(** The answers of the Cookie Store to a sequence of writes, each seeing
    the writes before it. *)
Fixpoint verdicts (store : list (gmap string JsValue) -> gmap string JsValue -> Result JsValue)
    (history configs : list (gmap string JsValue)) : list (Result JsValue) :=
  match configs with
  | [] => []
  | config :: rest =>
      store history config :: verdicts store (app history [config]) rest
  end.

(** The accounting of the specification: a success counts as applied, a
    failure counts as failed and leaves a detail with the cookie name. *)
Fixpoint applied_count (answers : list (Result JsValue)) : nat :=
  match answers with
  | [] => 0
  | inr _ :: rest => S (applied_count rest)
  | inl _ :: rest => applied_count rest
  end.

Fixpoint failed_count (answers : list (Result JsValue)) : nat :=
  match answers with
  | [] => 0
  | inr _ :: rest => failed_count rest
  | inl _ :: rest => S (failed_count rest)
  end.

Fixpoint failure_details (cookies : list JsValue) (answers : list (Result JsValue))
  : list (JsValue * string) :=
  match cookies, answers with
  | cookie :: cookies', inl e :: answers' =>
      (read cookie "name", e) :: failure_details cookies' answers'
  | _ :: cookies', inr _ :: answers' => failure_details cookies' answers'
  | _, _ => []
  end.

(** The object that [importCookies] hands to the Cookie Store for a
    cookie, when building it does not throw. *)
Definition imported_config (cookie : JsValue) : Result (gmap string JsValue) :=
  match importCookies_cookieDetails cookie with
  | inl e => Err e
  | inr cookieDetails =>
      Ok (cookieConfig (prop_get cookieDetails "url") cookieDetails)
  end.

(** *** Import normalization, in the words of the specification *)

(** An element can be imported when its domain is a string: the target
    domain of an imported cookie is taken from the record itself. The
    import reaches the elements before the first that cannot be. *)
Definition importable (cookie : JsValue) : bool :=
  match read cookie "domain" with
  | VString _ => true
  | _ => false
  end.

Fixpoint importable_prefix (cookies : list JsValue) : list JsValue :=
  match cookies with
  | cookie :: rest =>
      if importable cookie then cookie :: importable_prefix rest else []
  | [] => []
  end.

(** A field is given when it is present with a value that is not falsy;
    a field that is not given takes its default. (Of the values that a
    cookie field may have, the falsy ones are [false], which is the
    default of the two flags, and an empty text.) *)
Definition given_or (v fallback : JsValue) : JsValue :=
  if truthy v then v else fallback.

(** [sameSite] is kept when it is one of the named values and is unset
    (absent from the request) otherwise. *)
Definition normalized_sameSite (v : JsValue) : option JsValue :=
  match v with
  | VString s =>
      if String.eqb s "no_restriction" || String.eqb s "lax" || String.eqb s "strict"
      then Some v else None
  | _ => None
  end.

(** The expiration date of a session cookie is ignored. *)
Definition normalized_expirationDate (cookie : JsValue) : option JsValue :=
  if truthy (read cookie "session") then None
  else if truthy (read cookie "expirationDate")
       then Some (read cookie "expirationDate") else None.

Definition with_optional (k : string) (v : option JsValue)
    (request : gmap string JsValue) : gmap string JsValue :=
  match v with
  | Some x => <[k:=x]> request
  | None => request
  end.

(** The request that the specification prescribes for an element: name,
    value and domain as they are, path, [secure] and [httpOnly] with
    their defaults, the normalized [sameSite] and expiration date, sent to
    the target URL of the element's own domain. *)
Definition normalized_request (cookie : JsValue) : gmap string JsValue :=
  let domain := match read cookie "domain" with VString d => d | _ => "" end in
  with_optional "sameSite" (normalized_sameSite (read cookie "sameSite"))
    (with_optional "expirationDate" (normalized_expirationDate cookie)
       (<["httpOnly" := given_or (read cookie "httpOnly") (VBool false)]>
          (<["secure" := given_or (read cookie "secure") (VBool false)]>
             (<["path" := given_or (read cookie "path") (VString "/")]>
                (with_optional "domain"
                   (if is_empty domain then None else Some (VString domain))
                   (<["value" := read cookie "value"]>
                      (<["name" := read cookie "name"]>
                         {["url" := VString (target_url domain
                                               (read cookie "secure"))]}))))))).

(** *** Two mutations in flight *)

(** A task resumed [n] times in a row. *)
Fixpoint turns {A} (n : nat) (t : Async A) (w : World) : World * Async A :=
  match n with
  | 0 => (w, t)
  | S n => let '(w', t') := turn t w in turns n t' w'
  end.

(** With the master secret in place, [savePreset] is resumed six times:
    for the stored secret, the imported key, the derived key, the
    ciphertext, the preset map read, and the preset map written. In
    [racing], each of two saves runs up to and including its read of the
    map before either writes; in [serial], the first save finishes before
    the second starts. *)
Definition racing : list bool :=
  app (replicate 5 true) (app (replicate 5 false) [true; false]).

Definition serial : list bool := app (replicate 6 true) (replicate 6 false).

(** ** The remaining handlers of the service worker *)

(** [Object.keys(obj)]: the names of the own properties. The order in
    which an engine lists them depends on the history of the object,
    which a finite map does not record; the result is the set of the
    names. *)
Definition Object_keys (props : gmap string JsValue) : gset string := dom props.

Definition getPresets : Async (Response (gset string)) :=
  try_catch
    (result <- chrome_storage_local_get_presets ;;
     let presets := default ∅ result in
     let presetNames := Object_keys presets in
     Resolve (Success presetNames))
    fail.

Section Backup.
Context `{WebPlatform}.

(** The cookies that [chrome.cookies.getAll] answers to a query, in a
    world, and the text of [JSON.stringify(value, null, 2)]. *)
Variable cookies_getAll : World -> gmap string JsValue -> Result (list JsValue).
Variable JSON_stringify_indented : JsValue -> option string.

Definition chrome_cookies_getAll (query : gmap string JsValue) : Async (list JsValue) :=
  Await (fun w => (w, of_result (cookies_getAll w query))).

Definition getCookies (domain : JsValue) : Async (Response (list JsValue)) :=
  try_catch
    (let query : gmap string JsValue :=
       if truthy domain then {["domain" := domain]} else ∅ in
     cookies <- chrome_cookies_getAll query ;;
     Resolve (Success cookies))
    fail.

(** The [data] of the response is [undefined] when [JSON.stringify] gives
    no text. *)
Definition exportCookies (domain : JsValue) (encrypted : bool)
  : Async (Response (option string * bool)) :=
  try_catch
    (result <- getCookies domain ;;
     match result with
     | Failure error => Reject error
     | Success cookies =>
         exportData <- (if encrypted
                        then data <- encryptJSON (VArray cookies) ;; Resolve (Some data)
                        else Resolve (JSON_stringify_indented (VArray cookies))) ;;
         Resolve (Success (exportData, encrypted))
     end)
    fail.

End Backup.

(** [chrome.cookies.remove(details)], whose effect on the browser and
    whose answer are given by [cookies_remove]. *)
Section Removal.
Variable cookies_remove : World -> gmap string JsValue -> World * Result JsValue.

Definition chrome_cookies_remove (details : gmap string JsValue) : Async JsValue :=
  Await (fun w => let '(w', r) := cookies_remove w details in (w', of_result r)).

Definition deleteCookie (cookieDetails : gmap string JsValue)
  : Async (Response JsValue) :=
  let field := prop_get cookieDetails in
  try_catch
    (if negb (truthy (field "url")) || negb (truthy (field "name")) then
       Reject "Both url and name are required"
     else
       details <- chrome_cookies_remove
                    (<["name" := field "name"]> {["url" := field "url"]}) ;;
       Resolve (Success details))
    fail.

End Removal.

(** ** The popup ([popup.js]) *)

(** [truncateValue(value, maxLength)] for a string, as the cookie list
    calls it. *)
Definition truncateValue (value : string) (maxLength : nat) : string :=
  if is_empty value then ""
  else if (maxLength <? String.length value)%nat
       then String.substring 0 maxLength value ++ "..."
       else value.

(** The [cookieDetails] that [handleDeleteCookie] sends with its
    [deleteCookie] message for a cookie of the list. *)
Definition handleDeleteCookie_cookieDetails (cookie : JsValue)
  : Result (gmap string JsValue) :=
  match get_property cookie "secure" with
  | inl e => Err e
  | inr secure =>
      match get_property cookie "domain" with
      | inl e => Err e
      | inr (VString domain) =>
          let url := "http" ++ (if truthy secure then "s" else "") ++ "://"
                     ++ stripLeadingDot domain in
          match get_property cookie "name" with
          | inl e => Err e
          | inr name => Ok (<["name" := name]> {["url" := VString url]})
          end
      | inr VUndefined =>
          Err "Cannot read properties of undefined (reading 'startsWith')"
      | inr VNull => Err "Cannot read properties of null (reading 'startsWith')"
      | inr _ => Err "cookie.domain.startsWith is not a function"
      end
  end.

(** ** Vocabulary of the further statements *)

(** A computation all of whose steps, from whatever world they start,
    relate the world before to the world after. *)
Fixpoint framed {A} (R : World -> World -> Prop) (t : Async A) : Prop :=
  match t with
  | Resolve _ | Reject _ => True
  | Sync k | Await k => forall w, let '(w', t') := k w in R w w' /\ framed R t'
  end.

(** A component of the world is left as it was. *)
Definition unchanged {B} (f : World -> B) (w w' : World) : Prop := f w' = f w.

(** The properties that [chrome.cookies.set] accepts in its argument. A
    request is well formed when it has no other property and a URL that
    is not empty. *)
Definition set_details : list string :=
  [ "url"; "name"; "value"; "domain"; "path"; "secure"; "httpOnly";
    "expirationDate"; "sameSite" ].

Definition well_formed_request (config : gmap string JsValue) : Prop :=
  (forall k, is_Some (config !! k) -> k ∈ set_details)
  /\ exists url, config !! "url" = Some url /\ truthy url = true.

(** The second world has the cookie writes of the first, followed by
    well-formed requests. *)
Definition appends_requests (w w' : World) : Prop :=
  exists requests,
    cookie_calls w' = (cookie_calls w ++ requests)%list
    /\ Forall well_formed_request requests.

(** A name without a visible character. *)
Definition blank (name : string) : Prop :=
  Forall (fun c => is_whitespace c = true) (String.list_ascii_of_string name).

(** What every handler does on every world: it answers. *)
Definition answers {A} (t : Async (Response A)) : Prop :=
  forall w, exists w' r, run t w = (w', Ok r).

(** ** Further worlds for the examples *)
Module Scenario.

(** Storage serves three calls and fails the fourth with a quota error. *)
Definition quota_world : World :=
  set_storage_faults [None; None; None; Some "QUOTA_BYTES quota exceeded"]
    Reference.world.

(** Two presets, ["A"] and ["B"]; then ["A"] deleted; or ["A"] renamed
    to ["C"]. *)
Definition two_presets : World := Reference.saved_both "A" "B".

Definition after_delete : World := fst (run (deletePreset "A") two_presets).

Definition after_rename : World := fst (run (renamePreset "A" "C") two_presets).

(** Storage holds a secret of the wrong length. *)
Definition corrupted_world : World :=
  set_masterEncryptionKey (Some "corrupted") Reference.world.

(** Storage fails its next call. *)
Definition offline_world : World :=
  set_storage_faults [Some "storage unavailable"] Reference.world.

(** Cookie details with a domain and no URL, and with neither. *)
Definition domain_only : gmap string JsValue :=
  <["name" := VString "sid"]> (<["value" := VString "abc"]>
  (<["secure" := VBool true]> {["domain" := VString ".example.com"]})).

Definition no_target : gmap string JsValue :=
  <["name" := VString "sid"]> {["value" := VString "abc"]}.

(** The requests that [importCookies] builds for a list of cookies, where
    it can build one. *)
Definition requests (cookies : list JsValue) : list (gmap string JsValue) :=
  omap (fun cookie =>
          match imported_config cookie with
          | inr config => Some config
          | inl _ => None
          end) cookies.

(** Cookies to import of which the second has no domain. *)
Definition first_cookie : JsValue :=
  VObject (<["name" := VString "sid"]> (<["value" := VString "abc"]>
          {["domain" := VString ".example.com"]})).

Definition second_cookie : JsValue :=
  VObject (<["name" := VString "theme"]> {["value" := VString "dark"]}).

Definition third_cookie : JsValue :=
  VObject (<["name" := VString "lang"]> (<["value" := VString "en"]>
          {["domain" := VString "example.com"]})).

Definition broken_text : string :=
  default "" (Reference.stringify (VArray [first_cookie; second_cookie; third_cookie])).

(** A browser whose cookies are the cookies to import, and a removal
    that succeeds and leaves the world as it is. *)
Definition getAll (w : World) (query : gmap string JsValue) : Result (list JsValue) :=
  match Reference.imported with
  | VArray items => Ok items
  | _ => Ok []
  end.

Definition remove (w : World) (details : gmap string JsValue)
  : World * Result JsValue :=
  (w, Ok (VObject details)).

End Scenario.

(** * Properties *)

(** ** Lists three elements at a time *)

Lemma list_ind3 {A} (P : list A -> Prop) :
  P [] -> (forall a, P [a]) -> (forall a b, P [a; b]) ->
  (forall a b c l, P l -> P (a :: b :: c :: l)) ->
  forall l, P l.
Proof.
  intros H0 H1 H2 H3.
  fix IH 1.
  intros [|a [|b [|c l]]]; [exact H0 | apply H1 | apply H2 | apply H3, IH].
Qed.

(** ** Base64 *)

(** Linear arithmetic with division and remainder by constants. *)
Ltac div_lia := zify; Z.to_euclidean_division_equations; lia.

Lemma base64_char_spec (n : N) :
  (n < 64)%N ->
  base64_index (base64_char n) = Some n
  /\ is_pad (base64_char n) = false
  /\ is_ascii_whitespace (base64_char n) = false.
Proof.
  intros Hn.
  pose (check := fun m : N =>
    match base64_index (base64_char m) with
    | Some k => (k =? m)%N
    | None => false
    end && negb (is_pad (base64_char m))
        && negb (is_ascii_whitespace (base64_char m))).
  assert (Hall : forallb check (N.of_nat <$> seq 0 64) = true)
    by (vm_compute; reflexivity).
  rewrite forallb_forall in Hall.
  assert (Hin : In n (N.of_nat <$> seq 0 64)).
  { apply in_map_iff. exists (N.to_nat n). split; [lia|]. apply in_seq. lia. }
  specialize (Hall n Hin). unfold check in Hall.
  apply andb_prop in Hall as [Hall Hws]. apply andb_prop in Hall as [Hidx Hpad].
  destruct (base64_index (base64_char n)) as [k|]; [|discriminate].
  apply N.eqb_eq in Hidx. subst k.
  repeat split; [now apply negb_true_iff in Hpad | now apply negb_true_iff in Hws].
Qed.

Lemma sextets_bounded (l : list ascii) : Forall (fun s => (s < 64)%N) (sextets l).
Proof.
  induction l as [|a|a b|a b c l IH] using list_ind3; simpl.
  - constructor.
  - pose proof (N_ascii_bounded a).
    repeat (constructor; [div_lia|]). constructor.
  - pose proof (N_ascii_bounded a). pose proof (N_ascii_bounded b).
    repeat (constructor; [div_lia|]). constructor.
  - pose proof (N_ascii_bounded a). pose proof (N_ascii_bounded b).
    pose proof (N_ascii_bounded c).
    repeat (constructor; [div_lia|]). exact IH.
Qed.

Lemma decode_sextets_sextets (l : list ascii) : decode_sextets (sextets l) = l.
Proof.
  induction l as [|a|a b|a b c l IH] using list_ind3; simpl.
  - reflexivity.
  - pose proof (N_ascii_bounded a).
    replace (N_of_ascii a / 4 * 4 + N_of_ascii a mod 4 * 16 / 16)%N
      with (N_of_ascii a) by div_lia.
    now rewrite ascii_N_embedding.
  - pose proof (N_ascii_bounded a). pose proof (N_ascii_bounded b).
    replace (N_of_ascii a / 4 * 4
             + (N_of_ascii a mod 4 * 16 + N_of_ascii b / 16) / 16)%N
      with (N_of_ascii a) by div_lia.
    replace ((N_of_ascii a mod 4 * 16 + N_of_ascii b / 16) mod 16 * 16
             + N_of_ascii b mod 16 * 4 / 4)%N
      with (N_of_ascii b) by div_lia.
    now rewrite !ascii_N_embedding.
  - pose proof (N_ascii_bounded a). pose proof (N_ascii_bounded b).
    pose proof (N_ascii_bounded c).
    replace (N_of_ascii a / 4 * 4
             + (N_of_ascii a mod 4 * 16 + N_of_ascii b / 16) / 16)%N
      with (N_of_ascii a) by div_lia.
    replace ((N_of_ascii a mod 4 * 16 + N_of_ascii b / 16) mod 16 * 16
             + (N_of_ascii b mod 16 * 4 + N_of_ascii c / 64) / 4)%N
      with (N_of_ascii b) by div_lia.
    replace ((N_of_ascii b mod 16 * 4 + N_of_ascii c / 64) mod 4 * 64
             + N_of_ascii c mod 64)%N
      with (N_of_ascii c) by div_lia.
    now rewrite !ascii_N_embedding, IH.
Qed.

Lemma base64_chars_clean (sx : list N) :
  Forall (fun s => (s < 64)%N) sx ->
  Forall (fun c => is_pad c = false /\ is_ascii_whitespace c = false)
    (base64_char <$> sx).
Proof.
  induction 1 as [|s sx Hs _ IH]; simpl; constructor; [|exact IH].
  destruct (base64_char_spec s Hs) as (_ & Hp & Hw). now split.
Qed.

Lemma sextets_length (l : list ascii) :
  length (sextets l) = (4 * length l + 2) / 3.
Proof.
  induction l as [|a|a b|a b c l IH] using list_ind3; simpl length;
    try reflexivity.
  rewrite IH. div_lia.
Qed.

Lemma btoa_bytes_length (l : list ascii) :
  length (btoa_bytes l) = 4 * ((length l + 2) / 3).
Proof.
  induction l as [|a|a b|a b c l IH] using list_ind3; simpl length;
    try reflexivity.
  rewrite IH. div_lia.
Qed.

Lemma btoa_bytes_unpadded (l : list ascii) :
  length l mod 3 = 0 -> btoa_bytes l = base64_char <$> sextets l.
Proof.
  induction l as [|a|a b|a b c l IH] using list_ind3; simpl length; intros Hl.
  - reflexivity.
  - discriminate Hl.
  - discriminate Hl.
  - simpl. rewrite IH; [reflexivity|]. div_lia.
Qed.

Lemma btoa_bytes_no_whitespace (l : list ascii) :
  Forall (fun c => is_ascii_whitespace c = false) (btoa_bytes l).
Proof.
  induction l as [|a|a b|a b c l IH] using list_ind3.
  - constructor.
  - pose proof (base64_chars_clean _ (sextets_bounded [a])) as Hc.
    simpl in Hc. inversion Hc as [|? ? [_ H0] Hc1]; subst.
    inversion Hc1 as [|? ? [_ H1] _]; subst.
    simpl. repeat (constructor; [assumption || reflexivity|]). constructor.
  - pose proof (base64_chars_clean _ (sextets_bounded [a; b])) as Hc.
    simpl in Hc. inversion Hc as [|? ? [_ H0] Hc1]; subst.
    inversion Hc1 as [|? ? [_ H1] Hc2]; subst.
    inversion Hc2 as [|? ? [_ H2] _]; subst.
    simpl. repeat (constructor; [assumption || reflexivity|]). constructor.
  - pose proof (base64_chars_clean _ (sextets_bounded [a; b; c])) as Hc.
    simpl in Hc. inversion Hc as [|? ? [_ H0] Hc1]; subst.
    inversion Hc1 as [|? ? [_ H1] Hc2]; subst.
    inversion Hc2 as [|? ? [_ H2] Hc3]; subst.
    inversion Hc3 as [|? ? [_ H3] _]; subst.
    simpl. repeat (constructor; [assumption|]). exact IH.
Qed.

Lemma strip_padding_clean (l : list ascii) :
  Forall (fun c => is_pad c = false) l -> strip_padding l = l.
Proof.
  induction 1 as [|c l Hc Hl IH]; [reflexivity|].
  simpl. destruct l as [|d [|e l]].
  - now rewrite Hc.
  - inversion Hl as [|? ? Hd _]; subst. now rewrite Hd.
  - now rewrite IH.
Qed.

Lemma strip_padding_btoa (l : list ascii) :
  strip_padding (btoa_bytes l) = base64_char <$> sextets l.
Proof.
  induction l as [|a|a b|a b c l IH] using list_ind3.
  - reflexivity.
  - reflexivity.
  - pose proof (base64_chars_clean _ (sextets_bounded [a; b])) as Hc.
    simpl in Hc. inversion Hc as [|? ? _ Hc1]; subst.
    inversion Hc1 as [|? ? _ Hc2]; subst.
    inversion Hc2 as [|? ? [H2 _] _]; subst.
    simpl. now rewrite H2.
  - pose proof (base64_chars_clean _ (sextets_bounded [a; b; c])) as Hc.
    simpl in Hc. inversion Hc as [|? ? _ Hc1]; subst.
    inversion Hc1 as [|? ? _ Hc2]; subst.
    inversion Hc2 as [|? ? _ Hc3]; subst.
    inversion Hc3 as [|? ? [H3 _] _]; subst.
    pose proof (btoa_bytes_length l) as Hlen.
    change (btoa_bytes (a :: b :: c :: l)) with
      (base64_char (N_of_ascii a / 4)
       :: base64_char (N_of_ascii a mod 4 * 16 + N_of_ascii b / 16)
       :: base64_char (N_of_ascii b mod 16 * 4 + N_of_ascii c / 64)
       :: base64_char (N_of_ascii c mod 64) :: btoa_bytes l).
    change (sextets (a :: b :: c :: l)) with
      (N_of_ascii a / 4 :: N_of_ascii a mod 4 * 16 + N_of_ascii b / 16
       :: N_of_ascii b mod 16 * 4 + N_of_ascii c / 64
       :: N_of_ascii c mod 64 :: sextets l)%N.
    rewrite !fmap_cons, <- IH.
    destruct (btoa_bytes l) as [|e1 [|e2 E]].
    + simpl. now rewrite H3.
    + simpl in Hlen. lia.
    + reflexivity.
Qed.

Lemma sextets_length_mod (l : list ascii) : length (sextets l) mod 4 <> 1.
Proof.
  induction l as [|a|a b|a b c l IH] using list_ind3; simpl length;
    try discriminate.
  revert IH. generalize (length (sextets l)). intros n Hn. div_lia.
Qed.

Lemma filter_all {A} (P : A -> Prop) `{!forall x, Decision (P x)} (l : list A) :
  Forall P l -> filter P l = l.
Proof.
  induction 1 as [|x l Hx _ IH]; [reflexivity|].
  rewrite filter_cons_True by assumption. now rewrite IH.
Qed.

(** [atob] undoes [btoa] on every binary string. *)
Lemma atob_btoa (s : string) : atob (btoa s) = Ok s.
Proof.
  unfold atob, btoa.
  rewrite String.list_ascii_of_string_of_list_ascii.
  set (l := String.list_ascii_of_string s).
  rewrite (filter_all _ _ (btoa_bytes_no_whitespace l)).
  assert (H4 : (length (btoa_bytes l) mod 4 =? 0)%nat = true).
  { rewrite btoa_bytes_length. apply Nat.eqb_eq. div_lia. }
  rewrite H4, strip_padding_btoa, length_fmap.
  assert (H1 : (length (sextets l) mod 4 =? 1)%nat = false)
    by (apply Nat.eqb_neq, sextets_length_mod).
  rewrite H1.
  rewrite (mapM_fmap_Forall_Some base64_index base64_char (sextets l)).
  - rewrite decode_sextets_sextets. unfold l.
    now rewrite String.string_of_list_ascii_of_string.
  - eapply Forall_impl; [apply sextets_bounded|].
    intros n Hn. apply (base64_char_spec n Hn).
Qed.

Lemma string_of_list_ascii_length (l : list ascii) :
  String.length (String.string_of_list_ascii l) = length l.
Proof. induction l as [|c l IH]; simpl; [reflexivity | now rewrite IH]. Qed.

Lemma list_ascii_of_string_length (s : string) :
  length (String.list_ascii_of_string s) = String.length s.
Proof. induction s as [|c s IH]; simpl; [reflexivity | now rewrite IH]. Qed.

Lemma strip_trailing_pad_clean (l : list ascii) :
  Forall (fun c => is_pad c = false) l -> strip_trailing_pad l = l.
Proof.
  induction 1 as [|c l Hc _ IH]; [reflexivity|].
  simpl. rewrite IH, Hc. now destruct l.
Qed.

(** Base64 of [3 * n] bytes is [4 * n] characters, none of them padding,
    so that removing trailing [=] changes nothing. *)
Lemma btoa_multiple_of_three (s : string) (n : nat) :
  String.length s = 3 * n ->
  remove_trailing_equals (btoa s) = btoa s
  /\ String.length (btoa s) = 4 * n.
Proof.
  intros Hs. unfold remove_trailing_equals, btoa.
  rewrite String.list_ascii_of_string_of_list_ascii.
  set (l := String.list_ascii_of_string s).
  assert (Hl : length l = 3 * n).
  { unfold l. now rewrite list_ascii_of_string_length. }
  rewrite btoa_bytes_unpadded by (rewrite Hl; div_lia).
  split.
  - rewrite strip_trailing_pad_clean; [reflexivity|].
    eapply Forall_impl; [apply base64_chars_clean, sextets_bounded|].
    now intros c [Hc _].
  - rewrite string_of_list_ascii_length, length_fmap, sextets_length, Hl.
    div_lia.
Qed.

Lemma fresh_key_length (w : World) : String.length (fresh_key w) = 32.
Proof.
  unfold fresh_key.
  destruct (btoa_multiple_of_three
              (String_fromCharCode (entropy w <$> seq (entropy_used w) 24)) 8)
    as [-> Hlen]; [|exact Hlen].
  unfold String_fromCharCode.
  now rewrite string_of_list_ascii_length, length_fmap, length_seq.
Qed.

(** ** Running computations *)

Lemma Async_induction {A} (P : Async A -> Prop) :
  (forall a, P (Resolve a)) ->
  (forall e, P (Reject e)) ->
  (forall k, (forall w, P (snd (k w))) -> P (Sync k)) ->
  (forall k, (forall w, P (snd (k w))) -> P (Await k)) ->
  forall t, P t.
Proof.
  intros Hr Hj Hs Ha. fix IH 1.
  intros [a|e|k|k]; [apply Hr | apply Hj | apply Hs | apply Ha];
    intros w; apply IH.
Qed.

Lemma run_bind {A B} (t : Async A) (f : A -> Async B) (w : World) :
  run (x <- t ;; f x) w =
  match run t w with
  | (w', inr a) => run (f a) w'
  | (w', inl e) => (w', inl e)
  end.
Proof.
  revert w. induction t as [a|e|k IH|k IH] using Async_induction; intros w;
    simpl; try reflexivity.
  - specialize (IH w). destruct (k w) as [w' t']. apply IH.
  - specialize (IH w). destruct (k w) as [w' t']. apply IH.
Qed.

Lemma run_try_catch {A} (t : Async A) (h : string -> Async A) (w : World) :
  run (try_catch t h) w =
  match run t w with
  | (w', inl e) => run (h e) w'
  | (w', inr a) => (w', inr a)
  end.
Proof.
  revert w. induction t as [a|e|k IH|k IH] using Async_induction; intros w;
    simpl; try reflexivity.
  - specialize (IH w). destruct (k w) as [w' t']. apply IH.
  - specialize (IH w). destruct (k w) as [w' t']. apply IH.
Qed.

Lemma run_of_result {A} (r : Result A) (w : World) : run (of_result r) w = (w, r).
Proof. now destruct r. Qed.

Lemma run_promise {A} (r : Result A) (w : World) : run (promise r) w = (w, r).
Proof. now destruct r. Qed.

Lemma run_storage_call {A} (op : World -> World * A) (w : World) :
  run (storage_call op) w =
  match next_fault w with
  | Some msg => (pop_fault w, Ok (Err msg))
  | None => let '(w', a) := op (pop_fault w) in (w', Ok (Ok a))
  end.
Proof.
  unfold storage_call, next_fault, pop_fault. simpl.
  destruct (storage_faults w) as [|[msg|] rest]; simpl; try reflexivity.
  - now destruct (op w).
  - now destruct (op (set_storage_faults rest w)).
Qed.

Lemma run_storage_promise {A} (op : World -> World * A) (w : World) :
  run (storage_promise op) w =
  match next_fault w with
  | Some msg => (pop_fault w, Err msg)
  | None => let '(w', a) := op (pop_fault w) in (w', Ok a)
  end.
Proof.
  unfold storage_promise. rewrite run_bind, run_storage_call.
  destruct (next_fault w); [reflexivity|].
  now destruct (op (pop_fault w)).
Qed.

Lemma run_crypto_getRandomValues (n : nat) (w : World) :
  run (crypto_getRandomValues n) w =
  (set_entropy_used (entropy_used w + n) w,
   Ok (entropy w <$> seq (entropy_used w) n)).
Proof. reflexivity. Qed.

Lemma run_generateEncryptionKey (w : World) :
  run generateEncryptionKey w =
  (set_entropy_used (entropy_used w + 24) w, Ok (fresh_key w)).
Proof. reflexivity. Qed.

(** ** Key Manager *)

(** A usable stored secret is returned as it is, and storage keeps it. *)
Lemma getOrCreateKey_stored (w : World) (k : string) :
  masterEncryptionKey w = Some k -> String.length k = 32 ->
  next_fault w = None ->
  run getOrCreateKey w = (pop_fault w, Ok k).
Proof.
  intros Hk Hlen Hf. unfold getOrCreateKey.
  rewrite run_bind, run_storage_call, Hf. cbv zeta.
  assert (Hk' : masterEncryptionKey (pop_fault w) = Some k).
  { unfold pop_fault. now destruct (storage_faults w). }
  rewrite Hk'. cbv beta iota.
  assert (He : is_empty k = false) by (destruct k; [discriminate | reflexivity]).
  apply Nat.eqb_eq in Hlen. now rewrite He, Hlen.
Qed.

(** Whenever the call succeeds, its result has length 32 and is what
    storage holds afterwards. *)
Lemma getOrCreateKey_success (w w' : World) (k : string) :
  run getOrCreateKey w = (w', Ok k) ->
  String.length k = 32 /\ masterEncryptionKey w' = Some k.
Proof.
  unfold getOrCreateKey. rewrite run_bind, run_storage_call.
  destruct (next_fault w) as [msg|]; [discriminate|]. cbv zeta beta iota.
  set (w1 := pop_fault w).
  set (generate := bind generateEncryptionKey _).
  assert (Hgen : run generate w1 = (w', Ok k) ->
                 String.length k = 32 /\ masterEncryptionKey w' = Some k).
  { unfold generate. rewrite run_bind, run_generateEncryptionKey.
    rewrite fresh_key_length. simpl negb. cbv iota.
    rewrite run_bind, run_storage_call.
    destruct (next_fault _) as [msg|]; [discriminate|].
    cbv zeta beta iota. simpl. intros [= <- <-].
    split; [apply fresh_key_length|].
    unfold pop_fault. now destruct (storage_faults _). }
  destruct (masterEncryptionKey w1) as [key|] eqn:Hstored; [|exact Hgen].
  destruct (negb (is_empty key) && (String.length key =? 32)%nat) eqn:Hv;
    [|exact Hgen].
  simpl. intros [= <- <-].
  apply andb_prop in Hv as [_ Hv]. apply Nat.eqb_eq in Hv. now split.
Qed.

(** C6. Every successful call of [getOrCreateKey] returns a string of
    exactly 32 characters; a fresh key is the base64 text of 24 random
    bytes, 32 characters that removing trailing padding leaves as they
    are; and a second successful call, made while storage still holds what
    the first call left there, returns the identical string. *)
Theorem getOrCreateKey_key_invariant :
  (forall w w' k, run getOrCreateKey w = (w', Ok k) -> String.length k = 32)
  /\ (forall w,
        snd (run generateEncryptionKey w)
        = Ok (btoa (String_fromCharCode (entropy w <$> seq (entropy_used w) 24)))
        /\ String.length (fresh_key w) = 32)
  /\ (forall w1 w1' k1 w2 w2' k2,
        run getOrCreateKey w1 = (w1', Ok k1) ->
        masterEncryptionKey w2 = masterEncryptionKey w1' ->
        run getOrCreateKey w2 = (w2', Ok k2) ->
        k2 = k1).
Proof.
  split; [|split].
  - intros w w' k Hrun. now apply getOrCreateKey_success in Hrun.
  - intros w. split; [|apply fresh_key_length].
    rewrite run_generateEncryptionKey. simpl. f_equal. unfold fresh_key.
    apply (btoa_multiple_of_three _ 8).
    unfold String_fromCharCode.
    now rewrite string_of_list_ascii_length, length_fmap, length_seq.
  - intros w1 w1' k1 w2 w2' k2 H1 Hsame H2.
    apply getOrCreateKey_success in H1 as [Hlen Hstored].
    rewrite Hstored in Hsame.
    destruct (next_fault w2) as [msg|] eqn:Hf.
    + unfold getOrCreateKey in H2.
      rewrite run_bind, run_storage_call, Hf in H2. discriminate H2.
    + rewrite (getOrCreateKey_stored w2 k1 Hsame Hlen Hf) in H2.
      now injection H2 as _ <-.
Qed.

Lemma getOrCreateKey_key_invariant_witness :
  run getOrCreateKey Reference.world
  = (fst (run getOrCreateKey Reference.world),
     Ok "AwoRGB8mLTQ7QklQV15lbHN6gYiPlp2k")
  /\ run getOrCreateKey (fst (run getOrCreateKey Reference.world))
     = (fst (run getOrCreateKey (fst (run getOrCreateKey Reference.world))),
        Ok "AwoRGB8mLTQ7QklQV15lbHN6gYiPlp2k")
  /\ String.length "AwoRGB8mLTQ7QklQV15lbHN6gYiPlp2k" = 32
  /\ "AwoRGB8mLTQ7QklQV15lbHN6gYiPlp2k" = "AwoRGB8mLTQ7QklQV15lbHN6gYiPlp2k".
Proof.
  assert (H1 : run getOrCreateKey Reference.world
               = (fst (run getOrCreateKey Reference.world),
                  Ok "AwoRGB8mLTQ7QklQV15lbHN6gYiPlp2k"))
    by (vm_compute; reflexivity).
  assert (H2 : run getOrCreateKey (fst (run getOrCreateKey Reference.world))
               = (fst (run getOrCreateKey (fst (run getOrCreateKey Reference.world))),
                  Ok "AwoRGB8mLTQ7QklQV15lbHN6gYiPlp2k"))
    by (vm_compute; reflexivity).
  split; [exact H1 | split; [exact H2 | split]].
  - exact (proj1 getOrCreateKey_key_invariant _ _ _ H1).
  - exact (proj2 (proj2 getOrCreateKey_key_invariant) _ _ _ _ _ _ H1 eq_refl H2).
Defined.

Lemma getOrCreateKey_no_faults (w : World) :
  storage_faults w = [] ->
  run getOrCreateKey w = (keyed w, Ok (current_key w)).
Proof.
  intros Hf. unfold getOrCreateKey, keyed, current_key, valid_key.
  rewrite run_bind, run_storage_call. unfold next_fault, pop_fault.
  rewrite Hf. cbv zeta beta iota.
  set (generate := bind generateEncryptionKey _).
  assert (Hgen : run generate w
                 = (set_masterEncryptionKey (Some (fresh_key w))
                      (set_entropy_used (entropy_used w + 24) w),
                    Ok (fresh_key w))).
  { unfold generate. rewrite run_bind, run_generateEncryptionKey.
    rewrite fresh_key_length. simpl negb. cbv iota.
    rewrite run_bind, run_storage_call. unfold next_fault, pop_fault.
    simpl. now rewrite Hf. }
  destruct (masterEncryptionKey w) as [key|]; [|exact Hgen].
  destruct (negb (is_empty key) && (String.length key =? 32)%nat);
    [reflexivity | exact Hgen].
Qed.

Lemma keyed_valid (w : World) :
  valid_key (masterEncryptionKey (keyed w)) = true
  /\ masterEncryptionKey (keyed w) = Some (current_key w)
  /\ String.length (current_key w) = 32.
Proof.
  unfold keyed, current_key.
  destruct (valid_key (masterEncryptionKey w)) eqn:Hv.
  - rewrite Hv. unfold valid_key in Hv.
    destruct (masterEncryptionKey w) as [key|]; [|discriminate].
    apply andb_prop in Hv as [_ Hv]. apply Nat.eqb_eq in Hv. now repeat split.
  - simpl. rewrite fresh_key_length.
    repeat split. destruct (fresh_key w) eqn:Hk; [|reflexivity].
    pose proof (fresh_key_length w) as Hl. rewrite Hk in Hl. discriminate Hl.
Qed.

(** ** Envelope Cipher *)

Section Cipher.
Context `{WebPlatform}.

Lemma run_stringToCryptoKey (key : string) (w : World) :
  run (stringToCryptoKey key) w = (w, Ok (workKey key)).
Proof. reflexivity. Qed.

(** Opening an envelope made under the same secret, with a 12-byte nonce,
    gives the value back. *)
Lemma open_envelope_envelope (key : string) (iv : Uint8Array) (v : JsValue) :
  length iv = 12 -> serializable v ->
  open_envelope key (envelope key iv v) = Ok v.
Proof.
  intros Hiv Hv. unfold open_envelope, envelope.
  rewrite atob_btoa. unfold charCodes, String_fromCharCode.
  rewrite String.list_ascii_of_string_of_list_ascii.
  rewrite <- Hiv, take_app_length, drop_app_length.
  rewrite AES_GCM_decrypt_encrypt. unfold serializable in Hv. now rewrite Hv.
Qed.

Lemma decrypt_stored (w : World) (key encryptedData : string) :
  masterEncryptionKey w = Some key -> String.length key = 32 ->
  next_fault w = None ->
  run (decrypt encryptedData) w = (pop_fault w, open_envelope key encryptedData).
Proof.
  intros Hk Hlen Hf. unfold decrypt, open_envelope.
  rewrite run_try_catch, run_bind, (getOrCreateKey_stored w key Hk Hlen Hf).
  rewrite run_bind, run_stringToCryptoKey, run_bind, run_of_result.
  destruct (atob encryptedData) as [e|binary]; [reflexivity|].
  cbv zeta. rewrite run_bind, run_promise.
  destruct (AES_GCM_decrypt _ _ _) as [e|bytes]; [reflexivity|].
  rewrite run_of_result. unfold deserialize.
  now destruct (JSON_parse _).
Qed.

Lemma encrypt_success (w w' : World) (v : JsValue) (encryptedData : string) :
  run (encrypt v) w = (w', Ok encryptedData) ->
  exists key iv,
    String.length key = 32 /\ length iv = 12
    /\ masterEncryptionKey w' = Some key
    /\ encryptedData = envelope key iv v.
Proof.
  unfold encrypt. rewrite run_try_catch, run_bind.
  destruct (run getOrCreateKey w) as [w1 [e|key]] eqn:Hkey; [discriminate|].
  apply getOrCreateKey_success in Hkey as [Hlen Hstored].
  rewrite run_bind, run_stringToCryptoKey.
  rewrite run_bind, run_crypto_getRandomValues. cbv zeta.
  rewrite run_bind, run_promise. cbn [run].
  intros [= <- <-]. exists key, (entropy w1 <$> seq (entropy_used w1) 12).
  split; [exact Hlen|]. split; [now rewrite length_fmap, length_seq|].
  split; [exact Hstored | reflexivity].
Qed.

Lemma encrypt_no_faults (w : World) (v : JsValue) :
  storage_faults w = [] ->
  run (encrypt v) w
  = (set_entropy_used (entropy_used (keyed w) + 12) (keyed w),
     Ok (envelope (current_key w) (nonce (keyed w)) v)).
Proof.
  intros Hf. unfold encrypt.
  rewrite run_try_catch, run_bind, (getOrCreateKey_no_faults w Hf).
  rewrite run_bind, run_stringToCryptoKey.
  rewrite run_bind, run_crypto_getRandomValues. cbv zeta.
  rewrite run_bind, run_promise. reflexivity.
Qed.

(** C1. Decrypting the result of encrypting a serializable value returns
    the value. With storage working, [encrypt] succeeds and [decrypt],
    run next, returns the value; and whenever [encrypt] has succeeded, its
    result starts with a 12-byte nonce and [decrypt] returns the value in
    every world whose storage holds the secret that [encrypt] left and
    answers the read. *)
Theorem decrypt_encrypt_roundtrip (v : JsValue) :
  serializable v ->
  (forall w, storage_faults w = [] ->
     exists w1 encryptedData w2,
       run (encrypt v) w = (w1, Ok encryptedData)
       /\ run (decrypt encryptedData) w1 = (w2, Ok v))
  /\ (forall w w1 encryptedData,
        run (encrypt v) w = (w1, Ok encryptedData) ->
        (exists iv ciphertext,
           length iv = 12
           /\ atob encryptedData = Ok (String_fromCharCode (app iv ciphertext)))
        /\ forall w2,
             masterEncryptionKey w2 = masterEncryptionKey w1 ->
             next_fault w2 = None ->
             run (decrypt encryptedData) w2 = (pop_fault w2, Ok v)).
Proof.
  intros Hv. split.
  - intros w Hf. rewrite (encrypt_no_faults w v Hf).
    destruct (keyed_valid w) as (_ & Hstored & Hlen).
    eexists _, _, _. split; [reflexivity|].
    rewrite (decrypt_stored _ (current_key w)); [| exact Hstored | exact Hlen |].
    + rewrite open_envelope_envelope; [reflexivity | | exact Hv].
      unfold nonce. now rewrite length_fmap, length_seq.
    + unfold next_fault. simpl.
      replace (storage_faults (keyed w)) with (storage_faults w);
        [now rewrite Hf|].
      unfold keyed. now destruct (valid_key _).
  - intros w w1 encryptedData Hrun.
    apply encrypt_success in Hrun as (key & iv & Hlen & Hiv & Hstored & ->).
    split.
    + exists iv, (AES_GCM_encrypt (workKey key) iv (serialize v)).
      split; [exact Hiv|]. apply atob_btoa.
    + intros w2 Hsame Hf. rewrite Hstored in Hsame.
      rewrite (decrypt_stored w2 key _ Hsame Hlen Hf).
      now rewrite open_envelope_envelope.
Qed.

End Cipher.

Lemma decrypt_encrypt_roundtrip_witness :
  @serializable Reference.platform Reference.cookies
  /\ storage_faults Reference.world = []
  /\ exists w1 encryptedData w2,
       run (@encrypt Reference.platform Reference.cookies) Reference.world
       = (w1, Ok encryptedData)
       /\ run (@decrypt Reference.platform encryptedData) w1
          = (w2, Ok Reference.cookies).
Proof.
  assert (Hs : @serializable Reference.platform Reference.cookies)
    by (vm_compute; reflexivity).
  split; [exact Hs|]. split; [reflexivity|].
  exact (proj1 (@decrypt_encrypt_roundtrip Reference.platform
                  Reference.cookies Hs) Reference.world eq_refl).
Defined.

(** ** Worlds without storage failures *)

Lemma keyed_frame (w : World) :
  storage_faults (keyed w) = storage_faults w
  /\ presets (keyed w) = presets w
  /\ cookie_calls (keyed w) = cookie_calls w
  /\ cookie_store (keyed w) = cookie_store w.
Proof. unfold keyed. now destruct (valid_key _). Qed.

Lemma keyed_idempotent (w : World) :
  keyed (keyed w) = keyed w /\ current_key (keyed w) = current_key w.
Proof.
  destruct (keyed_valid w) as (Hv & Hk & _).
  unfold keyed at 1, current_key at 1. now rewrite Hv, Hk.
Qed.

Lemma keyed_after_encrypt (w : World) :
  keyed (after_encrypt w) = after_encrypt w
  /\ current_key (after_encrypt w) = current_key w.
Proof.
  destruct (keyed_valid w) as (Hv & Hk & _).
  unfold after_encrypt, keyed at 1, current_key at 1.
  cbn [masterEncryptionKey set_entropy_used]. now rewrite Hv, Hk.
Qed.

Lemma keyed_set_presets (p : option (gmap string JsValue)) (w : World) :
  keyed (set_presets p w) = set_presets p (keyed w)
  /\ current_key (set_presets p w) = current_key w.
Proof.
  unfold keyed, current_key. cbn [masterEncryptionKey set_presets].
  now destruct (valid_key _).
Qed.

Lemma run_get_presets (w : World) :
  storage_faults w = [] ->
  run chrome_storage_local_get_presets w = (w, Ok (presets w)).
Proof.
  intros Hf. unfold chrome_storage_local_get_presets.
  rewrite run_storage_promise. unfold next_fault, pop_fault. now rewrite Hf.
Qed.

Lemma run_set_presets (p : gmap string JsValue) (w : World) :
  storage_faults w = [] ->
  run (chrome_storage_local_set_presets p) w
  = (set_presets (Some (persisted <$> p)) w, Ok tt).
Proof.
  intros Hf. unfold chrome_storage_local_set_presets.
  rewrite run_storage_promise. unfold next_fault, pop_fault. now rewrite Hf.
Qed.

Section PresetStore.
Context `{WebPlatform}.

Lemma decrypt_no_faults (w : World) (encryptedData : string) :
  storage_faults w = [] ->
  run (decrypt encryptedData) w
  = (keyed w, open_envelope (current_key w) encryptedData).
Proof.
  intros Hf. unfold decrypt, open_envelope.
  rewrite run_try_catch, run_bind, (getOrCreateKey_no_faults w Hf).
  rewrite run_bind, run_stringToCryptoKey, run_bind, run_of_result.
  destruct (atob encryptedData) as [e|binary]; [reflexivity|].
  cbv zeta. rewrite run_bind, run_promise.
  destruct (AES_GCM_decrypt _ _ _) as [e|bytes]; [reflexivity|].
  rewrite run_of_result. unfold deserialize.
  now destruct (JSON_parse _).
Qed.

Lemma encryptJSON_no_faults (w : World) (v : JsValue) :
  storage_faults w = [] -> is_json_object v = true ->
  run (encryptJSON v) w = (after_encrypt w, Ok (sealed w v)).
Proof.
  intros Hf Hv. unfold encryptJSON. rewrite Hv. cbn [negb].
  now rewrite encrypt_no_faults.
Qed.

Lemma decryptJSON_no_faults (w : World) (stored : JsValue) :
  storage_faults w = [] ->
  run (decryptJSON stored) w
  = (match stored with VString _ => keyed w | _ => w end,
     match opened (current_key w) stored with
     | Success data => Ok data
     | Failure e => Err e
     end).
Proof.
  intros Hf. unfold decryptJSON, opened.
  destruct stored; try reflexivity.
  rewrite run_bind, (decrypt_no_faults w _ Hf).
  destruct (open_envelope _ _) as [e|data]; [reflexivity|].
  now destruct (is_json_object data).
Qed.

Lemma loadPreset_no_faults (w : World) (presetName : string) :
  storage_faults w = [] -> is_empty presetName = false ->
  run (loadPreset presetName) w
  = let stored := prop_get (preset_object w) presetName in
    if truthy stored then
      (match stored with VString _ => keyed w | _ => w end,
       Ok (opened (current_key w) stored))
    else (w, Ok (Failure (not_found presetName))).
Proof.
  intros Hf Hn. unfold loadPreset, preset_object.
  rewrite run_try_catch, Hn, run_bind, (run_get_presets w Hf). cbv zeta.
  destruct (truthy (prop_get (default ∅ (presets w)) presetName));
    [|reflexivity].
  cbn [negb]. rewrite run_bind, (decryptJSON_no_faults w _ Hf).
  now destruct (opened _ _).
Qed.

Lemma savePreset_no_faults (w : World) (presetName : string) (items : list JsValue) :
  storage_faults w = [] -> is_empty (trim presetName) = false ->
  run (savePreset presetName (VArray items)) w
  = (set_presets
       (Some (persisted <$> prop_set (preset_object w) presetName
                              (VString (sealed w (VArray items)))))
       (after_encrypt w),
     Ok (Success presetName)).
Proof.
  intros Hf Ht. unfold savePreset, preset_object.
  assert (Hn : is_empty presetName = false) by (now destruct presetName).
  rewrite run_try_catch, Hn, Ht. cbn [orb Array_isArray negb].
  rewrite run_bind, (encryptJSON_no_faults w (VArray items) Hf eq_refl).
  assert (Hf' : storage_faults (after_encrypt w) = []).
  { unfold after_encrypt. cbn. now rewrite (proj1 (keyed_frame w)). }
  rewrite run_bind, (run_get_presets _ Hf'). cbv zeta.
  rewrite run_bind, (run_set_presets _ _ Hf').
  unfold after_encrypt at 1. cbn [presets set_entropy_used].
  now rewrite (proj1 (proj2 (keyed_frame w))).
Qed.

Lemma renamePreset_no_faults (w : World) (oldName newName : string) :
  storage_faults w = [] ->
  run (renamePreset oldName newName) w
  = if is_empty oldName || is_empty newName then
      (w, Ok (Failure "Both old and new names are required"))
    else if String.eqb oldName newName then
      (w, Ok (Failure "New name must be different from old name"))
    else if negb (truthy (prop_get (preset_object w) oldName)) then
      (w, Ok (Failure (not_found oldName)))
    else if truthy (prop_get (preset_object w) newName) then
      (w, Ok (Failure (already_exists newName)))
    else
      (set_presets
         (Some (persisted <$> delete oldName
                  (prop_set (preset_object w) newName
                     (prop_get (preset_object w) oldName)))) w,
       Ok (Success (oldName, newName))).
Proof.
  intros Hf. unfold renamePreset, preset_object. rewrite run_try_catch.
  destruct (is_empty oldName || is_empty newName); [reflexivity|].
  destruct (String.eqb oldName newName); [reflexivity|].
  rewrite run_bind, (run_get_presets w Hf). cbv zeta.
  destruct (negb (truthy (prop_get (default ∅ (presets w)) oldName)));
    [reflexivity|].
  destruct (truthy (prop_get (default ∅ (presets w)) newName)); [reflexivity|].
  now rewrite run_bind, (run_set_presets _ w Hf).
Qed.

End PresetStore.

(** ** Properties of objects used as maps *)

Lemma prop_get_own (m : gmap string JsValue) (k : string) (v : JsValue) :
  m !! k = Some v -> prop_get m k = v.
Proof. intros Hk. unfold prop_get. now rewrite Hk. Qed.

Lemma prop_get_absent (m : gmap string JsValue) (k : string) :
  m !! k = None -> k ∉ Object_prototype -> prop_get m k = VUndefined.
Proof.
  intros Hk Hp. unfold prop_get, inherited. rewrite Hk.
  now rewrite bool_decide_eq_false_2.
Qed.

Lemma prop_get_inherited (m : gmap string JsValue) (k : string) :
  m !! k = None -> k ∈ Object_prototype -> prop_get m k = VNative k.
Proof.
  intros Hk Hp. unfold prop_get, inherited. rewrite Hk.
  now rewrite bool_decide_eq_true_2.
Qed.

(** An assignment creates or updates the own property, unless the name is
    [__proto__] and not yet an own property. *)
Lemma prop_set_insert (m : gmap string JsValue) (k : string) (v : JsValue) :
  k <> "__proto__" \/ is_Some (m !! k) -> prop_set m k v = <[k:=v]> m.
Proof.
  intros Hk. unfold prop_set. destruct (m !! k) as [old|] eqn:Hm; [reflexivity|].
  destruct Hk as [Hk|[x Hx]]; [|discriminate].
  now apply String.eqb_neq in Hk as ->.
Qed.

Lemma prop_set_proto (m : gmap string JsValue) (v : JsValue) :
  m !! "__proto__" = None -> prop_set m "__proto__" v = m.
Proof. intros Hm. unfold prop_set. now rewrite Hm. Qed.

Lemma truthy_persisted (v : JsValue) : truthy (persisted v) = truthy v.
Proof. now destruct v. Qed.

Lemma prop_get_persisted_own (m : gmap string JsValue) (k : string) (v : JsValue) :
  m !! k = Some v -> prop_get (persisted <$> m) k = persisted v.
Proof. intros Hk. apply prop_get_own. now rewrite lookup_fmap, Hk. Qed.

Lemma prop_get_persisted_absent (m : gmap string JsValue) (k : string) :
  m !! k = None -> prop_get (persisted <$> m) k = inherited k.
Proof. intros Hk. unfold prop_get. now rewrite lookup_fmap, Hk. Qed.

Lemma opened_persisted `{WebPlatform} (key : string) (v : JsValue) :
  opened key (persisted v) = opened key v.
Proof. now destruct v. Qed.

(** A truthy value read at a name that [Object.prototype] does not define
    is an own property. *)
Lemma truthy_own (m : gmap string JsValue) (k : string) :
  truthy (prop_get m k) = true -> k ∉ Object_prototype ->
  m !! k = Some (prop_get m k).
Proof.
  intros Ht Hp. unfold prop_get in *. destruct (m !! k); [reflexivity|].
  unfold inherited in Ht. now rewrite bool_decide_eq_false_2 in Ht.
Qed.

(** A falsy value read at a name means that an assignment to the name
    writes an own property. *)
Lemma falsy_assignable (m : gmap string JsValue) (k : string) (v : JsValue) :
  truthy (prop_get m k) = false -> prop_set m k v = <[k:=v]> m.
Proof.
  intros Hf. apply prop_set_insert. unfold prop_get in Hf.
  destruct (m !! k) as [old|] eqn:Hm; [right; eauto|]. left. intros ->.
  discriminate Hf.
Qed.

(** ** Preset Store *)

Section PresetStoreProperties.
Context `{WebPlatform}.

(** X6. After a successful rename of a name that [Object.prototype] does
    not define, the old name is not found and the new name loads what the
    old one loaded before. *)
Lemma rename_then_load (w w' : World) (A B : string) :
  storage_faults w = [] ->
  run (renamePreset A B) w = (w', Ok (Success (A, B))) ->
  A ∉ Object_prototype ->
  snd (run (loadPreset A) w') = Ok (Failure (not_found A))
  /\ snd (run (loadPreset B) w') = snd (run (loadPreset A) w).
Proof.
  intros Hf Hrun HA. rewrite (renamePreset_no_faults w A B Hf) in Hrun.
  destruct (is_empty A || is_empty B) eqn:He; [discriminate|].
  apply orb_false_elim in He as [HeA HeB].
  destruct (String.eqb A B) eqn:Hne; [discriminate|].
  apply String.eqb_neq in Hne.
  destruct (truthy (prop_get (preset_object w) A)) eqn:HtA; [|discriminate].
  destruct (truthy (prop_get (preset_object w) B)) eqn:HtB; [discriminate|].
  cbn [negb] in Hrun. injection Hrun as <-.
  rewrite (falsy_assignable _ _ _ HtB).
  set (v := prop_get (preset_object w) A) in *.
  set (m' := persisted <$> delete A (<[B:=v]> (preset_object w))).
  assert (Hf' : storage_faults (set_presets (Some m') w) = []) by exact Hf.
  assert (HgetA : prop_get m' A = VUndefined).
  { unfold m'. rewrite prop_get_persisted_absent by apply lookup_delete_eq.
    unfold inherited. now rewrite bool_decide_eq_false_2. }
  assert (HgetB : prop_get m' B = persisted v).
  { unfold m'. apply prop_get_persisted_own.
    rewrite lookup_delete_ne by exact Hne. apply lookup_insert_eq. }
  rewrite !loadPreset_no_faults by assumption.
  change (preset_object (set_presets (Some m') w)) with m'.
  cbv zeta. rewrite HgetA, HgetB, truthy_persisted.
  fold v. rewrite HtA. cbn [truthy snd]. split; [reflexivity|].
  rewrite (proj2 (keyed_set_presets _ w)). now rewrite opened_persisted.
Qed.

(** C3. A preset saved under a name that every object inherits, such as
    [toString], can be renamed; afterwards loading the old name does not
    answer that the preset is not found: the inherited property is taken
    for a stored envelope, and the failure is that of [decryptJSON]. *)
Theorem rename_then_load_inherited_name (w : World) (B : string) (v : JsValue) :
  storage_faults w = [] ->
  preset_object w !! "toString" = Some v -> truthy v = true ->
  is_empty B = false -> B <> "toString" ->
  truthy (prop_get (preset_object w) B) = false ->
  exists w',
    run (renamePreset "toString" B) w = (w', Ok (Success ("toString", B)))
    /\ snd (run (loadPreset "toString") w')
       = Ok (Failure "decryptJSON requires a string input")
    /\ snd (run (loadPreset "toString") w') <> Ok (Failure (not_found "toString")).
Proof.
  intros Hf Hv Ht HeB Hne HtB.
  rewrite (renamePreset_no_faults w "toString" B Hf).
  rewrite HeB. cbn [is_empty orb].
  assert (Hneb : String.eqb "toString" B = false)
    by (apply String.eqb_neq; congruence).
  rewrite Hneb, (prop_get_own _ _ _ Hv), Ht, HtB. cbn [negb].
  eexists. split; [reflexivity|].
  rewrite loadPreset_no_faults by (exact Hf || reflexivity).
  rewrite (falsy_assignable _ _ _ HtB).
  set (m' := persisted <$> delete "toString" (<[B:=v]> (preset_object w))).
  change (preset_object (set_presets (Some m') w)) with m'.
  cbv zeta. unfold m'.
  rewrite prop_get_persisted_absent by apply lookup_delete_eq.
  split; [reflexivity | discriminate].
Qed.

End PresetStoreProperties.

Lemma rename_then_load_inherited_name_witness :
  storage_faults (Reference.saved "toString") = []
  /\ preset_object (Reference.saved "toString") !! "toString"
     = Some (prop_get (preset_object (Reference.saved "toString")) "toString")
  /\ truthy (prop_get (preset_object (Reference.saved "toString")) "toString") = true
  /\ is_empty "B" = false
  /\ "B" <> "toString"
  /\ truthy (prop_get (preset_object (Reference.saved "toString")) "B") = false
  /\ exists w',
       run (renamePreset "toString" "B")
         (Reference.saved "toString")
       = (w', Ok (Success ("toString", "B")))
       /\ snd (run (@loadPreset Reference.platform "toString") w')
          = Ok (Failure "decryptJSON requires a string input")
       /\ snd (run (@loadPreset Reference.platform "toString") w')
          <> Ok (Failure (not_found "toString")).
Proof.
  assert (H1 : storage_faults (Reference.saved "toString") = [])
    by (vm_compute; reflexivity).
  assert (H2 : preset_object (Reference.saved "toString") !! "toString"
               = Some (prop_get (preset_object (Reference.saved "toString"))
                         "toString"))
    by (vm_compute; reflexivity).
  assert (H3 : truthy (prop_get (preset_object (Reference.saved "toString"))
                         "toString") = true)
    by (vm_compute; reflexivity).
  assert (H4 : is_empty "B" = false) by reflexivity.
  assert (H5 : "B" <> "toString") by discriminate.
  assert (H6 : truthy (prop_get (preset_object (Reference.saved "toString")) "B")
               = false)
    by (vm_compute; reflexivity).
  repeat (split; [assumption|]).
  exact (@rename_then_load_inherited_name Reference.platform _ _ _
           H1 H2 H3 H4 H5 H6).
Defined.

(** Renaming an absent preset to its own name is refused as an identical
    rename, not as a missing preset: the listed failures overlap, and the
    code checks the names before it reads the map. *)
Lemma rename_absent_to_itself :
  ~ rename_failures_as_listed Reference.world "A" "A".
Proof.
  intros (Habsent & _ & _).
  specialize (Habsent eq_refl). vm_compute in Habsent. discriminate Habsent.
Qed.

(** C4 (amended). While storage works, [rename] fails in this order of
    precedence: a name is empty, or the two names are equal
    (InvalidArgument); else the old name is absent (NotFound), for a name
    that [Object.prototype] does not define; else the new name is present
    (AlreadyExists), in a map whose stored values are truthy. In each case
    the world, and so the whole map, is left as it was. *)
Theorem renamePreset_failures (w : World) (oldName newName : string) :
  storage_faults w = [] ->
  envelopes_nonempty (preset_object w) ->
  (is_empty oldName || is_empty newName = true ->
   run (renamePreset oldName newName) w
   = (w, Ok (Failure "Both old and new names are required")))
  /\ (is_empty oldName || is_empty newName = false ->
      (oldName = newName ->
       run (renamePreset oldName newName) w
       = (w, Ok (Failure "New name must be different from old name")))
      /\ (oldName <> newName ->
          (preset_object w !! oldName = None -> oldName ∉ Object_prototype ->
           run (renamePreset oldName newName) w
           = (w, Ok (Failure (not_found oldName))))
          /\ (is_Some (preset_object w !! oldName) ->
              is_Some (preset_object w !! newName) ->
              run (renamePreset oldName newName) w
              = (w, Ok (Failure (already_exists newName)))))).
Proof.
  intros Hf Hne. rewrite (renamePreset_no_faults w oldName newName Hf).
  split; [now intros ->|]. intros ->. split.
  - intros ->. now rewrite String.eqb_refl.
  - intros Hneq. apply String.eqb_neq in Hneq as ->. split.
    + intros Habsent Hp. now rewrite (prop_get_absent _ _ Habsent Hp).
    + intros [vo Hold] [vn Hnew].
      rewrite (prop_get_own _ _ _ Hold), (prop_get_own _ _ _ Hnew).
      now rewrite (Hne _ _ Hold), (Hne _ _ Hnew).
Qed.

Lemma renamePreset_failures_witness :
  storage_faults (Reference.saved_both "A" "B") = []
  /\ envelopes_nonempty (preset_object (Reference.saved_both "A" "B"))
  /\ run (renamePreset "A" "B") (Reference.saved_both "A" "B")
     = (Reference.saved_both "A" "B", Ok (Failure (already_exists "B")))
  /\ run (renamePreset "C" "B") (Reference.saved_both "A" "B")
     = (Reference.saved_both "A" "B", Ok (Failure (not_found "C"))).
Proof.
  assert (H1 : storage_faults (Reference.saved_both "A" "B") = [])
    by (vm_compute; reflexivity).
  assert (H2 : envelopes_nonempty (preset_object (Reference.saved_both "A" "B")))
    by (unfold envelopes_nonempty; apply (bool_decide_unpack _); vm_compute; exact I).
  split; [exact H1|]. split; [exact H2|].
  destruct (renamePreset_failures (Reference.saved_both "A" "B") "A" "B" H1 H2)
    as [_ HAB].
  destruct (renamePreset_failures (Reference.saved_both "A" "B") "C" "B" H1 H2)
    as [_ HCB].
  split.
  - apply (HAB eq_refl); [discriminate | | ]; vm_compute; eauto.
  - apply (HCB eq_refl); [discriminate | vm_compute; reflexivity |].
    apply (bool_decide_unpack _). vm_compute. exact I.
Defined.

Lemma btoa_nonempty (s : string) : is_empty s = false -> is_empty (btoa s) = false.
Proof.
  destruct s as [|a s]; [discriminate|]. intros _. unfold btoa. simpl.
  now destruct (String.list_ascii_of_string s) as [|b [|c l]].
Qed.

Section Overwrite.
Context `{WebPlatform}.

Lemma sealed_nonempty (w : World) (v : JsValue) : is_empty (sealed w v) = false.
Proof. apply btoa_nonempty. reflexivity. Qed.

Lemma after_encrypt_frame (w : World) :
  storage_faults (after_encrypt w) = storage_faults w
  /\ preset_object (after_encrypt w) = preset_object w.
Proof.
  unfold after_encrypt, preset_object. cbn [storage_faults presets set_entropy_used].
  destruct (keyed_frame w) as (-> & -> & _). now split.
Qed.

(** Loading a name right after a save under it, when the assignment wrote
    an own property: the saved list comes back. *)
Lemma save_then_load (w : World) (A : string) (Y : list JsValue) :
  storage_faults w = [] -> is_empty (trim A) = false ->
  A <> "__proto__" \/ is_Some (preset_object w !! A) ->
  serializable (VArray Y) ->
  exists w1,
    run (savePreset A (VArray Y)) w = (w1, Ok (Success A))
    /\ storage_faults w1 = []
    /\ is_Some (preset_object w1 !! A)
    /\ snd (run (loadPreset A) w1) = Ok (Success (VArray Y)).
Proof.
  intros Hf Ht HA HY.
  assert (Hn : is_empty A = false) by (now destruct A).
  rewrite (savePreset_no_faults w A Y Hf Ht), (prop_set_insert _ _ _ HA).
  set (e := sealed w (VArray Y)).
  set (m1 := persisted <$> <[A:=VString e]> (preset_object w)).
  eexists. split; [reflexivity|].
  assert (Hf1 : storage_faults (set_presets (Some m1) (after_encrypt w)) = []).
  { cbn. now rewrite (proj1 (keyed_frame w)). }
  assert (Hget : m1 !! A = Some (VString e)).
  { unfold m1. now rewrite lookup_fmap, lookup_insert_eq. }
  split; [exact Hf1|]. split; [now exists (VString e)|].
  rewrite (loadPreset_no_faults _ A Hf1 Hn).
  change (preset_object (set_presets (Some m1) (after_encrypt w))) with m1.
  cbv zeta. rewrite (prop_get_own _ _ _ Hget). cbn [truthy].
  fold e. unfold e at 1. rewrite sealed_nonempty. cbn [negb snd].
  rewrite (proj2 (keyed_set_presets _ _)), (proj2 (keyed_after_encrypt w)).
  unfold opened, e, sealed. rewrite open_envelope_envelope; [reflexivity| |exact HY].
  unfold nonce. now rewrite length_fmap, length_seq.
Qed.

(** X4. Saving twice under a name other than [__proto__] succeeds both
    times, and the name then loads the second list. *)
Lemma save_overwrites (w : World) (A : string) (X Y : list JsValue) :
  storage_faults w = [] -> is_empty (trim A) = false -> A <> "__proto__" ->
  serializable (VArray Y) ->
  exists w1 w2,
    run (savePreset A (VArray X)) w = (w1, Ok (Success A))
    /\ run (savePreset A (VArray Y)) w1 = (w2, Ok (Success A))
    /\ snd (run (loadPreset A) w2) = Ok (Success (VArray Y)).
Proof.
  intros Hf Ht HA HY.
  rewrite (savePreset_no_faults w A X Hf Ht).
  set (w1 := set_presets _ (after_encrypt w)).
  assert (Hf1 : storage_faults w1 = []).
  { unfold w1. cbn. now rewrite (proj1 (keyed_frame w)). }
  destruct (save_then_load w1 A Y Hf1 Ht (or_introl HA) HY)
    as (w2 & Hsave & _ & _ & Hload).
  exists w1, w2. split; [reflexivity|]. split; [exact Hsave | exact Hload].
Qed.

(** C5. Saving twice under the name [__proto__] reports success both
    times, yet nothing is stored: the assignment [presets[presetName] =
    encryptedData] reaches the inherited accessor, which ignores a string.
    Loading the name then fails, taking the prototype itself for the
    stored envelope. *)
Theorem save_twice_under_proto (w : World) (X Y : list JsValue) :
  storage_faults w = [] ->
  preset_object w !! "__proto__" = None ->
  exists w1 w2,
    run (savePreset "__proto__" (VArray X)) w = (w1, Ok (Success "__proto__"))
    /\ run (savePreset "__proto__" (VArray Y)) w1 = (w2, Ok (Success "__proto__"))
    /\ preset_object w2 !! "__proto__" = None
    /\ snd (run (loadPreset "__proto__") w2)
       = Ok (Failure "decryptJSON requires a string input")
    /\ snd (run (loadPreset "__proto__") w2) <> Ok (Success (VArray Y)).
Proof.
  intros Hf Hm.
  rewrite (savePreset_no_faults w "__proto__" X Hf eq_refl).
  rewrite (prop_set_proto _ _ Hm).
  set (w1 := set_presets (Some (persisted <$> preset_object w)) (after_encrypt w)).
  assert (Hf1 : storage_faults w1 = []).
  { unfold w1. cbn. now rewrite (proj1 (keyed_frame w)). }
  assert (Hm1 : preset_object w1 !! "__proto__" = None).
  { unfold w1.
    change (preset_object (set_presets (Some ?m) _)) with m.
    now rewrite lookup_fmap, Hm. }
  exists w1. rewrite (savePreset_no_faults w1 "__proto__" Y Hf1 eq_refl).
  rewrite (prop_set_proto _ _ Hm1).
  set (w2 := set_presets (Some (persisted <$> preset_object w1)) (after_encrypt w1)).
  assert (Hf2 : storage_faults w2 = []).
  { unfold w2. cbn. now rewrite (proj1 (keyed_frame w1)). }
  assert (Hm2 : preset_object w2 !! "__proto__" = None).
  { unfold w2.
    change (preset_object (set_presets (Some ?m) _)) with m.
    now rewrite lookup_fmap, Hm1. }
  exists w2. split; [reflexivity|]. split; [reflexivity|]. split; [exact Hm2|].
  rewrite (loadPreset_no_faults w2 "__proto__" Hf2 eq_refl). cbv zeta.
  rewrite (prop_get_inherited _ _ Hm2)
    by (apply (bool_decide_unpack _); vm_compute; exact I).
  split; [reflexivity | discriminate].
Qed.

End Overwrite.

Lemma save_twice_under_proto_witness :
  storage_faults Reference.world = []
  /\ preset_object Reference.world !! "__proto__" = None
  /\ exists w1 w2,
       run (@savePreset Reference.platform "__proto__" Reference.cookies)
         Reference.world = (w1, Ok (Success "__proto__"))
       /\ run (@savePreset Reference.platform "__proto__" (VArray [])) w1
          = (w2, Ok (Success "__proto__"))
       /\ preset_object w2 !! "__proto__" = None
       /\ snd (run (@loadPreset Reference.platform "__proto__") w2)
          = Ok (Failure "decryptJSON requires a string input")
       /\ snd (run (@loadPreset Reference.platform "__proto__") w2)
          <> Ok (Success (VArray [])).
Proof.
  split; [reflexivity|]. split; [reflexivity|].
  exact (@save_twice_under_proto Reference.platform Reference.world _ []
           eq_refl eq_refl).
Defined.

Section GivenName.
Context `{WebPlatform}.

(** X5. A save under a name other than [__proto__] writes the entry
    under that very name, untrimmed, and changes what no other name
    loads. *)
Lemma save_under_given_name (w : World) (name other : string) (X : list JsValue) :
  storage_faults w = [] -> is_empty (trim name) = false ->
  name <> "__proto__" -> other <> name -> is_empty other = false ->
  exists w1,
    run (savePreset name (VArray X)) w = (w1, Ok (Success name))
    /\ preset_object w1 !! name = Some (VString (sealed w (VArray X)))
    /\ preset_object w1 !! other = persisted <$> (preset_object w !! other)
    /\ snd (run (loadPreset other) w1) = snd (run (loadPreset other) w).
Proof.
  intros Hf Ht Hname Hother Ho.
  rewrite (savePreset_no_faults w name X Hf Ht).
  rewrite (prop_set_insert _ _ _ (or_introl Hname)).
  set (e := sealed w (VArray X)).
  set (m1 := persisted <$> <[name:=VString e]> (preset_object w)).
  eexists. split; [reflexivity|].
  change (preset_object (set_presets (Some m1) (after_encrypt w))) with m1.
  assert (Hf1 : storage_faults (set_presets (Some m1) (after_encrypt w)) = []).
  { cbn. now rewrite (proj1 (keyed_frame w)). }
  assert (Hlook : m1 !! other = persisted <$> (preset_object w !! other)).
  { unfold m1. rewrite lookup_fmap, lookup_insert_ne by congruence. reflexivity. }
  split; [unfold m1; now rewrite lookup_fmap, lookup_insert_eq|].
  split; [exact Hlook|].
  rewrite !loadPreset_no_faults by assumption.
  change (preset_object (set_presets (Some m1) (after_encrypt w))) with m1.
  cbv zeta.
  rewrite (proj2 (keyed_set_presets _ _)), (proj2 (keyed_after_encrypt w)).
  unfold prop_get. rewrite Hlook.
  destruct (preset_object w !! other) as [v|]; cbn [fmap option_fmap option_map].
  - rewrite truthy_persisted, opened_persisted. now destruct (truthy v).
  - now destruct (truthy (inherited other)).
Qed.

(** C10. A save under the name [__proto__], whose trimmed form is not
    empty, reports success and stores no entry under that name or any
    other: the map written back is the map read, and the name cannot be
    loaded. *)
Theorem save_under_proto_stores_nothing (w : World) (X : list JsValue) :
  storage_faults w = [] ->
  preset_object w !! "__proto__" = None ->
  is_empty (trim "__proto__") = false
  /\ exists w1,
       run (savePreset "__proto__" (VArray X)) w = (w1, Ok (Success "__proto__"))
       /\ preset_object w1 = persisted <$> preset_object w
       /\ preset_object w1 !! "__proto__" = None
       /\ snd (run (loadPreset "__proto__") w1)
          = Ok (Failure "decryptJSON requires a string input").
Proof.
  intros Hf Hm. split; [reflexivity|].
  rewrite (savePreset_no_faults w "__proto__" X Hf eq_refl).
  rewrite (prop_set_proto _ _ Hm).
  set (w1 := set_presets (Some (persisted <$> preset_object w)) (after_encrypt w)).
  assert (Hf1 : storage_faults w1 = []).
  { unfold w1. cbn. now rewrite (proj1 (keyed_frame w)). }
  assert (Hm1 : preset_object w1 !! "__proto__" = None).
  { unfold w1.
    change (preset_object (set_presets (Some ?m) _)) with m.
    now rewrite lookup_fmap, Hm. }
  exists w1. split; [reflexivity|]. split; [reflexivity|]. split; [exact Hm1|].
  rewrite (loadPreset_no_faults w1 "__proto__" Hf1 eq_refl). cbv zeta.
  rewrite (prop_get_inherited _ _ Hm1)
    by (apply (bool_decide_unpack _); vm_compute; exact I).
  reflexivity.
Qed.

End GivenName.

Lemma save_under_proto_stores_nothing_witness :
  storage_faults (Reference.saved "A") = []
  /\ preset_object (Reference.saved "A") !! "__proto__" = None
  /\ is_empty (trim "__proto__") = false
  /\ exists w1,
       run (@savePreset Reference.platform "__proto__" Reference.cookies)
         (Reference.saved "A") = (w1, Ok (Success "__proto__"))
       /\ preset_object w1 = persisted <$> preset_object (Reference.saved "A")
       /\ preset_object w1 !! "__proto__" = None
       /\ snd (run (@loadPreset Reference.platform "__proto__") w1)
          = Ok (Failure "decryptJSON requires a string input").
Proof.
  assert (H1 : storage_faults (Reference.saved "A") = [])
    by (vm_compute; reflexivity).
  assert (H2 : preset_object (Reference.saved "A") !! "__proto__" = None)
    by (vm_compute; reflexivity).
  split; [exact H1|]. split; [exact H2|].
  exact (@save_under_proto_stores_nothing Reference.platform _ _ H1 H2).
Defined.

(** The names ["A"] and [" A "] are two presets: saving under the second
    leaves the first not found, and the second loads the saved cookies. *)
Example untrimmed_names_are_distinct :
  snd (run (@loadPreset Reference.platform "A") (Reference.saved " A "))
  = Ok (Failure (not_found "A"))
  /\ snd (run (@loadPreset Reference.platform " A ") (Reference.saved " A "))
     = Ok (Success Reference.cookies).
Proof. split; vm_compute; reflexivity. Qed.

(** ** Application Protocol *)

Lemma lookup_prop_set_ne (m : gmap string JsValue) (k k' : string) (v : JsValue) :
  k <> k' -> prop_set m k v !! k' = m !! k'.
Proof.
  intros Hk. unfold prop_set.
  destruct (m !! k); [now apply lookup_insert_ne|].
  destruct (String.eqb k "__proto__"); [reflexivity | now apply lookup_insert_ne].
Qed.

Lemma lookup_prop_set_eq (m : gmap string JsValue) (k : string) (v : JsValue) :
  k <> "__proto__" -> prop_set m k v !! k = Some v.
Proof.
  intros Hk. rewrite prop_set_insert by now left. apply lookup_insert_eq.
Qed.

Lemma run_chrome_cookies_set (config : gmap string JsValue) (w : World) :
  run (chrome_cookies_set config) w
  = (set_cookie_calls (cookie_calls w ++ [config]) w,
     cookie_store w (cookie_calls w) config).
Proof.
  unfold chrome_cookies_set. cbn [run]. now rewrite run_of_result.
Qed.

(** [setCookie] on details that carry a URL: one write, whose answer
    becomes the response. *)
Lemma run_setCookie (cookieDetails : gmap string JsValue) (w : World) :
  truthy (prop_get cookieDetails "url") = true ->
  run (setCookie cookieDetails) w
  = (set_cookie_calls
       (cookie_calls w ++ [cookieConfig (prop_get cookieDetails "url") cookieDetails]) w,
     Ok (match cookie_store w (cookie_calls w)
                 (cookieConfig (prop_get cookieDetails "url") cookieDetails) with
         | inl e => Failure e
         | inr cookie => Success cookie
         end)).
Proof.
  intros Hurl. unfold setCookie. rewrite run_try_catch, Hurl. cbn [negb andb].
  rewrite run_bind. cbn [run]. rewrite run_bind, run_chrome_cookies_set.
  now destruct (cookie_store w _ _).
Qed.

Lemma applyPreset_cookieDetails_ok (domain : string) (cookie : JsValue) :
  has_properties cookie = true ->
  applyPreset_cookieDetails domain cookie
  = Ok (<["url" := VString (target_url domain (read cookie "secure"))]>
          (<["domain" := VString domain]> (spread cookie))).
Proof.
  intros Hc. unfold applyPreset_cookieDetails, read, target_url.
  destruct cookie; try discriminate Hc; reflexivity.
Qed.

Lemma target_url_truthy (domain : string) (secure : JsValue) :
  truthy (VString (target_url domain secure)) = true.
Proof. unfold target_url. now destruct (truthy secure). Qed.

Lemma run_applyPreset_loop (domain : string) (cookies : list JsValue) :
  Forall (fun c => has_properties c = true) cookies ->
  forall (w : World) (successCount failCount : nat) (errors : list (JsValue * string)),
    run (applyPreset_loop domain cookies successCount failCount errors) w
    = (set_cookie_calls (cookie_calls w ++ (applied_config domain <$> cookies)) w,
       Ok (successCount
           + applied_count (verdicts (cookie_store w) (cookie_calls w)
                              (applied_config domain <$> cookies)),
           failCount
           + failed_count (verdicts (cookie_store w) (cookie_calls w)
                             (applied_config domain <$> cookies)),
           (errors
            ++ failure_details cookies
                 (verdicts (cookie_store w) (cookie_calls w)
                    (applied_config domain <$> cookies)))%list)).
Proof.
  induction 1 as [|cookie cookies Hc _ IH]; intros w successCount failCount errors.
  - cbn. rewrite !Nat.add_0_r, !app_nil_r. now destruct w.
  - cbn [applyPreset_loop]. rewrite run_bind, run_of_result.
    rewrite (applyPreset_cookieDetails_ok _ _ Hc). rewrite run_bind.
    rewrite run_setCookie
      by (rewrite (prop_get_own _ "url" _ (lookup_insert_eq _ _ _));
          apply target_url_truthy).
    rewrite (prop_get_own _ "url" _ (lookup_insert_eq _ _ _)).
    fold (applied_config domain cookie).
    cbn [fmap list_fmap verdicts applied_count failed_count failure_details].
    destruct (cookie_store w (cookie_calls w) (applied_config domain cookie))
      as [e|accepted].
    + rewrite run_bind, run_of_result.
      assert (Hname : get_property cookie "name" = Ok (read cookie "name")).
      { unfold read. destruct cookie; try discriminate Hc; reflexivity. }
      rewrite Hname, IH. cbn [cookie_calls cookie_store set_cookie_calls].
      rewrite <- !app_assoc. cbn [app]. now rewrite Nat.add_succ_r.
    + rewrite IH. cbn [cookie_calls cookie_store set_cookie_calls].
      rewrite <- !app_assoc. cbn [app]. now rewrite Nat.add_succ_r.
Qed.

Lemma verdicts_length store (history configs : list (gmap string JsValue)) :
  length (verdicts store history configs) = length configs.
Proof.
  revert history. induction configs as [|c configs IH]; intros history;
    [reflexivity|]. cbn. now rewrite IH.
Qed.

Lemma counts_add_up (answers : list (Result JsValue)) :
  applied_count answers + failed_count answers = length answers.
Proof.
  induction answers as [|[e|a] answers IH]; cbn; [reflexivity | lia | lia].
Qed.

Lemma failure_details_length (cookies : list JsValue) (answers : list (Result JsValue)) :
  length cookies = length answers ->
  length (failure_details cookies answers) = failed_count answers.
Proof.
  revert answers. induction cookies as [|c cookies IH]; intros [|[e|a] answers];
    cbn; intros Hl; try reflexivity; try discriminate Hl.
  - f_equal. apply IH. lia.
  - apply IH. lia.
Qed.

Lemma lookup_cond_set_ne (b : bool) (m : gmap string JsValue) (k k' : string)
    (v : JsValue) :
  k <> k' -> (if b then prop_set m k v else m) !! k' = m !! k'.
Proof. intros Hk. destruct b; [now apply lookup_prop_set_ne | reflexivity]. Qed.

Lemma applied_config_url (domain : string) (cookie : JsValue) :
  applied_config domain cookie !! "url"
  = Some (VString (target_url domain (read cookie "secure"))).
Proof.
  unfold applied_config, cookieConfig. cbv zeta.
  rewrite !lookup_cond_set_ne by discriminate.
  rewrite !lookup_insert_ne by discriminate. apply lookup_singleton_eq.
Qed.

Lemma applied_config_domain (domain : string) (cookie : JsValue) :
  is_empty domain = false ->
  applied_config domain cookie !! "domain" = Some (VString domain).
Proof.
  intros Hd. unfold applied_config, cookieConfig. cbv zeta.
  rewrite !lookup_cond_set_ne by discriminate.
  assert (Hget : forall url,
            prop_get (<["url":=url]> (<["domain":=VString domain]> (spread cookie)))
              "domain" = VString domain).
  { intros url. apply prop_get_own.
    rewrite lookup_insert_ne by discriminate. apply lookup_insert_eq. }
  rewrite !Hget. cbn [truthy]. rewrite Hd. cbn [negb].
  now apply lookup_prop_set_eq.
Qed.

Section Application.
Context `{WebPlatform}.

Lemma run_applyPreset (w w1 : World) (presetName domain : string)
    (cookies : list JsValue) :
  is_empty presetName = false -> is_empty domain = false ->
  run (loadPreset presetName) w = (w1, Ok (Success (VArray cookies))) ->
  Forall (fun c => has_properties c = true) cookies ->
  run (applyPreset presetName domain) w
  = (set_cookie_calls (cookie_calls w1 ++ (applied_config domain <$> cookies)) w1,
     Ok (Success
           (bulkResult
              (applied_count (verdicts (cookie_store w1) (cookie_calls w1)
                                (applied_config domain <$> cookies)))
              (failed_count (verdicts (cookie_store w1) (cookie_calls w1)
                               (applied_config domain <$> cookies)))
              (failure_details cookies
                 (verdicts (cookie_store w1) (cookie_calls w1)
                    (applied_config domain <$> cookies)))))).
Proof.
  intros Hn Hd Hload Hc. unfold applyPreset.
  rewrite run_try_catch, Hn, Hd, run_bind, Hload.
  rewrite run_bind. cbn [iterate of_result run].
  rewrite run_bind, (run_applyPreset_loop domain cookies Hc). reflexivity.
Qed.

End Application.

Section ApplicationProperties.
Context `{WebPlatform}.

(** C2. When the preset loads as a sequence of cookies, [applyPreset]
    writes every cookie, in the original order, whatever the answers to
    the earlier writes; it counts each accepted write as applied and each
    rejected one as failed, with a detail carrying the name of the cookie,
    and the details follow the order of the cookies. For three cookies of
    which the Cookie Store rejects exactly the second, the result is 2
    applied, 1 failed and one detail with the name of the second cookie. *)
Theorem applyPreset_partial_failure (w w1 : World) (presetName domain : string)
    (cookies : list JsValue) :
  is_empty presetName = false -> is_empty domain = false ->
  run (loadPreset presetName) w = (w1, Ok (Success (VArray cookies))) ->
  Forall (fun c => has_properties c = true) cookies ->
  exists w2 result,
    run (applyPreset presetName domain) w = (w2, Ok (Success result))
    /\ cookie_calls w2 = (cookie_calls w1 ++ (applied_config domain <$> cookies))%list
    /\ applied result
       = applied_count (verdicts (cookie_store w1) (cookie_calls w1)
                          (applied_config domain <$> cookies))
    /\ failed result
       = failed_count (verdicts (cookie_store w1) (cookie_calls w1)
                         (applied_config domain <$> cookies))
    /\ default [] (errors result)
       = failure_details cookies
           (verdicts (cookie_store w1) (cookie_calls w1)
              (applied_config domain <$> cookies))
    /\ applied result + failed result = length cookies
    /\ length (default [] (errors result)) = failed result
    /\ forall c1 c2 c3 a1 e a3,
         cookies = [c1; c2; c3] ->
         verdicts (cookie_store w1) (cookie_calls w1)
           (applied_config domain <$> cookies) = [Ok a1; Err e; Ok a3] ->
         result = mkBulkResult 2 1 (Some [(read c2 "name", e)]).
Proof.
  intros Hn Hd Hload Hc.
  rewrite (run_applyPreset w w1 presetName domain cookies Hn Hd Hload Hc).
  set (answers := verdicts _ _ _).
  assert (Hlen : length answers = length cookies).
  { unfold answers. now rewrite verdicts_length, length_fmap. }
  assert (Herr : default [] (errors (bulkResult (applied_count answers)
                                       (failed_count answers)
                                       (failure_details cookies answers)))
                 = failure_details cookies answers).
  { unfold bulkResult. cbn [errors]. now destruct (failure_details _ _). }
  eexists _, _. split; [reflexivity|]. split; [reflexivity|].
  split; [reflexivity|]. split; [reflexivity|]. split; [exact Herr|].
  split; [cbn [applied failed bulkResult]; now rewrite counts_add_up|].
  split.
  { rewrite Herr. cbn [failed bulkResult].
    apply failure_details_length. now rewrite Hlen. }
  intros c1 c2 c3 a1 e a3 -> Hans. now rewrite Hans.
Qed.

(** C8. For every cookie that [applyPreset] processes, the object written
    to the Cookie Store has for [url] the scheme chosen by the cookie's
    [secure] flag followed by the target domain without one leading dot,
    and for [domain] the target domain. *)
Theorem applyPreset_target_url (w w1 : World) (presetName domain : string)
    (cookies : list JsValue) :
  is_empty presetName = false -> is_empty domain = false ->
  run (loadPreset presetName) w = (w1, Ok (Success (VArray cookies))) ->
  Forall (fun c => has_properties c = true) cookies ->
  cookie_calls (fst (run (applyPreset presetName domain) w))
  = (cookie_calls w1 ++ (applied_config domain <$> cookies))%list
  /\ Forall
       (fun cookie =>
          applied_config domain cookie !! "url"
          = Some (VString ((if truthy (read cookie "secure")
                            then "https://" else "http://")
                           ++ stripLeadingDot domain))
          /\ applied_config domain cookie !! "domain" = Some (VString domain))
       cookies.
Proof.
  intros Hn Hd Hload Hc.
  rewrite (run_applyPreset w w1 presetName domain cookies Hn Hd Hload Hc).
  split; [reflexivity|].
  apply Forall_forall. intros cookie _. split.
  - apply applied_config_url.
  - now apply applied_config_domain.
Qed.

End ApplicationProperties.

Lemma applyPreset_partial_failure_witness :
  is_empty "P" = false
  /\ is_empty ".example.com" = false
  /\ run (@loadPreset Reference.platform "P") Reference.picky_saved
     = (fst (run (@loadPreset Reference.platform "P") Reference.picky_saved),
        Ok (Success Reference.cookies))
  /\ exists w2,
       run (@applyPreset Reference.platform "P" ".example.com") Reference.picky_saved
       = (w2, Ok (Success (mkBulkResult 2 1
                             (Some [(VString "theme", "Failed to parse or set cookie")])))).
Proof.
  assert (Hload : run (@loadPreset Reference.platform "P") Reference.picky_saved
                  = (fst (run (@loadPreset Reference.platform "P") Reference.picky_saved),
                     Ok (Success Reference.cookies)))
    by (vm_compute; reflexivity).
  split; [reflexivity|]. split; [reflexivity|]. split; [exact Hload|].
  destruct (@applyPreset_partial_failure Reference.platform _ _ "P" ".example.com"
              _ eq_refl eq_refl Hload)
    as (w2 & result & Hrun & _ & _ & _ & _ & _ & _ & Hthree).
  { repeat constructor. }
  exists w2. rewrite Hrun.
  rewrite (Hthree _ _ _
             (VObject (applied_config ".example.com"
                         (Reference.cookie "sid" "abc" true)))
             "Failed to parse or set cookie"
             (VObject (applied_config ".example.com"
                         (Reference.cookie "lang" "en" false)))
             eq_refl)
    by (vm_compute; reflexivity).
  reflexivity.
Defined.

Lemma applyPreset_target_url_witness :
  is_empty "P" = false
  /\ is_empty ".example.com" = false
  /\ run (@loadPreset Reference.platform "P") (Reference.saved "P")
     = (fst (run (@loadPreset Reference.platform "P") (Reference.saved "P")),
        Ok (Success Reference.cookies))
  /\ ((fun call => (call !! "url", call !! "domain"))
      <$> cookie_calls
            (fst (run (@applyPreset Reference.platform "P" ".example.com")
                    (Reference.saved "P"))))
     = [(Some (VString "https://example.com"), Some (VString ".example.com"));
        (Some (VString "http://example.com"), Some (VString ".example.com"));
        (Some (VString "http://example.com"), Some (VString ".example.com"))].
Proof.
  assert (Hload : run (@loadPreset Reference.platform "P") (Reference.saved "P")
                  = (fst (run (@loadPreset Reference.platform "P") (Reference.saved "P")),
                     Ok (Success Reference.cookies)))
    by (vm_compute; reflexivity).
  split; [reflexivity|]. split; [reflexivity|]. split; [exact Hload|].
  destruct (@applyPreset_target_url Reference.platform _ _ "P" ".example.com"
              _ eq_refl eq_refl Hload) as (Hcalls & Hall).
  { repeat constructor. }
  rewrite Hcalls.
  inversion Hall as [|c1 r1 [U1 D1] Hall1]; subst.
  inversion Hall1 as [|c2 r2 [U2 D2] Hall2]; subst.
  inversion Hall2 as [|c3 r3 [U3 D3] _]; subst.
  change (cookie_calls (fst (run (@loadPreset Reference.platform "P")
                               (Reference.saved "P")))) with (@nil (gmap string JsValue)).
  cbn [app fmap list_fmap]. now rewrite U1, D1, U2, D2, U3, D3.
Defined.

(** ** Import *)

Lemma importCookies_cookieDetails_ok (cookie : JsValue)
    (cookieDetails : gmap string JsValue) :
  importCookies_cookieDetails cookie = Ok cookieDetails ->
  truthy (prop_get cookieDetails "url") = true
  /\ get_property cookie "name" = Ok (read cookie "name").
Proof.
  unfold importCookies_cookieDetails, read.
  destruct (get_property cookie "name") as [e|name]; [discriminate|].
  cbv zeta.
  destruct (constructUrl _ _) as [e|url] eqn:Hurl; [discriminate|].
  intros [= <-]. split; [|reflexivity].
  rewrite (prop_get_own _ "url" (VString url))
    by (now apply lookup_prop_set_eq).
  unfold constructUrl in Hurl.
  destruct (match get_property cookie "domain" with inr v => v | inl _ => _ end);
    try discriminate Hurl.
  injection Hurl as <-. exact (target_url_truthy _ _).
Qed.

Lemma is_undefined_or_else (v : JsValue) (b : bool) :
  is_undefined (or_else v (VBool b)) = false.
Proof.
  unfold or_else. destruct (truthy v) eqn:Hv; [|reflexivity].
  destruct v; try reflexivity. discriminate Hv.
Qed.

Lemma truthy_or_else_path (v : JsValue) : truthy (or_else v (VString "/")) = true.
Proof. unfold or_else. now destruct (truthy v) eqn:Hv. Qed.

Lemma sameSite_normalized (v : JsValue) :
  let sameSite :=
    if is_string "no_restriction" v then VString "no_restriction"
    else if is_string "lax" v then VString "lax"
    else if is_string "strict" v then VString "strict"
    else VUndefined in
  normalized_sameSite v = if truthy sameSite then Some sameSite else None.
Proof.
  destruct v as [| |b|n|s|items|props|what]; try reflexivity.
  cbn [is_string normalized_sameSite].
  destruct (String.eqb s "no_restriction") eqn:H1.
  { apply String.eqb_eq in H1. now subst s. }
  destruct (String.eqb s "lax") eqn:H2.
  { apply String.eqb_eq in H2. now subst s. }
  destruct (String.eqb s "strict") eqn:H3; [|reflexivity].
  apply String.eqb_eq in H3. now subst s.
Qed.

Lemma lookup_with_optional_ne (k k' : string) (v : option JsValue)
    (m : gmap string JsValue) :
  k <> k' -> with_optional k v m !! k' = m !! k'.
Proof. intros Hk. destruct v; [now apply lookup_insert_ne|reflexivity]. Qed.

Lemma cond_set_with_optional (b : bool) (m : gmap string JsValue) (k : string)
    (v : JsValue) :
  k <> "__proto__" ->
  (if b then prop_set m k v else m) = with_optional k (if b then Some v else None) m.
Proof.
  intros Hk. destruct b; [|reflexivity]. cbn.
  apply prop_set_insert. now left.
Qed.

(** The request that [importCookies] builds for an element with a string
    as domain is the one that the specification prescribes. *)
Lemma imported_config_normalized_request (cookie : JsValue) :
  importable cookie = true ->
  imported_config cookie = Ok (normalized_request cookie).
Proof.
  unfold importable. intros Hi.
  destruct (read cookie "domain") as [| |b|n|d|items|props|what] eqn:Hd;
    try discriminate Hi. clear Hi.
  destruct cookie as [| |b|n|s|items|props|what];
    try (unfold read in Hd; cbn in Hd; unfold inherited in Hd; cbn in Hd;
         discriminate Hd).
  unfold normalized_request, normalized_expirationDate, imported_config,
    importCookies_cookieDetails.
  rewrite Hd. unfold read in *. cbn [get_property] in *. cbv zeta.
  rewrite Hd. cbn [constructUrl].
  fold (target_url d (prop_get props "secure")).
  set (url := VString (target_url d (prop_get props "secure"))).
  set (base := <["sameSite" := _]> _).
  set (expires := truthy (prop_get props "expirationDate")
                  && negb (truthy (prop_get props "session"))).
  set (dated := if expires
                then prop_set base "expirationDate" (prop_get props "expirationDate")
                else base).
  assert (Hbase : forall k,
            k <> "url" -> k <> "expirationDate" ->
            prop_get (prop_set dated "url" url) k = prop_get base k).
  { intros k Hu He. unfold prop_get.
    rewrite lookup_prop_set_ne by congruence. unfold dated.
    now rewrite lookup_cond_set_ne by congruence. }
  assert (Hown : forall k v, base !! k = Some v -> k <> "url" -> k <> "expirationDate" ->
            prop_get (prop_set dated "url" url) k = v).
  { intros k v Hk Hu He. rewrite Hbase by assumption. now apply prop_get_own. }
  assert (Hurl : prop_get (prop_set dated "url" url) "url" = url).
  { apply prop_get_own. now apply lookup_prop_set_eq. }
  assert (Hexp : prop_get (prop_set dated "url" url) "expirationDate"
                 = if expires then prop_get props "expirationDate" else VUndefined).
  { unfold prop_get. rewrite lookup_prop_set_ne by discriminate. unfold dated.
    destruct expires.
    - now rewrite lookup_prop_set_eq by discriminate.
    - unfold base. now rewrite !lookup_insert_ne by discriminate. }
  unfold cookieConfig. cbv zeta.
  rewrite Hurl, Hexp.
  rewrite !(Hown "name" (prop_get props "name")),
    !(Hown "value" (prop_get props "value")),
    !(Hown "domain" (VString d)),
    !(Hown "path" (or_else (prop_get props "path") (VString "/"))),
    !(Hown "secure" (or_else (prop_get props "secure") (VBool false))),
    !(Hown "httpOnly" (or_else (prop_get props "httpOnly") (VBool false)));
    try discriminate;
    try (unfold base; rewrite ?lookup_insert_ne by discriminate;
         apply lookup_insert_eq).
  erewrite (Hown "sameSite");
    [|unfold base; apply lookup_insert_eq|discriminate|discriminate].
  rewrite truthy_or_else_path, !is_undefined_or_else. cbn [negb].
  rewrite !cond_set_with_optional by discriminate.
  rewrite <- sameSite_normalized.
  assert (Hdated : (if truthy (if expires then prop_get props "expirationDate"
                               else VUndefined)
                    then Some (if expires then prop_get props "expirationDate"
                               else VUndefined)
                    else None)
                   = if truthy (prop_get props "session") then None
                     else if truthy (prop_get props "expirationDate")
                          then Some (prop_get props "expirationDate") else None).
  { unfold expires.
    destruct (truthy (prop_get props "expirationDate")) eqn:He,
             (truthy (prop_get props "session")); cbn; try reflexivity.
    now rewrite He. }
  rewrite Hdated.
  assert (Hdomain : (if truthy (VString d) then Some (VString d) else None)
                    = if is_empty d then None else Some (VString d)).
  { cbn. now destruct (is_empty d). }
  rewrite Hdomain, !prop_set_insert by (left; discriminate). reflexivity.
Qed.

Lemma importCookies_cookieDetails_not_importable (cookie : JsValue) :
  importable cookie = false -> exists e, importCookies_cookieDetails cookie = Err e.
Proof.
  unfold importable, read, importCookies_cookieDetails. intros Hi.
  destruct (get_property cookie "name") as [e|name]; [now exists e|].
  cbv zeta.
  destruct (match get_property cookie "domain" with inr v => v | inl _ => VUndefined end)
    as [| |b|n|d|items|props|what]; try discriminate Hi; cbn; eauto.
Qed.

Lemma importCookies_loop_requests (cookies : list JsValue) :
  forall (w : World) (successCount failCount : nat) (errors : list (JsValue * string)),
    cookie_calls (fst (run (importCookies_loop cookies successCount failCount errors) w))
    = (cookie_calls w ++ (normalized_request <$> importable_prefix cookies))%list.
Proof.
  induction cookies as [|cookie cookies IH]; intros w successCount failCount errors.
  - cbn. now rewrite app_nil_r.
  - cbn [importCookies_loop importable_prefix]. rewrite run_bind, run_of_result.
    destruct (importable cookie) eqn:Hi.
    + pose proof (imported_config_normalized_request cookie Hi) as Hc.
      unfold imported_config in Hc.
      destruct (importCookies_cookieDetails cookie) as [e|cookieDetails] eqn:Hd;
        [discriminate Hc|].
      injection Hc as Hc.
      destruct (importCookies_cookieDetails_ok _ _ Hd) as [Hurl Hname].
      rewrite run_bind, (run_setCookie _ _ Hurl), Hc.
      cbn [fmap list_fmap].
      destruct (cookie_store w (cookie_calls w) (normalized_request cookie))
        as [e|accepted].
      * rewrite run_bind, Hname, run_of_result, IH.
        cbn [cookie_calls set_cookie_calls]. now rewrite <- app_assoc.
      * rewrite IH. cbn [cookie_calls set_cookie_calls]. now rewrite <- app_assoc.
    + destruct (importCookies_cookieDetails_not_importable cookie Hi) as [e ->].
      cbn. now rewrite app_nil_r.
Qed.

Lemma importable_prefix_all (cookies : list JsValue) :
  Forall (fun cookie => importable cookie = true) cookies ->
  importable_prefix cookies = cookies.
Proof.
  induction 1 as [|cookie cookies Hi _ IH]; [reflexivity|].
  cbn. now rewrite Hi, IH.
Qed.

(** What the prescribed request holds: the fields that are kept, and the
    defaults and normalizations. *)
Lemma normalized_request_fields (cookie : JsValue) :
  normalized_request cookie !! "name" = Some (read cookie "name")
  /\ normalized_request cookie !! "value" = Some (read cookie "value")
  /\ (forall d, read cookie "domain" = VString d ->
        normalized_request cookie !! "url"
        = Some (VString (target_url d (read cookie "secure")))
        /\ (is_empty d = false ->
            normalized_request cookie !! "domain" = Some (VString d)))
  /\ (truthy (read cookie "path") = true ->
      normalized_request cookie !! "path" = Some (read cookie "path"))
  /\ (truthy (read cookie "secure") = true ->
      normalized_request cookie !! "secure" = Some (read cookie "secure"))
  /\ (truthy (read cookie "httpOnly") = true ->
      normalized_request cookie !! "httpOnly" = Some (read cookie "httpOnly"))
  /\ (read cookie "sameSite" ∈ [VString "no_restriction"; VString "lax";
                                VString "strict"] ->
      normalized_request cookie !! "sameSite" = Some (read cookie "sameSite"))
  /\ (truthy (read cookie "session") = false ->
      truthy (read cookie "expirationDate") = true ->
      normalized_request cookie !! "expirationDate"
      = Some (read cookie "expirationDate")).
Proof.
  unfold normalized_request. cbv zeta.
  split; [|split; [|split; [|split; [|split; [|split; [|split]]]]]].
  - rewrite !lookup_with_optional_ne, !lookup_insert_ne, lookup_with_optional_ne,
      lookup_insert_ne by discriminate.
    apply lookup_insert_eq.
  - rewrite !lookup_with_optional_ne, !lookup_insert_ne, lookup_with_optional_ne
      by discriminate.
    apply lookup_insert_eq.
  - intros d Hdomain. rewrite Hdomain. split.
    + rewrite !lookup_with_optional_ne, !lookup_insert_ne,
        lookup_with_optional_ne, !lookup_insert_ne by discriminate.
      apply lookup_singleton_eq.
    + intros Hd. rewrite Hd.
      rewrite !lookup_with_optional_ne, !lookup_insert_ne by discriminate.
      apply lookup_insert_eq.
  - intros Hp. rewrite !lookup_with_optional_ne, !lookup_insert_ne by discriminate.
    rewrite lookup_insert_eq. unfold given_or. now rewrite Hp.
  - intros Hs. rewrite !lookup_with_optional_ne, lookup_insert_ne by discriminate.
    rewrite lookup_insert_eq. unfold given_or. now rewrite Hs.
  - intros Hh. rewrite !lookup_with_optional_ne by discriminate.
    rewrite lookup_insert_eq. unfold given_or. now rewrite Hh.
  - intros Hss.
    assert (Hn : normalized_sameSite (read cookie "sameSite")
                 = Some (read cookie "sameSite")).
    { rewrite !elem_of_cons in Hss.
      destruct Hss as [->|[->|[->|Hnil]]]; try reflexivity.
      now apply elem_of_nil in Hnil. }
    rewrite Hn. apply lookup_insert_eq.
  - intros Hsession Hexp. rewrite lookup_with_optional_ne by discriminate.
    unfold normalized_expirationDate. rewrite Hsession, Hexp.
    apply lookup_insert_eq.
Qed.

Lemma normalized_request_defaults (cookie : JsValue) :
  (read cookie "path" = VUndefined ->
   normalized_request cookie !! "path" = Some (VString "/"))
  /\ (read cookie "secure" = VUndefined ->
      normalized_request cookie !! "secure" = Some (VBool false))
  /\ (read cookie "httpOnly" = VUndefined ->
      normalized_request cookie !! "httpOnly" = Some (VBool false))
  /\ (read cookie "sameSite" ∉ [VString "no_restriction"; VString "lax";
                                VString "strict"] ->
      normalized_request cookie !! "sameSite" = None)
  /\ (truthy (read cookie "session") = true ->
      normalized_request cookie !! "expirationDate" = None).
Proof.
  unfold normalized_request. cbv zeta.
  split; [|split; [|split; [|split]]].
  - intros Hp. rewrite !lookup_with_optional_ne, !lookup_insert_ne by discriminate.
    rewrite lookup_insert_eq. now rewrite Hp.
  - intros Hs. rewrite !lookup_with_optional_ne, lookup_insert_ne by discriminate.
    rewrite lookup_insert_eq. now rewrite Hs.
  - intros Hh. rewrite !lookup_with_optional_ne by discriminate.
    rewrite lookup_insert_eq. now rewrite Hh.
  - intros Hss.
    assert (Hn : normalized_sameSite (read cookie "sameSite") = None).
    { destruct (read cookie "sameSite") as [| |b|n|s|items|props|what];
        try reflexivity.
      cbn. destruct (String.eqb s "no_restriction") eqn:H1.
      { apply String.eqb_eq in H1. subst s. exfalso. apply Hss.
        apply elem_of_cons. now left. }
      destruct (String.eqb s "lax") eqn:H2.
      { apply String.eqb_eq in H2. subst s. exfalso. apply Hss.
        apply elem_of_cons. right. apply elem_of_cons. now left. }
      destruct (String.eqb s "strict") eqn:H3; [|reflexivity].
      apply String.eqb_eq in H3. subst s. exfalso. apply Hss.
      do 2 (apply elem_of_cons; right). apply elem_of_cons. now left. }
    rewrite Hn. cbn [with_optional].
    rewrite lookup_with_optional_ne, !lookup_insert_ne, lookup_with_optional_ne,
      !lookup_insert_ne by discriminate.
    apply lookup_singleton_ne. discriminate.
  - intros Hsession. rewrite lookup_with_optional_ne by discriminate.
    unfold normalized_expirationDate. rewrite Hsession. cbn [with_optional].
    rewrite !lookup_insert_ne, lookup_with_optional_ne, !lookup_insert_ne
      by discriminate.
    apply lookup_singleton_ne. discriminate.
Qed.

Section ImportCodec.
Context `{WebPlatform}.

(** C7. Whatever list [importCookies] decodes, the requests it sends to
    the Cookie Store are, in order, the normalized forms of its elements,
    up to the first element whose [domain] is not a string: each request
    is the one that the specification prescribes for the element at the
    same position, with name, value and domain as given, sent to the
    target URL of that domain, and with nothing else in it. A path,
    [secure], [httpOnly], one of the values [no_restriction], [lax] and
    [strict] of [sameSite], and the expiration date of a cookie that is
    not a session cookie are kept as given; a missing path becomes ["/"],
    missing [secure] and [httpOnly] become [false], any other [sameSite]
    is left unset, and the expiration date of a session cookie is not
    passed on. The requests cover the whole list when every element has a
    string as [domain]. *)
Theorem importCookies_normalization (w w1 : World) (jsonData : string)
    (encrypted : bool) (cookies : list JsValue) :
  is_empty jsonData = false ->
  run (if encrypted then decryptJSON (VString jsonData)
       else of_result (JSON_parse jsonData)) w = (w1, Ok (VArray cookies)) ->
  exists configs,
    cookie_calls (fst (run (importCookies jsonData encrypted) w))
    = (cookie_calls w1 ++ configs)%list
    /\ Forall2
         (fun cookie config =>
            config = normalized_request cookie
            /\ config !! "name" = Some (read cookie "name")
            /\ config !! "value" = Some (read cookie "value")
            /\ (forall d, read cookie "domain" = VString d ->
                  config !! "url"
                  = Some (VString (target_url d (read cookie "secure")))
                  /\ (is_empty d = false ->
                      config !! "domain" = Some (VString d)))
            /\ (truthy (read cookie "path") = true ->
                config !! "path" = Some (read cookie "path"))
            /\ (truthy (read cookie "secure") = true ->
                config !! "secure" = Some (read cookie "secure"))
            /\ (truthy (read cookie "httpOnly") = true ->
                config !! "httpOnly" = Some (read cookie "httpOnly"))
            /\ (read cookie "sameSite" ∈ [VString "no_restriction"; VString "lax";
                                          VString "strict"] ->
                config !! "sameSite" = Some (read cookie "sameSite"))
            /\ (truthy (read cookie "session") = false ->
                truthy (read cookie "expirationDate") = true ->
                config !! "expirationDate" = Some (read cookie "expirationDate"))
            /\ (read cookie "path" = VUndefined ->
                config !! "path" = Some (VString "/"))
            /\ (read cookie "secure" = VUndefined ->
                config !! "secure" = Some (VBool false))
            /\ (read cookie "httpOnly" = VUndefined ->
                config !! "httpOnly" = Some (VBool false))
            /\ (read cookie "sameSite" ∉ [VString "no_restriction"; VString "lax";
                                          VString "strict"] ->
                config !! "sameSite" = None)
            /\ (truthy (read cookie "session") = true ->
                config !! "expirationDate" = None))
         (importable_prefix cookies) configs
    /\ (Forall (fun cookie => importable cookie = true) cookies ->
        length configs = length cookies).
Proof.
  intros Hn Hdecode.
  exists (normalized_request <$> importable_prefix cookies).
  split; [|split].
  - unfold importCookies. rewrite run_try_catch, Hn, run_bind, Hdecode.
    cbn [Array_isArray negb]. rewrite run_bind. cbn [iterate of_result run].
    rewrite run_bind.
    pose proof (importCookies_loop_requests cookies w1 0 0 []) as Hcalls.
    destruct (run (importCookies_loop cookies 0 0 []) w1) as [w2 [e|[[a f] errs]]];
      exact Hcalls.
  - apply Forall2_fmap_r, Forall_Forall2_diag, Forall_forall.
    intros cookie _. split; [reflexivity|].
    destruct (normalized_request_fields cookie)
      as (Hname & Hvalue & Hurl & Hpath & Hsecure & HhttpOnly & HsameSite & Hexp).
    destruct (normalized_request_defaults cookie)
      as (Dpath & Dsecure & DhttpOnly & DsameSite & Dexp).
    repeat (split; [assumption|]). assumption.
  - intros Hall. now rewrite length_fmap, (importable_prefix_all _ Hall).
Qed.

End ImportCodec.

Lemma importCookies_normalization_witness :
  is_empty Reference.imported_text = false
  /\ run (if false then @decryptJSON Reference.platform (VString Reference.imported_text)
          else of_result (@JSON_parse Reference.platform Reference.imported_text))
       Reference.world
     = (Reference.world, Ok Reference.imported)
  /\ exists configs,
       cookie_calls (fst (run (@importCookies Reference.platform
                                 Reference.imported_text false) Reference.world))
       = (cookie_calls Reference.world ++ configs)%list
       /\ length configs = 2.
Proof.
  assert (H1 : is_empty Reference.imported_text = false) by (vm_compute; reflexivity).
  assert (H2 : run (if false
                    then @decryptJSON Reference.platform (VString Reference.imported_text)
                    else of_result (@JSON_parse Reference.platform Reference.imported_text))
                 Reference.world
               = (Reference.world, Ok Reference.imported))
    by (vm_compute; reflexivity).
  split; [exact H1|]. split; [exact H2|].
  destruct (@importCookies_normalization Reference.platform _ _ _ false _ H1 H2)
    as (configs & Hcalls & _ & Hlen).
  exists configs. split; [exact Hcalls|]. apply Hlen.
  repeat constructor.
Defined.

(** The two example cookies as the Cookie Store receives them. *)
Example imported_cookies_as_written :
  (fun call => (call !! "path", call !! "secure", call !! "httpOnly",
                call !! "sameSite", call !! "expirationDate"))
  <$> cookie_calls (fst (run (@importCookies Reference.platform
                                Reference.imported_text false) Reference.world))
  = [(Some (VString "/"), Some (VBool false), Some (VBool false), None, None);
     (Some (VString "/"), Some (VBool false), Some (VBool false), None, None)].
Proof. vm_compute. reflexivity. Qed.

(** ** Concurrent mutations *)

Lemma interleave_app {A B} (s1 s2 : list bool) (a : Async A) (b : Async B)
    (w : World) :
  interleave (s1 ++ s2) a b w
  = let '(w', a', b') := interleave s1 a b w in interleave s2 a' b' w'.
Proof.
  revert a b w. induction s1 as [|[|] s1 IH]; intros a b w; cbn;
    [reflexivity | destruct (turn a w) | destruct (turn b w)]; apply IH.
Qed.

Lemma interleave_first {A B} (n : nat) (a : Async A) (b : Async B) (w : World) :
  interleave (replicate n true) a b w
  = let '(w', a') := turns n a w in (w', a', b).
Proof.
  revert a w. induction n as [|n IH]; intros a w; cbn; [reflexivity|].
  destruct (turn a w). apply IH.
Qed.

Lemma interleave_second {A B} (n : nat) (a : Async A) (b : Async B) (w : World) :
  interleave (replicate n false) a b w
  = let '(w', b') := turns n b w in (w', a, b').
Proof.
  revert b w. induction n as [|n IH]; intros b w; cbn; [reflexivity|].
  destruct (turn b w). apply IH.
Qed.

Section Mutations.
Context `{WebPlatform}.

(** After five turns a save has read the preset map and holds its write. *)
Lemma savePreset_reads (w : World) (presetName : string) (items : list JsValue) :
  storage_faults w = [] -> valid_key (masterEncryptionKey w) = true ->
  is_empty (trim presetName) = false ->
  turns 5 (savePreset presetName (VArray items)) w
  = (after_encrypt w,
     try_catch
       (_ <- chrome_storage_local_set_presets
               (prop_set (preset_object w) presetName
                  (VString (sealed w (VArray items)))) ;;
        Resolve (Success presetName))
       fail).
Proof.
  intros Hf Hv Ht.
  assert (Hn : is_empty presetName = false) by (now destruct presetName).
  unfold savePreset. rewrite Hn, Ht. cbn [orb Array_isArray negb].
  unfold encryptJSON.
  cbn [is_json_object typeof String.eqb negb andb Ascii.eqb Bool.eqb].
  unfold after_encrypt, sealed, keyed, current_key, preset_object. rewrite Hv.
  destruct w as [key stored faults random used store calls].
  cbn in Hf. subst faults. destruct key as [k|]; [|discriminate Hv].
  assert (Hv' : negb (is_empty k) && (String.length k =? 32)%nat = true)
    by exact Hv.
  cbn [masterEncryptionKey default from_option id].
  unfold encrypt, getOrCreateKey, stringToCryptoKey, promise,
    crypto_getRandomValues, chrome_storage_local_get_presets, storage_promise,
    storage_call.
  cbn [turns turn bind try_catch sync_steps storage_faults masterEncryptionKey
       of_result].
  rewrite Hv'.
  cbn [turns turn bind try_catch sync_steps storage_faults masterEncryptionKey
       of_result presets entropy_used entropy set_entropy_used].
  reflexivity.
Qed.

(** The sixth turn writes the map that the save holds, whatever the map
    has become in between. *)
Lemma savePreset_writes (w : World) (presetName : string) (m : gmap string JsValue) :
  storage_faults w = [] ->
  turn (try_catch
          (_ <- chrome_storage_local_set_presets m ;; Resolve (Success presetName))
          fail) w
  = (set_presets (Some (persisted <$> m)) w, Resolve (Success presetName)).
Proof.
  intros Hf.
  unfold chrome_storage_local_set_presets, storage_promise, storage_call.
  cbn [turn bind try_catch]. now rewrite Hf.
Qed.

Lemma after_encrypt_keeps_key (w : World) :
  valid_key (masterEncryptionKey w) = true ->
  valid_key (masterEncryptionKey (after_encrypt w)) = true
  /\ storage_faults (after_encrypt w) = storage_faults w
  /\ preset_object (after_encrypt w) = preset_object w.
Proof.
  intros Hv. unfold after_encrypt, keyed, preset_object. rewrite Hv. now cbn.
Qed.

End Mutations.

Section LostUpdate.
Context `{WebPlatform}.

(** C9. No lock serializes the mutations. Two [savePreset] calls in
    flight under different names, each reading the preset map before the
    other writes it, both report success, and the map written last lacks
    the name saved first: the update is lost. Both names are present only
    when the first call completes before the second starts. *)
Theorem concurrent_saves_lose_an_update (w : World) (A B : string)
    (X Y : list JsValue) :
  storage_faults w = [] -> valid_key (masterEncryptionKey w) = true ->
  is_empty (trim A) = false -> is_empty (trim B) = false ->
  A <> B -> A <> "__proto__" -> B <> "__proto__" ->
  preset_object w !! A = None ->
  (let '(w', a, b) :=
     interleave racing (savePreset A (VArray X)) (savePreset B (VArray Y)) w in
   a = Resolve (Success A) /\ b = Resolve (Success B)
   /\ preset_object w' !! A = None
   /\ is_Some (preset_object w' !! B))
  /\ (let '(w', a, b) :=
        interleave serial (savePreset A (VArray X)) (savePreset B (VArray Y)) w in
      a = Resolve (Success A) /\ b = Resolve (Success B)
      /\ is_Some (preset_object w' !! A)
      /\ is_Some (preset_object w' !! B)).
Proof.
  intros Hf Hv HA HB Hne HpA HpB Habsent.
  destruct (after_encrypt_keeps_key w Hv) as (Hv1 & Hf1 & Hm1).
  rewrite Hf in Hf1.
  destruct (after_encrypt_keeps_key _ Hv1) as (Hv2 & Hf2 & Hm2).
  rewrite Hf1 in Hf2. rewrite Hm1 in Hm2.
  split.
  - unfold racing.
    rewrite interleave_app, interleave_first, (savePreset_reads w A X Hf Hv HA).
    rewrite interleave_app, interleave_second,
      (savePreset_reads (after_encrypt w) B Y Hf1 Hv1 HB).
    cbn [interleave].
    rewrite (savePreset_writes _ A _ Hf2).
    rewrite savePreset_writes by exact Hf2.
    rewrite Hm1, (prop_set_insert _ B _ (or_introl HpB)).
    change (preset_object (set_presets (Some ?m) _)) with m.
    rewrite !lookup_fmap, lookup_insert_eq, lookup_insert_ne, Habsent by congruence.
    repeat split; eauto.
  - unfold serial. change (replicate 6 true) with (replicate 5 true ++ [true])%list.
    change (replicate 6 false) with (replicate 5 false ++ [false])%list.
    rewrite interleave_app, interleave_app, interleave_first,
      (savePreset_reads w A X Hf Hv HA).
    cbn [interleave]. rewrite (savePreset_writes _ A _ Hf1).
    set (w1 := set_presets _ (after_encrypt w)).
    assert (Hv' : valid_key (masterEncryptionKey w1) = true) by exact Hv1.
    assert (Hf' : storage_faults w1 = []) by exact Hf1.
    destruct (after_encrypt_keeps_key w1 Hv') as (_ & Hf3 & Hm3).
    rewrite Hf' in Hf3.
    rewrite interleave_app, interleave_second, (savePreset_reads w1 B Y Hf' Hv' HB).
    cbn [interleave]. rewrite (savePreset_writes _ B _ Hf3).
    rewrite (prop_set_insert _ B _ (or_introl HpB)).
    change (preset_object (set_presets (Some ?m) _)) with m.
    unfold w1. change (preset_object (set_presets (Some ?m) _)) with m.
    rewrite (prop_set_insert _ A _ (or_introl HpA)).
    rewrite !lookup_fmap, lookup_insert_eq, lookup_insert_ne, lookup_fmap,
      lookup_insert_eq by congruence.
    repeat split; eauto.
Qed.

End LostUpdate.

Lemma concurrent_saves_lose_an_update_witness :
  storage_faults Reference.keyed_world = []
  /\ valid_key (masterEncryptionKey Reference.keyed_world) = true
  /\ preset_object Reference.keyed_world = ∅
  /\ (let '(w', a, b) :=
        interleave racing
          (@savePreset Reference.platform "A" Reference.cookies)
          (@savePreset Reference.platform "B" Reference.cookies)
          Reference.keyed_world in
      a = Resolve (Success "A") /\ b = Resolve (Success "B")
      /\ preset_object w' !! "A" = None
      /\ is_Some (preset_object w' !! "B")).
Proof.
  assert (H1 : storage_faults Reference.keyed_world = []) by reflexivity.
  assert (H2 : valid_key (masterEncryptionKey Reference.keyed_world) = true)
    by (vm_compute; reflexivity).
  split; [exact H1|]. split; [exact H2|]. split; [reflexivity|].
  refine (proj1 (@concurrent_saves_lose_an_update Reference.platform
                   Reference.keyed_world "A" "B" _ _ H1 H2 eq_refl eq_refl
                   _ _ _ eq_refl)); discriminate.
Defined.

(** * Further properties *)

Lemma framed_bind {A B} (R : World -> World -> Prop) (t : Async A) (f : A -> Async B) :
  framed R t -> (forall a, framed R (f a)) -> framed R (x <- t ;; f x).
Proof.
  intros Ht Hf. induction t as [a|e|k IH|k IH] using Async_induction; cbn in *.
  - apply Hf.
  - exact I.
  - intros w. specialize (Ht w). specialize (IH w).
    destruct (k w) as [w' t']. cbn in IH. destruct Ht. split; auto.
  - intros w. specialize (Ht w). specialize (IH w).
    destruct (k w) as [w' t']. cbn in IH. destruct Ht. split; auto.
Qed.

Lemma framed_try_catch {A} (R : World -> World -> Prop) (t : Async A)
    (h : string -> Async A) :
  framed R t -> (forall e, framed R (h e)) -> framed R (try_catch t h).
Proof.
  intros Ht Hh. induction t as [a|e|k IH|k IH] using Async_induction; cbn in *.
  - exact I.
  - apply Hh.
  - intros w. specialize (Ht w). specialize (IH w).
    destruct (k w) as [w' t']. cbn in IH. destruct Ht. split; auto.
  - intros w. specialize (Ht w). specialize (IH w).
    destruct (k w) as [w' t']. cbn in IH. destruct Ht. split; auto.
Qed.

Lemma run_framed {A B} (f : World -> B) (t : Async A) :
  framed (unchanged f) t -> forall w, f (fst (run t w)) = f w.
Proof.
  induction t as [a|e|k IH|k IH] using Async_induction; cbn; intros Ht w;
    try reflexivity.
  - specialize (Ht w). specialize (IH w). destruct (k w) as [w' t'].
    cbn in IH. destruct Ht as [Hw Ht]. rewrite (IH Ht). exact Hw.
  - specialize (Ht w). specialize (IH w). destruct (k w) as [w' t'].
    cbn in IH. destruct Ht as [Hw Ht]. rewrite (IH Ht). exact Hw.
Qed.

Lemma framed_of_result {A} (R : World -> World -> Prop) (r : Result A) :
  framed R (of_result r).
Proof. destruct r; exact I. Qed.

Section Frames.
Context {B : Type} (f : World -> B).

Lemma framed_promise {A} (r : Result A) : framed (unchanged f) (promise r).
Proof. intros w. split; [reflexivity|apply framed_of_result]. Qed.

Section Storage.
Hypothesis f_faults : forall l w, f (set_storage_faults l w) = f w.

Lemma framed_storage_call {A} (op : World -> World * A) :
  (forall w, f (fst (op w)) = f w) -> framed (unchanged f) (storage_call op).
Proof.
  intros Hop w. cbn. unfold unchanged.
  destruct (storage_faults w) as [|[msg|] rest].
  - pose proof (Hop w) as Hw. destruct (op w) as [w' a]. split; [exact Hw|exact I].
  - split; [apply f_faults|exact I].
  - pose proof (Hop (set_storage_faults rest w)) as Hw.
    destruct (op (set_storage_faults rest w)) as [w' a].
    split; [|exact I]. cbn in Hw. now rewrite Hw.
Qed.

Lemma framed_storage_promise {A} (op : World -> World * A) :
  (forall w, f (fst (op w)) = f w) -> framed (unchanged f) (storage_promise op).
Proof.
  intros Hop. apply framed_bind; [now apply framed_storage_call|].
  intros r. apply framed_of_result.
Qed.

Lemma framed_get_presets : framed (unchanged f) chrome_storage_local_get_presets.
Proof. now apply framed_storage_promise. Qed.

Lemma framed_set_presets (p : gmap string JsValue) :
  (forall q w, f (set_presets q w) = f w) ->
  framed (unchanged f) (chrome_storage_local_set_presets p).
Proof. intros Hp. apply framed_storage_promise. intros w. apply Hp. Qed.

Section KeyMaterial.
Hypothesis f_entropy : forall n w, f (set_entropy_used n w) = f w.
Hypothesis f_key : forall k w, f (set_masterEncryptionKey k w) = f w.

Lemma framed_getRandomValues (n : nat) : framed (unchanged f) (crypto_getRandomValues n).
Proof. intros w. split; [apply f_entropy|exact I]. Qed.

Lemma framed_getOrCreateKey : framed (unchanged f) getOrCreateKey.
Proof.
  unfold getOrCreateKey. apply framed_bind; [now apply framed_storage_call|].
  intros [e|result]; [exact I|].
  assert (Hgen : framed (unchanged f)
            (newKey <- generateEncryptionKey ;;
             if negb (String.length newKey =? 32)%nat then
               Reject ("Generated key has invalid length: "
                       ++ pretty (String.length newKey) ++ " (expected 32)")
             else
               r <- storage_call (fun w => (set_masterEncryptionKey (Some newKey) w, tt)) ;;
               match r with
               | inl lastError => Reject ("Failed to store encryption key: " ++ lastError)
               | inr _ => Resolve newKey
               end)).
  { apply framed_bind.
    - unfold generateEncryptionKey. apply framed_bind; [apply framed_getRandomValues|].
      intros a. exact I.
    - intros newKey. destruct (negb _); [exact I|].
      apply framed_bind; [apply framed_storage_call; intros w; apply f_key|].
      intros [e|[]]; exact I. }
  destruct result as [key|]; [|exact Hgen].
  destruct (negb (is_empty key) && _); [exact I|exact Hgen].
Qed.

Context `{WebPlatform}.

Lemma framed_stringToCryptoKey (key : string) :
  framed (unchanged f) (stringToCryptoKey key).
Proof.
  unfold stringToCryptoKey. apply framed_bind; [apply framed_promise|].
  intros k. apply framed_promise.
Qed.

Lemma framed_encrypt (data : JsValue) : framed (unchanged f) (encrypt data).
Proof.
  unfold encrypt. apply framed_try_catch; [|intros e; exact I].
  apply framed_bind; [apply framed_getOrCreateKey|]. intros key.
  apply framed_bind; [apply framed_stringToCryptoKey|]. intros cryptoKey.
  apply framed_bind; [apply framed_getRandomValues|]. intros iv.
  apply framed_bind; [apply framed_promise|]. intros bytes. exact I.
Qed.

Lemma framed_decrypt (encryptedData : string) :
  framed (unchanged f) (decrypt encryptedData).
Proof.
  unfold decrypt. apply framed_try_catch; [|intros e; exact I].
  apply framed_bind; [apply framed_getOrCreateKey|]. intros key.
  apply framed_bind; [apply framed_stringToCryptoKey|]. intros cryptoKey.
  apply framed_bind; [apply framed_of_result|]. intros binary.
  apply framed_bind; [apply framed_promise|]. intros bytes.
  apply framed_of_result.
Qed.

Lemma framed_encryptJSON (jsonData : JsValue) :
  framed (unchanged f) (encryptJSON jsonData).
Proof.
  unfold encryptJSON. destruct (negb _); [exact I|apply framed_encrypt].
Qed.

Lemma framed_decryptJSON (encryptedString : JsValue) :
  framed (unchanged f) (decryptJSON encryptedString).
Proof.
  destruct encryptedString; try exact I. cbn [decryptJSON].
  apply framed_bind; [apply framed_decrypt|].
  intros data. destruct (negb _); exact I.
Qed.

Lemma framed_loadPreset (presetName : string) :
  framed (unchanged f) (loadPreset presetName).
Proof.
  unfold loadPreset. apply framed_try_catch; [|intros e; exact I].
  destruct (is_empty presetName); [exact I|].
  apply framed_bind; [apply framed_get_presets|]. intros result.
  destruct (negb _); [exact I|].
  apply framed_bind; [apply framed_decryptJSON|]. intros cookies. exact I.
Qed.

Lemma framed_getPresets : framed (unchanged f) getPresets.
Proof.
  unfold getPresets. apply framed_try_catch; [|intros e; exact I].
  apply framed_bind; [apply framed_get_presets|]. intros result. exact I.
Qed.

Section Mutators.
Hypothesis f_presets : forall q w, f (set_presets q w) = f w.

Lemma framed_savePreset (presetName : string) (cookies : JsValue) :
  framed (unchanged f) (savePreset presetName cookies).
Proof.
  unfold savePreset. apply framed_try_catch; [|intros e; exact I].
  destruct (_ || _); [exact I|]. destruct (negb _); [exact I|].
  apply framed_bind; [apply framed_encryptJSON|]. intros encryptedData.
  apply framed_bind; [apply framed_get_presets|]. intros result.
  apply framed_bind; [now apply framed_set_presets|]. intros _. exact I.
Qed.

Lemma framed_deletePreset (presetName : string) :
  framed (unchanged f) (deletePreset presetName).
Proof.
  unfold deletePreset. apply framed_try_catch; [|intros e; exact I].
  destruct (is_empty presetName); [exact I|].
  apply framed_bind; [apply framed_get_presets|]. intros result.
  destruct (negb _); [exact I|].
  apply framed_bind; [now apply framed_set_presets|]. intros _. exact I.
Qed.

Lemma framed_renamePreset (oldName newName : string) :
  framed (unchanged f) (renamePreset oldName newName).
Proof.
  unfold renamePreset. apply framed_try_catch; [|intros e; exact I].
  destruct (_ || _); [exact I|]. destruct (String.eqb _ _); [exact I|].
  apply framed_bind; [apply framed_get_presets|]. intros result.
  destruct (negb _); [exact I|]. destruct (truthy _); [exact I|].
  apply framed_bind; [now apply framed_set_presets|]. intros _. exact I.
Qed.

End Mutators.
End KeyMaterial.
End Storage.

Section Cookies.
Hypothesis f_cookies : forall c w, f (set_cookie_calls c w) = f w.

Lemma framed_chrome_cookies_set (config : gmap string JsValue) :
  framed (unchanged f) (chrome_cookies_set config).
Proof. intros w. split; [apply f_cookies|apply framed_of_result]. Qed.

Lemma framed_setCookie (cookieDetails : gmap string JsValue) :
  framed (unchanged f) (setCookie cookieDetails).
Proof.
  unfold setCookie. apply framed_try_catch; [|intros e; exact I].
  destruct (_ && _); [exact I|].
  apply framed_bind.
  - destruct (truthy _); [exact I|].
    apply framed_bind; [apply framed_of_result|]. intros u. exact I.
  - intros url. apply framed_bind; [apply framed_chrome_cookies_set|].
    intros cookie. exact I.
Qed.

Lemma framed_applyPreset_loop (domain : string) (cookies : list JsValue) :
  forall successCount failCount errors,
    framed (unchanged f)
      (applyPreset_loop domain cookies successCount failCount errors).
Proof.
  induction cookies as [|cookie rest IH]; intros successCount failCount errors;
    [exact I|].
  cbn [applyPreset_loop]. apply framed_bind; [apply framed_of_result|].
  intros cookieDetails. apply framed_bind; [apply framed_setCookie|].
  intros [c|e]; [apply IH|].
  apply framed_bind; [apply framed_of_result|]. intros name. apply IH.
Qed.

Lemma framed_importCookies_loop (cookies : list JsValue) :
  forall successCount failCount errors,
    framed (unchanged f) (importCookies_loop cookies successCount failCount errors).
Proof.
  induction cookies as [|cookie rest IH]; intros successCount failCount errors;
    [exact I|].
  cbn [importCookies_loop]. apply framed_bind; [apply framed_of_result|].
  intros cookieDetails. apply framed_bind; [apply framed_setCookie|].
  intros [c|e]; [apply IH|].
  apply framed_bind; [apply framed_of_result|]. intros name. apply IH.
Qed.

Context `{WebPlatform}.
Hypothesis f_faults : forall l w, f (set_storage_faults l w) = f w.
Hypothesis f_entropy : forall n w, f (set_entropy_used n w) = f w.
Hypothesis f_key : forall k w, f (set_masterEncryptionKey k w) = f w.

Lemma framed_applyPreset (presetName domain : string) :
  framed (unchanged f) (applyPreset presetName domain).
Proof.
  unfold applyPreset. apply framed_try_catch; [|intros e; exact I].
  destruct (is_empty presetName); [exact I|].
  destruct (is_empty domain); [exact I|].
  apply framed_bind; [now apply framed_loadPreset|].
  intros [cookies|e]; [|exact I].
  apply framed_bind; [apply framed_of_result|]. intros items.
  apply framed_bind; [apply framed_applyPreset_loop|].
  intros [[s fl] errs]. exact I.
Qed.

Lemma framed_importCookies (jsonData : string) (encrypted : bool) :
  framed (unchanged f) (importCookies jsonData encrypted).
Proof.
  unfold importCookies. apply framed_try_catch; [|intros e; exact I].
  destruct (is_empty jsonData); [exact I|].
  apply framed_bind.
  - destruct encrypted; [now apply framed_decryptJSON|apply framed_of_result].
  - intros cookies. destruct (negb _); [exact I|].
    apply framed_bind; [apply framed_of_result|]. intros items.
    apply framed_bind; [apply framed_importCookies_loop|].
    intros [[s fl] errs]. exact I.
Qed.

End Cookies.
End Frames.

(** ** Frames of the handlers *)

Lemma run_try_catch_fail {A} (t : Async (Response A)) (w : World) :
  exists w' r, run (try_catch t fail) w = (w', Ok r).
Proof.
  rewrite run_try_catch. destruct (run t w) as [w' [e|a]]; cbn; eauto.
Qed.

Lemma pop_fault_frame (w : World) :
  presets (pop_fault w) = presets w
  /\ masterEncryptionKey (pop_fault w) = masterEncryptionKey w
  /\ cookie_calls (pop_fault w) = cookie_calls w
  /\ entropy_used (pop_fault w) = entropy_used w.
Proof. unfold pop_fault. destruct (storage_faults w); repeat split. Qed.

Lemma run_get_presets_any (w : World) :
  run chrome_storage_local_get_presets w
  = (pop_fault w,
     match next_fault w with Some msg => Err msg | None => Ok (presets w) end).
Proof.
  unfold chrome_storage_local_get_presets. rewrite run_storage_promise.
  destruct (next_fault w); [reflexivity|].
  now rewrite (proj1 (pop_fault_frame w)).
Qed.

Lemma run_set_presets_any (p : gmap string JsValue) (w : World) :
  run (chrome_storage_local_set_presets p) w
  = match next_fault w with
    | Some msg => (pop_fault w, Err msg)
    | None => (set_presets (Some (persisted <$> p)) (pop_fault w), Ok tt)
    end.
Proof.
  unfold chrome_storage_local_set_presets. now rewrite run_storage_promise.
Qed.

Section Atomicity.
Context `{WebPlatform}.

Lemma encryptJSON_keeps_presets (v : JsValue) (w : World) :
  presets (fst (run (encryptJSON v) w)) = presets w.
Proof. apply run_framed. now apply framed_encryptJSON. Qed.

Lemma savePreset_failure (w w' : World) (presetName : string) (cookies : JsValue)
    (e : string) :
  run (savePreset presetName cookies) w = (w', Ok (Failure e)) ->
  presets w' = presets w.
Proof.
  unfold savePreset. rewrite run_try_catch.
  destruct (_ || _); [cbn; now intros [= <- _]|].
  destruct (negb _); [cbn; now intros [= <- _]|].
  rewrite run_bind. pose proof (encryptJSON_keeps_presets cookies w) as Hframe.
  destruct (run (encryptJSON cookies) w) as [w1 [e1|encryptedData]];
    cbn [fst] in Hframe; [cbn; now intros [= <- _]|].
  rewrite run_bind, run_get_presets_any.
  destruct (next_fault w1);
    [cbn; intros [= <- _]; now rewrite (proj1 (pop_fault_frame w1))|].
  rewrite run_bind, run_set_presets_any.
  destruct (next_fault (pop_fault w1)); [|cbn; discriminate].
  cbn. intros [= <- _]. now rewrite !(proj1 (pop_fault_frame _)).
Qed.

Lemma deletePreset_failure (w w' : World) (presetName e : string) :
  run (deletePreset presetName) w = (w', Ok (Failure e)) ->
  presets w' = presets w.
Proof.
  unfold deletePreset. rewrite run_try_catch.
  destruct (is_empty presetName); [cbn; now intros [= <- _]|].
  rewrite run_bind, run_get_presets_any.
  destruct (next_fault w);
    [cbn; intros [= <- _]; now rewrite (proj1 (pop_fault_frame w))|].
  destruct (negb _);
    [cbn; intros [= <- _]; now rewrite (proj1 (pop_fault_frame w))|].
  rewrite run_bind, run_set_presets_any.
  destruct (next_fault (pop_fault w)); [|cbn; discriminate].
  cbn. intros [= <- _]. now rewrite !(proj1 (pop_fault_frame _)).
Qed.

Lemma renamePreset_failure (w w' : World) (oldName newName e : string) :
  run (renamePreset oldName newName) w = (w', Ok (Failure e)) ->
  presets w' = presets w.
Proof.
  unfold renamePreset. rewrite run_try_catch.
  destruct (_ || _); [cbn; now intros [= <- _]|].
  destruct (String.eqb _ _); [cbn; now intros [= <- _]|].
  rewrite run_bind, run_get_presets_any.
  destruct (next_fault w);
    [cbn; intros [= <- _]; now rewrite (proj1 (pop_fault_frame w))|].
  destruct (negb _);
    [cbn; intros [= <- _]; now rewrite (proj1 (pop_fault_frame w))|].
  destruct (truthy _);
    [cbn; intros [= <- _]; now rewrite (proj1 (pop_fault_frame w))|].
  rewrite run_bind, run_set_presets_any.
  destruct (next_fault (pop_fault w)); [|cbn; discriminate].
  cbn. intros [= <- _]. now rewrite !(proj1 (pop_fault_frame _)).
Qed.

(** X1. A mutation of the preset store that answers with a failure has
    left the stored preset map as it was, whatever storage calls failed on
    the way: a save, a deletion or a rename is never applied in part. *)
Theorem failed_mutation_keeps_presets (w w' : World) (presetName newName : string)
    (cookies : JsValue) (e : string) :
  run (savePreset presetName cookies) w = (w', Ok (Failure e))
  \/ run (deletePreset presetName) w = (w', Ok (Failure e))
  \/ run (renamePreset presetName newName) w = (w', Ok (Failure e)) ->
  presets w' = presets w.
Proof.
  intros [Hsave|[Hdelete|Hrename]].
  - exact (savePreset_failure _ _ _ _ _ Hsave).
  - exact (deletePreset_failure _ _ _ _ Hdelete).
  - exact (renamePreset_failure _ _ _ _ _ Hrename).
Qed.

(** X2. A save that answers with success, in any world, was given a name
    with a non-empty trimmed form and an array; it leaves a master secret
    of length 32 in storage, and the map it wrote is the map it read with
    the given name assigned an envelope of the cookies under that secret
    and a nonce of 12 bytes. *)
Theorem savePreset_success (w w' : World) (presetName answer : string)
    (cookies : JsValue) :
  run (savePreset presetName cookies) w = (w', Ok (Success answer)) ->
  answer = presetName
  /\ is_empty (trim presetName) = false
  /\ Array_isArray cookies = true
  /\ exists key iv,
       String.length key = 32 /\ length iv = 12
       /\ masterEncryptionKey w' = Some key
       /\ presets w'
          = Some (persisted <$> prop_set (preset_object w) presetName
                                  (VString (envelope key iv cookies))).
Proof.
  unfold savePreset. rewrite run_try_catch.
  destruct (is_empty presetName || is_empty (trim presetName)) eqn:Hname;
    [cbn; discriminate|].
  apply orb_false_elim in Hname as [_ Htrim].
  destruct (Array_isArray cookies) eqn:Harray; [|cbn; discriminate].
  cbn [negb]. rewrite run_bind.
  pose proof (encryptJSON_keeps_presets cookies w) as Hframe.
  destruct (run (encryptJSON cookies) w) as [w1 [e1|encryptedData]] eqn:Hencrypt;
    cbn [fst] in Hframe; [cbn; discriminate|].
  assert (Hobject : is_json_object cookies = true)
    by (destruct cookies; try discriminate Harray; reflexivity).
  unfold encryptJSON in Hencrypt. rewrite Hobject in Hencrypt. cbn [negb] in Hencrypt.
  apply encrypt_success in Hencrypt as (key & iv & Hkey & Hiv & Hstored & ->).
  rewrite run_bind, run_get_presets_any.
  destruct (next_fault w1); [cbn; discriminate|].
  rewrite run_bind, run_set_presets_any.
  destruct (next_fault (pop_fault w1)); [cbn; discriminate|].
  cbn. intros [= <- <-]. repeat split; try assumption.
  exists key, iv. repeat split; try assumption.
  - cbn. now rewrite !(proj1 (proj2 (pop_fault_frame _))).
  - cbn. unfold preset_object. now rewrite Hframe.
Qed.

End Atomicity.

Lemma failed_mutation_keeps_presets_witness :
  run (@savePreset Reference.platform "A" Reference.cookies) Scenario.quota_world
  = (fst (run (@savePreset Reference.platform "A" Reference.cookies)
            Scenario.quota_world),
     Ok (Failure "QUOTA_BYTES quota exceeded"))
  /\ presets (fst (run (@savePreset Reference.platform "A" Reference.cookies)
                     Scenario.quota_world))
     = presets Scenario.quota_world.
Proof.
  assert (Hrun : run (@savePreset Reference.platform "A" Reference.cookies)
                   Scenario.quota_world
                 = (fst (run (@savePreset Reference.platform "A" Reference.cookies)
                           Scenario.quota_world),
                    Ok (Failure "QUOTA_BYTES quota exceeded")))
    by (vm_compute; reflexivity).
  split; [exact Hrun|].
  exact (@failed_mutation_keeps_presets Reference.platform _ _ "A" "B"
           Reference.cookies _ (or_introl Hrun)).
Defined.

Lemma savePreset_success_witness :
  run (@savePreset Reference.platform "A" Reference.cookies) Reference.world
  = (Reference.saved "A", Ok (Success "A"))
  /\ exists key iv,
       String.length key = 32 /\ length iv = 12
       /\ masterEncryptionKey (Reference.saved "A") = Some key
       /\ presets (Reference.saved "A")
          = Some (persisted <$> prop_set (preset_object Reference.world) "A"
                    (VString (@envelope Reference.platform key iv Reference.cookies))).
Proof.
  assert (Hrun : run (@savePreset Reference.platform "A" Reference.cookies)
                   Reference.world
                 = (Reference.saved "A", Ok (Success "A")))
    by (vm_compute; reflexivity).
  split; [exact Hrun|].
  exact (proj2 (proj2 (proj2 (@savePreset_success Reference.platform _ _ _ _ _ Hrun)))).
Defined.

(** ** Deleting, listing and renaming *)

Lemma deletePreset_no_faults (w : World) (presetName : string) :
  storage_faults w = [] ->
  run (deletePreset presetName) w
  = if is_empty presetName then (w, Ok (Failure "Preset name is required"))
    else if negb (truthy (prop_get (preset_object w) presetName)) then
      (w, Ok (Failure (not_found presetName)))
    else
      (set_presets (Some (persisted <$> delete presetName (preset_object w))) w,
       Ok (Success presetName)).
Proof.
  intros Hf. unfold deletePreset, preset_object. rewrite run_try_catch.
  destruct (is_empty presetName); [reflexivity|].
  rewrite run_bind, (run_get_presets w Hf). cbv zeta.
  destruct (negb (truthy (prop_get (default ∅ (presets w)) presetName)));
    [reflexivity|].
  now rewrite run_bind, (run_set_presets _ w Hf).
Qed.

Lemma getPresets_no_faults (w : World) :
  storage_faults w = [] ->
  run getPresets w = (w, Ok (Success (Object_keys (preset_object w)))).
Proof.
  intros Hf. unfold getPresets, preset_object.
  now rewrite run_try_catch, run_bind, (run_get_presets w Hf).
Qed.

Lemma persisted_idempotent (v : JsValue) : persisted (persisted v) = persisted v.
Proof. now destruct v. Qed.

Section Deletion.
Context `{WebPlatform}.

(** What a name loads depends on its own entry and on the master secret
    only. *)
Lemma loadPreset_same_entry (w w' : World) (name : string) :
  storage_faults w = [] -> storage_faults w' = [] -> is_empty name = false ->
  current_key w' = current_key w ->
  preset_object w' !! name = persisted <$> (preset_object w !! name) ->
  snd (run (loadPreset name) w') = snd (run (loadPreset name) w).
Proof.
  intros Hf Hf' Hn Hkey Hlook. rewrite !loadPreset_no_faults by assumption.
  cbv zeta. rewrite Hkey. unfold prop_get. rewrite Hlook.
  destruct (preset_object w !! name) as [v|]; cbn [fmap option_fmap option_map].
  - rewrite truthy_persisted, opened_persisted. now destruct (truthy v).
  - now destruct (truthy (inherited name)).
Qed.

(** X9. After a successful deletion of a name that [Object.prototype]
    does not define, the name is not found, by a load as by a second
    deletion, and every other name loads what it loaded before. *)
Theorem deletePreset_then_load (w w' : World) (A : string) :
  storage_faults w = [] ->
  run (deletePreset A) w = (w', Ok (Success A)) ->
  A ∉ Object_prototype ->
  snd (run (loadPreset A) w') = Ok (Failure (not_found A))
  /\ run (deletePreset A) w' = (w', Ok (Failure (not_found A)))
  /\ forall B, B <> A -> is_empty B = false ->
       snd (run (loadPreset B) w') = snd (run (loadPreset B) w).
Proof.
  intros Hf Hrun HA. rewrite (deletePreset_no_faults w A Hf) in Hrun.
  destruct (is_empty A) eqn:HeA; [discriminate|].
  destruct (truthy (prop_get (preset_object w) A)) eqn:HtA; [|discriminate].
  cbn [negb] in Hrun. injection Hrun as <-.
  set (m' := persisted <$> delete A (preset_object w)).
  assert (Hf' : storage_faults (set_presets (Some m') w) = []) by exact Hf.
  assert (HgetA : prop_get m' A = VUndefined).
  { unfold m'. rewrite prop_get_persisted_absent by apply lookup_delete_eq.
    unfold inherited. now rewrite bool_decide_eq_false_2. }
  split; [|split].
  - rewrite loadPreset_no_faults by assumption.
    change (preset_object (set_presets (Some m') w)) with m'.
    cbv zeta. now rewrite HgetA.
  - rewrite deletePreset_no_faults by assumption. rewrite HeA.
    change (preset_object (set_presets (Some m') w)) with m'.
    now rewrite HgetA.
  - intros B HB HeB. apply loadPreset_same_entry; try assumption.
    + apply (proj2 (keyed_set_presets _ w)).
    + change (preset_object (set_presets (Some m') w)) with m'.
      unfold m'. rewrite lookup_fmap, lookup_delete_ne by congruence. reflexivity.
Qed.

(** X10. The names that [getPresets] lists are the own names of the stored
    map, and they follow the mutations: a save adds its name (unless it is
    [__proto__]), a deletion removes its name, a rename replaces the old
    name by the new one; no other name appears or disappears. *)
Theorem getPresets_after_mutation (w w' : World) (name newName : string)
    (items : list JsValue) :
  storage_faults w = [] ->
  snd (run getPresets w) = Ok (Success (Object_keys (preset_object w)))
  /\ (run (savePreset name (VArray items)) w = (w', Ok (Success name)) ->
      name <> "__proto__" ->
      snd (run getPresets w')
      = Ok (Success ({[name]} ∪ Object_keys (preset_object w))))
  /\ (run (deletePreset name) w = (w', Ok (Success name)) ->
      snd (run getPresets w')
      = Ok (Success (Object_keys (preset_object w) ∖ {[name]})))
  /\ (run (renamePreset name newName) w = (w', Ok (Success (name, newName))) ->
      snd (run getPresets w')
      = Ok (Success ({[newName]} ∪ (Object_keys (preset_object w) ∖ {[name]})))).
Proof.
  intros Hf. split; [now rewrite getPresets_no_faults|]. split; [|split].
  - intros Hrun Hname.
    assert (Ht : is_empty (trim name) = false).
    { unfold savePreset in Hrun. rewrite run_try_catch in Hrun.
      destruct (is_empty name || is_empty (trim name)) eqn:E; [discriminate|].
      now apply orb_false_elim in E. }
    rewrite (savePreset_no_faults w name items Hf Ht) in Hrun.
    injection Hrun as <-.
    rewrite getPresets_no_faults
      by (cbn; now rewrite (proj1 (keyed_frame w))).
    rewrite (prop_set_insert _ _ _ (or_introl Hname)).
    cbn [snd]. do 2 f_equal. unfold Object_keys.
    match goal with
    | |- context [preset_object (set_presets (Some ?m) _)] =>
        change (preset_object (set_presets (Some m) (after_encrypt w))) with m
    end.
    now rewrite dom_fmap_L, dom_insert_L.
  - intros Hrun. rewrite (deletePreset_no_faults w name Hf) in Hrun.
    destruct (is_empty name); [discriminate|].
    destruct (negb _); [discriminate|]. injection Hrun as <-.
    rewrite getPresets_no_faults by exact Hf.
    cbn [snd]. do 2 f_equal. unfold Object_keys.
    match goal with
    | |- context [preset_object (set_presets (Some ?m) _)] =>
        change (preset_object (set_presets (Some m) w)) with m
    end.
    now rewrite dom_fmap_L, dom_delete_L.
  - intros Hrun. rewrite (renamePreset_no_faults w name newName Hf) in Hrun.
    destruct (_ || _); [discriminate|].
    destruct (String.eqb name newName) eqn:Hne; [discriminate|].
    apply String.eqb_neq in Hne.
    destruct (negb _); [discriminate|].
    destruct (truthy (prop_get (preset_object w) newName)) eqn:HtB; [discriminate|].
    injection Hrun as <-.
    rewrite getPresets_no_faults by exact Hf.
    rewrite (falsy_assignable _ _ _ HtB).
    cbn [snd]. do 2 f_equal. unfold Object_keys.
    match goal with
    | |- context [preset_object (set_presets (Some ?m) _)] =>
        change (preset_object (set_presets (Some m) w)) with m
    end.
    rewrite dom_fmap_L, dom_delete_L, dom_insert_L.
    apply set_eq. intros k.
    rewrite !elem_of_union, !elem_of_difference, elem_of_union, !elem_of_singleton.
    split; [intros [[->|Hk] Hne']; [now left|now right]|].
    intros [->|[Hk Hne']]; [split; [now left|congruence]|split; [now right|exact Hne']].
Qed.

(** X7. A successful rename changes what no third name loads, nor its
    entry. *)
Theorem rename_keeps_other_presets (w w' : World) (A B C : string) :
  storage_faults w = [] ->
  run (renamePreset A B) w = (w', Ok (Success (A, B))) ->
  C <> A -> C <> B -> is_empty C = false ->
  preset_object w' !! C = persisted <$> (preset_object w !! C)
  /\ snd (run (loadPreset C) w') = snd (run (loadPreset C) w).
Proof.
  intros Hf Hrun HCA HCB HeC. rewrite (renamePreset_no_faults w A B Hf) in Hrun.
  destruct (_ || _); [discriminate|].
  destruct (String.eqb A B); [discriminate|].
  destruct (negb _); [discriminate|].
  destruct (truthy (prop_get (preset_object w) B)) eqn:HtB; [discriminate|].
  injection Hrun as <-. rewrite (falsy_assignable _ _ _ HtB).
  set (m' := persisted <$> delete A (<[B:=prop_get (preset_object w) A]> (preset_object w))).
  assert (Hlook : m' !! C = persisted <$> (preset_object w !! C)).
  { unfold m'. rewrite lookup_fmap, lookup_delete_ne, lookup_insert_ne by congruence.
    reflexivity. }
  split; [exact Hlook|].
  apply loadPreset_same_entry; try assumption.
  apply (proj2 (keyed_set_presets _ w)).
Qed.

End Deletion.

(** X8. A successful rename followed by the rename back restores the
    stored map, when the old name is not one that [Object.prototype]
    defines and the new name had no entry. *)
Theorem rename_back_restores (w w1 : World) (A B : string) :
  storage_faults w = [] ->
  run (renamePreset A B) w = (w1, Ok (Success (A, B))) ->
  A ∉ Object_prototype -> preset_object w !! B = None ->
  exists w2,
    run (renamePreset B A) w1 = (w2, Ok (Success (B, A)))
    /\ preset_object w2 = persisted <$> preset_object w.
Proof.
  intros Hf Hrun HA HB. rewrite (renamePreset_no_faults w A B Hf) in Hrun.
  destruct (is_empty A || is_empty B) eqn:He; [discriminate|].
  destruct (String.eqb A B) eqn:Hne; [discriminate|].
  apply String.eqb_neq in Hne.
  destruct (truthy (prop_get (preset_object w) A)) eqn:HtA; [|discriminate].
  destruct (truthy (prop_get (preset_object w) B)) eqn:HtB; [discriminate|].
  cbn [negb] in Hrun. injection Hrun as <-.
  rewrite (falsy_assignable _ _ _ HtB).
  pose proof (truthy_own _ _ HtA HA) as HownA.
  set (v := prop_get (preset_object w) A) in *.
  set (m1 := persisted <$> delete A (<[B:=v]> (preset_object w))).
  assert (HgetA : prop_get m1 A = VUndefined).
  { unfold m1. rewrite prop_get_persisted_absent by apply lookup_delete_eq.
    unfold inherited. now rewrite bool_decide_eq_false_2. }
  assert (HgetB : prop_get m1 B = persisted v).
  { unfold m1. apply prop_get_persisted_own.
    rewrite lookup_delete_ne by exact Hne. apply lookup_insert_eq. }
  rewrite renamePreset_no_faults by exact Hf.
  rewrite orb_comm, He.
  assert (Hne' : String.eqb B A = false) by (apply String.eqb_neq; congruence).
  rewrite Hne'.
  change (preset_object (set_presets (Some m1) w)) with m1.
  rewrite HgetA, HgetB, truthy_persisted, HtA. cbn [negb truthy].
  eexists. split; [reflexivity|].
  match goal with
  | |- preset_object (set_presets (Some ?m) _) = _ =>
      change (preset_object (set_presets (Some m) (set_presets (Some m1) w))) with m
  end.
  rewrite falsy_assignable by (now rewrite HgetA).
  apply map_eq. intros k. rewrite !lookup_fmap.
  destruct (decide (k = B)) as [->|HkB].
  - now rewrite lookup_delete_eq, HB.
  - rewrite lookup_delete_ne by congruence.
    destruct (decide (k = A)) as [->|HkA].
    + rewrite lookup_insert_eq, HownA. cbn. now rewrite persisted_idempotent.
    + rewrite lookup_insert_ne by congruence. unfold m1.
      rewrite lookup_fmap, lookup_delete_ne, lookup_insert_ne by congruence.
      destruct (preset_object w !! k); cbn; [|reflexivity].
      now rewrite persisted_idempotent.
Qed.

Lemma deletePreset_then_load_witness :
  storage_faults Scenario.two_presets = []
  /\ run (deletePreset "A") Scenario.two_presets
     = (Scenario.after_delete, Ok (Success "A"))
  /\ ("A" ∉ Object_prototype)
  /\ snd (run (@loadPreset Reference.platform "A") Scenario.after_delete)
     = Ok (Failure (not_found "A"))
  /\ snd (run (@loadPreset Reference.platform "B") Scenario.after_delete)
     = snd (run (@loadPreset Reference.platform "B") Scenario.two_presets).
Proof.
  assert (H1 : storage_faults Scenario.two_presets = []) by (vm_compute; reflexivity).
  assert (H2 : run (deletePreset "A") Scenario.two_presets
               = (Scenario.after_delete, Ok (Success "A")))
    by (vm_compute; reflexivity).
  assert (H3 : "A" ∉ Object_prototype)
    by (apply (bool_decide_unpack _); vm_compute; exact I).
  destruct (@deletePreset_then_load Reference.platform _ _ "A" H1 H2 H3)
    as (HA & _ & HB).
  split; [exact H1|]. split; [exact H2|]. split; [exact H3|].
  split; [exact HA|]. apply HB; [discriminate|reflexivity].
Defined.

Lemma getPresets_after_mutation_witness :
  storage_faults Scenario.two_presets = []
  /\ run (deletePreset "A") Scenario.two_presets
     = (Scenario.after_delete, Ok (Success "A"))
  /\ snd (run getPresets Scenario.after_delete)
     = Ok (Success (Object_keys (preset_object Scenario.two_presets) ∖ {["A"]})).
Proof.
  assert (H1 : storage_faults Scenario.two_presets = []) by (vm_compute; reflexivity).
  assert (H2 : run (deletePreset "A") Scenario.two_presets
               = (Scenario.after_delete, Ok (Success "A")))
    by (vm_compute; reflexivity).
  split; [exact H1|]. split; [exact H2|].
  exact (proj1 (proj2 (proj2
           (@getPresets_after_mutation Reference.platform _ _ "A" "" [] H1))) H2).
Defined.

Lemma rename_keeps_other_presets_witness :
  storage_faults Scenario.two_presets = []
  /\ run (renamePreset "A" "C") Scenario.two_presets
     = (Scenario.after_rename, Ok (Success ("A", "C")))
  /\ snd (run (@loadPreset Reference.platform "B") Scenario.after_rename)
     = snd (run (@loadPreset Reference.platform "B") Scenario.two_presets).
Proof.
  assert (H1 : storage_faults Scenario.two_presets = []) by (vm_compute; reflexivity).
  assert (H2 : run (renamePreset "A" "C") Scenario.two_presets
               = (Scenario.after_rename, Ok (Success ("A", "C"))))
    by (vm_compute; reflexivity).
  split; [exact H1|]. split; [exact H2|].
  refine (proj2 (@rename_keeps_other_presets Reference.platform _ _ "A" "C" "B"
                   H1 H2 _ _ eq_refl)); discriminate.
Defined.

Lemma rename_back_restores_witness :
  storage_faults Scenario.two_presets = []
  /\ run (renamePreset "A" "C") Scenario.two_presets
     = (Scenario.after_rename, Ok (Success ("A", "C")))
  /\ ("A" ∉ Object_prototype)
  /\ preset_object Scenario.two_presets !! "C" = None
  /\ exists w2,
       run (renamePreset "C" "A") Scenario.after_rename = (w2, Ok (Success ("C", "A")))
       /\ preset_object w2 = persisted <$> preset_object Scenario.two_presets.
Proof.
  assert (H1 : storage_faults Scenario.two_presets = []) by (vm_compute; reflexivity).
  assert (H2 : run (renamePreset "A" "C") Scenario.two_presets
               = (Scenario.after_rename, Ok (Success ("A", "C"))))
    by (vm_compute; reflexivity).
  assert (H3 : "A" ∉ Object_prototype)
    by (apply (bool_decide_unpack _); vm_compute; exact I).
  assert (H4 : preset_object Scenario.two_presets !! "C" = None)
    by (vm_compute; reflexivity).
  repeat (split; [assumption|]).
  exact (rename_back_restores _ _ "A" "C" H1 H2 H3 H4).
Defined.

(** ** Key Manager and cipher under failure *)

Lemma next_fault_elem (w : World) (msg : string) :
  next_fault w = Some msg -> Some msg ∈ storage_faults w.
Proof.
  unfold next_fault. destruct (storage_faults w) as [|[m|] rest]; try discriminate.
  intros [= ->]. apply list_elem_of_here.
Qed.

Lemma pop_fault_elem (w : World) (x : option string) :
  x ∈ storage_faults (pop_fault w) -> x ∈ storage_faults w.
Proof.
  unfold pop_fault. destruct (storage_faults w) as [|y rest] eqn:Hf.
  - now rewrite Hf.
  - cbn. intros Hx. now apply list_elem_of_further.
Qed.

Lemma getOrCreateKey_error (w w' : World) (e : string) :
  run getOrCreateKey w = (w', Err e) ->
  masterEncryptionKey w' = masterEncryptionKey w
  /\ exists msg,
       Some msg ∈ storage_faults w
       /\ (e = "Failed to retrieve encryption key: " ++ msg
           \/ e = "Failed to store encryption key: " ++ msg).
Proof.
  unfold getOrCreateKey. rewrite run_bind, run_storage_call.
  destruct (next_fault w) as [msg|] eqn:Hfirst.
  - cbn. intros [= <- <-]. split; [apply pop_fault_frame|].
    exists msg. split; [now apply next_fault_elem|now left].
  - cbv zeta beta iota. set (w1 := pop_fault w).
    set (generate := bind generateEncryptionKey _).
    assert (Hgen : run generate w1 = (w', Err e) ->
              masterEncryptionKey w' = masterEncryptionKey w
              /\ exists msg,
                   Some msg ∈ storage_faults w
                   /\ (e = "Failed to retrieve encryption key: " ++ msg
                       \/ e = "Failed to store encryption key: " ++ msg)).
    { unfold generate. rewrite run_bind, run_generateEncryptionKey.
      rewrite fresh_key_length. simpl negb. cbv iota.
      rewrite run_bind, run_storage_call.
      destruct (next_fault (set_entropy_used _ _)) as [msg|] eqn:Hsecond;
        [|cbv zeta beta iota; simpl; discriminate].
      cbn. intros [= <- <-]. split.
      - rewrite (proj1 (proj2 (pop_fault_frame _))). cbn.
        apply pop_fault_frame.
      - exists msg. split; [|now right].
        apply pop_fault_elem. fold w1. now apply next_fault_elem in Hsecond. }
    destruct (masterEncryptionKey w1) as [key|]; [|exact Hgen].
    destruct (negb (is_empty key) && (String.length key =? 32)%nat);
      [cbn; discriminate|exact Hgen].
Qed.

(** X11. [getOrCreateKey] fails only when a storage call fails, with the
    message of the read or of the write as the code words it; the stored
    secret, the preset map and the cookies are then as before. The check
    of the length of a generated key never fails. *)
Theorem getOrCreateKey_failure (w w' : World) (e : string) :
  run getOrCreateKey w = (w', Err e) ->
  masterEncryptionKey w' = masterEncryptionKey w
  /\ presets w' = presets w
  /\ cookie_calls w' = cookie_calls w
  /\ exists msg,
       Some msg ∈ storage_faults w
       /\ (e = "Failed to retrieve encryption key: " ++ msg
           \/ e = "Failed to store encryption key: " ++ msg).
Proof.
  intros Hrun. destruct (getOrCreateKey_error _ _ _ Hrun) as [Hkey Hmsg].
  split; [exact Hkey|].
  pose proof (run_framed presets getOrCreateKey) as Hpresets.
  pose proof (run_framed cookie_calls getOrCreateKey) as Hcookies.
  specialize (Hpresets (framed_getOrCreateKey presets
                          (fun _ _ => eq_refl) (fun _ _ => eq_refl)
                          (fun _ _ => eq_refl)) w).
  specialize (Hcookies (framed_getOrCreateKey cookie_calls
                          (fun _ _ => eq_refl) (fun _ _ => eq_refl)
                          (fun _ _ => eq_refl)) w).
  rewrite Hrun in Hpresets, Hcookies. now repeat split.
Qed.

(** X12. A stored secret that is missing, empty or not 32 characters long
    is never returned: with storage working, the call draws 24 bytes,
    returns the key made of them and stores it in place of the old
    secret. *)
Theorem getOrCreateKey_replaces_unusable (w : World) :
  storage_faults w = [] -> valid_key (masterEncryptionKey w) = false ->
  exists w',
    run getOrCreateKey w = (w', Ok (fresh_key w))
    /\ masterEncryptionKey w' = Some (fresh_key w)
    /\ masterEncryptionKey w' <> masterEncryptionKey w
    /\ entropy_used w' = entropy_used w + 24.
Proof.
  intros Hf Hv. rewrite (getOrCreateKey_no_faults w Hf).
  unfold keyed, current_key. rewrite Hv. eexists. split; [reflexivity|].
  cbn [masterEncryptionKey set_masterEncryptionKey entropy_used set_entropy_used].
  repeat split. intros Hsame. rewrite <- Hsame in Hv. unfold valid_key in Hv.
  rewrite fresh_key_length, Nat.eqb_refl, andb_true_r in Hv.
  destruct (fresh_key w) eqn:Hk; [|discriminate Hv].
  pose proof (fresh_key_length w) as Hl. rewrite Hk in Hl. discriminate Hl.
Qed.

Section CipherFailure.
Context `{WebPlatform}.

(** X13. [encrypt] fails only when storage fails while the master secret
    is read or written, and says so behind the prefix of its own. *)
Theorem encrypt_failure (w w' : World) (v : JsValue) (e : string) :
  run (encrypt v) w = (w', Err e) ->
  exists msg,
    Some msg ∈ storage_faults w
    /\ (e = "Encryption failed: Failed to retrieve encryption key: " ++ msg
        \/ e = "Encryption failed: Failed to store encryption key: " ++ msg).
Proof.
  unfold encrypt. rewrite run_try_catch, run_bind.
  destruct (run getOrCreateKey w) as [w1 [e1|key]] eqn:Hkey.
  - apply getOrCreateKey_error in Hkey as (_ & msg & Hin & Hmsg).
    cbn. intros [= <- <-]. exists msg. split; [exact Hin|].
    destruct Hmsg as [-> | ->]; [now left|now right].
  - rewrite run_bind, run_stringToCryptoKey.
    rewrite run_bind, run_crypto_getRandomValues. cbv zeta.
    rewrite run_bind, run_promise. cbn. discriminate.
Qed.

(** X14. Every failure of [decrypt] carries the prefix of [decrypt], and
    behind it the message of a storage failure, of [atob], of the cipher
    or of the JSON parser. *)
Theorem decrypt_failure (w w' : World) (encryptedData e : string) :
  run (decrypt encryptedData) w = (w', Err e) ->
  exists message,
    e = "Decryption failed: " ++ message
    /\ ((exists msg,
           Some msg ∈ storage_faults w
           /\ (message = "Failed to retrieve encryption key: " ++ msg
               \/ message = "Failed to store encryption key: " ++ msg))
        \/ atob encryptedData = Err message
        \/ exists key binary,
             masterEncryptionKey w' = Some key
             /\ atob encryptedData = Ok binary
             /\ match AES_GCM_decrypt (workKey key) (take 12 (charCodes binary))
                        (drop 12 (charCodes binary)) with
                | inl failure => message = failure
                | inr bytes => deserialize bytes = Err message
                end).
Proof.
  unfold decrypt. rewrite run_try_catch, run_bind.
  destruct (run getOrCreateKey w) as [w1 [e1|key]] eqn:Hkey.
  - apply getOrCreateKey_error in Hkey as (_ & msg & Hin & Hmsg).
    cbn. intros [= <- <-]. exists e1. split; [reflexivity|]. left. now exists msg.
  - apply getOrCreateKey_success in Hkey as [_ Hstored].
    rewrite run_bind, run_stringToCryptoKey, run_bind, run_of_result.
    destruct (atob encryptedData) as [e1|binary] eqn:Hatob.
    + cbn. intros [= <- <-]. exists e1. split; [reflexivity|]. right. now left.
    + cbv zeta. rewrite run_bind, run_promise.
      destruct (AES_GCM_decrypt _ _ _) as [e1|bytes] eqn:Haes.
      * cbn. intros [= <- <-]. exists e1. split; [reflexivity|].
        right. right. exists key, binary. fold (workKey key) in Haes.
        now rewrite Haes.
      * rewrite run_of_result.
        destruct (JSON_parse (TextDecoder_decode bytes)) as [e1|data] eqn:Hparse;
          [|cbn; discriminate].
        cbn. intros [= <- <-]. exists e1. split; [reflexivity|].
        right. right. exists key, binary. fold (workKey key) in Haes.
        now rewrite Haes.
Qed.

Lemma envelope_nonce_inj (key key' : string) (iv iv' : Uint8Array) (v v' : JsValue) :
  length iv = length iv' -> envelope key iv v = envelope key' iv' v' -> iv = iv'.
Proof.
  unfold envelope, String_fromCharCode. intros Hlen He.
  apply (f_equal atob) in He. rewrite !atob_btoa in He. injection He as He.
  apply (f_equal String.list_ascii_of_string) in He.
  rewrite !String.list_ascii_of_string_of_list_ascii in He.
  now apply app_inj_1 in He as [-> _].
Qed.

(** X15. Two encryptions in a row use the same master secret and nonces
    drawn from consecutive, disjoint stretches of the random source; when
    the two nonces differ, so do the envelopes, even of equal values. *)
Theorem encrypt_twice_fresh_nonce (w w1 w2 : World) (v v' : JsValue)
    (e1 e2 : string) :
  storage_faults w = [] ->
  run (encrypt v) w = (w1, Ok e1) -> run (encrypt v') w1 = (w2, Ok e2) ->
  let first := entropy w <$> seq (entropy_used (keyed w)) 12 in
  let second := entropy w <$> seq (entropy_used (keyed w) + 12) 12 in
  e1 = envelope (current_key w) first v
  /\ e2 = envelope (current_key w) second v'
  /\ (first <> second -> e1 <> e2).
Proof.
  intros Hf H1 H2 first second.
  rewrite (encrypt_no_faults w v Hf) in H1. injection H1 as <- <-.
  fold (after_encrypt w) in H2.
  rewrite encrypt_no_faults in H2
    by (now rewrite (proj1 (after_encrypt_frame w))).
  rewrite (proj1 (keyed_after_encrypt w)), (proj2 (keyed_after_encrypt w)) in H2.
  injection H2 as _ <-.
  assert (Hfirst : nonce (keyed w) = first).
  { unfold nonce, first, keyed. now destruct (valid_key _). }
  assert (Hsecond : nonce (after_encrypt w) = second).
  { unfold nonce, second, after_encrypt, keyed. now destruct (valid_key _). }
  rewrite Hfirst, Hsecond. split; [reflexivity|]. split; [reflexivity|].
  intros Hne He. apply Hne. apply envelope_nonce_inj in He; [exact He|].
  unfold first, second. now rewrite !length_fmap, !length_seq.
Qed.

(** X16. [encryptJSON] accepts objects and arrays, and [decryptJSON] gives
    back what it accepted; it rejects every other value without touching
    the world, and [decryptJSON] rejects the envelope that [encrypt] makes
    of such a value. *)
Theorem decryptJSON_encryptJSON (w : World) (v : JsValue) :
  storage_faults w = [] -> serializable v ->
  if is_json_object v then
    exists w1 encryptedString w2,
      run (encryptJSON v) w = (w1, Ok encryptedString)
      /\ run (decryptJSON (VString encryptedString)) w1 = (w2, Ok v)
  else
    run (encryptJSON v) w = (w, Err "encryptJSON requires a valid JSON object")
    /\ exists w1 encryptedString w2,
         run (encrypt v) w = (w1, Ok encryptedString)
         /\ run (decryptJSON (VString encryptedString)) w1
            = (w2, Err "Decrypted data is not a valid JSON object").
Proof.
  intros Hf Hs.
  assert (Hf1 : storage_faults (after_encrypt w) = [])
    by (now rewrite (proj1 (after_encrypt_frame w))).
  assert (Hopen : opened (current_key (after_encrypt w)) (VString (sealed w v))
                  = if is_json_object v then Success v
                    else Failure "Decrypted data is not a valid JSON object").
  { unfold opened, sealed. rewrite (proj2 (keyed_after_encrypt w)).
    rewrite open_envelope_envelope; [reflexivity| |exact Hs].
    unfold nonce. now rewrite length_fmap, length_seq. }
  destruct (is_json_object v) eqn:Hobject.
  - exists (after_encrypt w), (sealed w v), (keyed (after_encrypt w)).
    split; [now apply encryptJSON_no_faults|].
    rewrite (decryptJSON_no_faults _ _ Hf1). now rewrite Hopen.
  - split; [unfold encryptJSON; now rewrite Hobject|].
    exists (after_encrypt w), (sealed w v), (keyed (after_encrypt w)).
    split; [now apply encrypt_no_faults|].
    rewrite (decryptJSON_no_faults _ _ Hf1). now rewrite Hopen.
Qed.

End CipherFailure.

Lemma getOrCreateKey_failure_witness :
  run getOrCreateKey Scenario.offline_world
  = (fst (run getOrCreateKey Scenario.offline_world),
     Err "Failed to retrieve encryption key: storage unavailable")
  /\ masterEncryptionKey (fst (run getOrCreateKey Scenario.offline_world))
     = masterEncryptionKey Scenario.offline_world.
Proof.
  assert (Hrun : run getOrCreateKey Scenario.offline_world
                 = (fst (run getOrCreateKey Scenario.offline_world),
                    Err "Failed to retrieve encryption key: storage unavailable"))
    by (vm_compute; reflexivity).
  split; [exact Hrun|].
  exact (proj1 (getOrCreateKey_failure _ _ _ Hrun)).
Defined.

Lemma getOrCreateKey_replaces_unusable_witness :
  storage_faults Scenario.corrupted_world = []
  /\ valid_key (masterEncryptionKey Scenario.corrupted_world) = false
  /\ exists w',
       run getOrCreateKey Scenario.corrupted_world
       = (w', Ok (fresh_key Scenario.corrupted_world))
       /\ masterEncryptionKey w' = Some (fresh_key Scenario.corrupted_world)
       /\ masterEncryptionKey w' <> masterEncryptionKey Scenario.corrupted_world
       /\ entropy_used w' = entropy_used Scenario.corrupted_world + 24.
Proof.
  split; [reflexivity|]. split; [reflexivity|].
  exact (getOrCreateKey_replaces_unusable Scenario.corrupted_world eq_refl eq_refl).
Defined.

Lemma encrypt_failure_witness :
  run (@encrypt Reference.platform Reference.cookies) Scenario.offline_world
  = (fst (run (@encrypt Reference.platform Reference.cookies) Scenario.offline_world),
     Err "Encryption failed: Failed to retrieve encryption key: storage unavailable")
  /\ exists msg,
       Some msg ∈ storage_faults Scenario.offline_world
       /\ ("Encryption failed: Failed to retrieve encryption key: storage unavailable"
           = "Encryption failed: Failed to retrieve encryption key: " ++ msg
           \/ "Encryption failed: Failed to retrieve encryption key: storage unavailable"
              = "Encryption failed: Failed to store encryption key: " ++ msg).
Proof.
  assert (Hrun : run (@encrypt Reference.platform Reference.cookies)
                   Scenario.offline_world
                 = (fst (run (@encrypt Reference.platform Reference.cookies)
                           Scenario.offline_world),
                    Err "Encryption failed: Failed to retrieve encryption key: storage unavailable"))
    by (vm_compute; reflexivity).
  split; [exact Hrun|].
  exact (@encrypt_failure Reference.platform _ _ _ _ Hrun).
Defined.

Lemma decrypt_failure_witness :
  run (@decrypt Reference.platform "!!!") Reference.world
  = (Reference.keyed_world, Err ("Decryption failed: " ++ atob_error))
  /\ exists message, "Decryption failed: " ++ atob_error = "Decryption failed: " ++ message.
Proof.
  assert (Hrun : run (@decrypt Reference.platform "!!!") Reference.world
                 = (Reference.keyed_world, Err ("Decryption failed: " ++ atob_error)))
    by (vm_compute; reflexivity).
  split; [exact Hrun|].
  destruct (@decrypt_failure Reference.platform _ _ _ _ Hrun) as (message & He & _).
  now exists message.
Defined.

Lemma encrypt_twice_fresh_nonce_witness :
  storage_faults Reference.world = []
  /\ exists w1 e1 w2 e2,
       run (@encrypt Reference.platform Reference.cookies) Reference.world = (w1, Ok e1)
       /\ run (@encrypt Reference.platform Reference.cookies) w1 = (w2, Ok e2)
       /\ e1 <> e2.
Proof.
  split; [reflexivity|].
  assert (H1 : run (@encrypt Reference.platform Reference.cookies) Reference.world
               = (after_encrypt Reference.world,
                  Ok (@sealed Reference.platform Reference.world Reference.cookies)))
    by (vm_compute; reflexivity).
  assert (H2 : run (@encrypt Reference.platform Reference.cookies)
                 (after_encrypt Reference.world)
               = (after_encrypt (after_encrypt Reference.world),
                  Ok (@sealed Reference.platform (after_encrypt Reference.world)
                        Reference.cookies)))
    by (vm_compute; reflexivity).
  do 4 eexists. split; [exact H1|]. split; [exact H2|].
  apply (@encrypt_twice_fresh_nonce Reference.platform Reference.world _ _ _ _ _ _
           eq_refl H1 H2).
  intros Heq. vm_compute in Heq. discriminate Heq.
Defined.

Lemma decryptJSON_encryptJSON_witness :
  storage_faults Reference.world = []
  /\ @serializable Reference.platform Reference.cookies
  /\ exists w1 encryptedString w2,
       run (@encryptJSON Reference.platform Reference.cookies) Reference.world
       = (w1, Ok encryptedString)
       /\ run (@decryptJSON Reference.platform (VString encryptedString)) w1
          = (w2, Ok Reference.cookies).
Proof.
  assert (Hs : @serializable Reference.platform Reference.cookies)
    by (vm_compute; reflexivity).
  split; [reflexivity|]. split; [exact Hs|].
  exact (@decryptJSON_encryptJSON Reference.platform Reference.world
           Reference.cookies eq_refl Hs).
Defined.

(** ** Writing cookies *)

Lemma cookieConfig_lookups (url : JsValue) (cookieDetails : gmap string JsValue) :
  cookieConfig url cookieDetails !! "url" = Some url
  /\ cookieConfig url cookieDetails !! "name" = Some (prop_get cookieDetails "name")
  /\ cookieConfig url cookieDetails !! "value" = Some (prop_get cookieDetails "value").
Proof.
  unfold cookieConfig. cbv zeta. rewrite !lookup_cond_set_ne by discriminate.
  split; [|split].
  - rewrite !lookup_insert_ne by discriminate. apply lookup_singleton_eq.
  - rewrite lookup_insert_ne by discriminate. apply lookup_insert_eq.
  - apply lookup_insert_eq.
Qed.

(** X17. Without a URL but with a non-empty string as domain, [setCookie]
    makes exactly one write, to the URL built from the domain (one
    leading dot removed) and the [secure] flag, keeping domain, name and
    value; its response is the answer of the Cookie Store. *)
Theorem setCookie_url_from_domain (w : World) (cookieDetails : gmap string JsValue)
    (domain : string) :
  truthy (prop_get cookieDetails "url") = false ->
  prop_get cookieDetails "domain" = VString domain -> is_empty domain = false ->
  exists config,
    run (setCookie cookieDetails) w
    = (set_cookie_calls (cookie_calls w ++ [config]) w,
       Ok (match cookie_store w (cookie_calls w) config with
           | inl e => Failure e
           | inr cookie => Success cookie
           end))
    /\ config !! "url"
       = Some (VString (target_url domain (prop_get cookieDetails "secure")))
    /\ config !! "domain" = Some (VString domain)
    /\ config !! "name" = Some (prop_get cookieDetails "name")
    /\ config !! "value" = Some (prop_get cookieDetails "value").
Proof.
  intros Hurl Hdomain Hd.
  set (url := VString (target_url domain (prop_get cookieDetails "secure"))).
  exists (cookieConfig url cookieDetails).
  destruct (cookieConfig_lookups url cookieDetails) as (Hu & Hn & Hv).
  split; [|repeat split; try assumption].
  - unfold setCookie. rewrite run_try_catch, Hurl, Hdomain.
    cbn [truthy negb andb]. rewrite Hd. cbn [negb].
    rewrite run_bind, run_bind. cbn [constructUrl of_result run].
    fold (target_url domain (prop_get cookieDetails "secure")). fold url.
    rewrite run_bind, run_chrome_cookies_set.
    now destruct (cookie_store w _ _).
  - unfold cookieConfig. cbv zeta. rewrite !lookup_cond_set_ne by discriminate.
    rewrite Hdomain. cbn [truthy]. rewrite Hd. cbn [negb].
    now apply lookup_prop_set_eq.
Qed.

(** X18. Without a URL and without a non-empty string as domain,
    [setCookie] answers with a failure and reaches neither the Cookie
    Store nor anything else in the world. *)
Theorem setCookie_without_target (w : World) (cookieDetails : gmap string JsValue) :
  truthy (prop_get cookieDetails "url") = false ->
  (forall domain, prop_get cookieDetails "domain" = VString domain -> domain = "") ->
  exists e,
    run (setCookie cookieDetails) w = (w, Ok (Failure e))
    /\ (truthy (prop_get cookieDetails "domain") = false ->
        e = "Either url or domain must be provided").
Proof.
  intros Hurl Hdomain. unfold setCookie. rewrite run_try_catch, Hurl.
  cbn [negb andb].
  destruct (truthy (prop_get cookieDetails "domain")) eqn:Ht.
  - cbn [negb]. rewrite run_bind, run_bind.
    destruct (prop_get cookieDetails "domain") as [| |b|n|d|items|props|what] eqn:Hd;
      try discriminate Ht;
      try (eexists; split; [reflexivity|discriminate]).
    specialize (Hdomain d eq_refl). subst d. discriminate Ht.
  - cbn [negb]. eexists. split; reflexivity.
Qed.

Lemma setCookie_url_from_domain_witness :
  exists config,
    run (setCookie Scenario.domain_only) Reference.world
    = (set_cookie_calls [config] Reference.world, Ok (Success (VObject config)))
    /\ config !! "url" = Some (VString "https://example.com")
    /\ config !! "domain" = Some (VString ".example.com").
Proof.
  assert (H1 : truthy (prop_get Scenario.domain_only "url") = false)
    by (vm_compute; reflexivity).
  assert (H2 : prop_get Scenario.domain_only "domain" = VString ".example.com")
    by (vm_compute; reflexivity).
  destruct (setCookie_url_from_domain Reference.world Scenario.domain_only
              ".example.com" H1 H2 eq_refl)
    as (config & Hrun & Hurl & Hdomain & _).
  assert (H3 : prop_get Scenario.domain_only "secure" = VBool true)
    by (vm_compute; reflexivity).
  rewrite H3 in Hurl.
  exists config. split; [exact Hrun|]. split; [exact Hurl|exact Hdomain].
Defined.

Lemma setCookie_without_target_witness :
  exists e,
    run (setCookie Scenario.no_target) Reference.world
    = (Reference.world, Ok (Failure e))
    /\ e = "Either url or domain must be provided".
Proof.
  assert (H1 : truthy (prop_get Scenario.no_target "url") = false)
    by (vm_compute; reflexivity).
  assert (H2 : prop_get Scenario.no_target "domain" = VUndefined)
    by (vm_compute; reflexivity).
  destruct (setCookie_without_target Reference.world Scenario.no_target H1)
    as (e & Hrun & He).
  - intros domain Hd. rewrite H2 in Hd. discriminate Hd.
  - exists e. split; [exact Hrun|]. apply He. now rewrite H2.
Defined.

Section Bulk.
Context `{WebPlatform}.

(** X20. When the preset cannot be loaded, [applyPreset] answers with the
    failure of the load and writes no cookie. *)
Theorem applyPreset_load_failure (w w1 : World) (presetName domain e : string) :
  is_empty presetName = false -> is_empty domain = false ->
  run (loadPreset presetName) w = (w1, Ok (Failure e)) ->
  run (applyPreset presetName domain) w = (w1, Ok (Failure e))
  /\ cookie_calls w1 = cookie_calls w
  /\ presets w1 = presets w.
Proof.
  intros Hn Hd Hload. split.
  - unfold applyPreset. now rewrite run_try_catch, Hn, Hd, run_bind, Hload.
  - pose proof (run_framed cookie_calls (loadPreset presetName)
                  (framed_loadPreset cookie_calls (fun _ _ => eq_refl)
                     (fun _ _ => eq_refl) (fun _ _ => eq_refl) presetName) w) as Hc.
    pose proof (run_framed presets (loadPreset presetName)
                  (framed_loadPreset presets (fun _ _ => eq_refl)
                     (fun _ _ => eq_refl) (fun _ _ => eq_refl) presetName) w) as Hp.
    rewrite Hload in Hc, Hp. now split.
Qed.

End Bulk.

Lemma imported_config_inv (cookie : JsValue) (config : gmap string JsValue) :
  imported_config cookie = Ok config ->
  exists cookieDetails,
    importCookies_cookieDetails cookie = Ok cookieDetails
    /\ config = cookieConfig (prop_get cookieDetails "url") cookieDetails.
Proof.
  unfold imported_config.
  destruct (importCookies_cookieDetails cookie) as [e|cookieDetails]; [discriminate|].
  intros [= <-]. now exists cookieDetails.
Qed.

Lemma run_importCookies_loop_all (cookies : list JsValue)
    (configs : list (gmap string JsValue)) :
  Forall2 (fun cookie config => imported_config cookie = Ok config) cookies configs ->
  forall (w : World) (successCount failCount : nat) (errors : list (JsValue * string)),
    run (importCookies_loop cookies successCount failCount errors) w
    = (set_cookie_calls (cookie_calls w ++ configs) w,
       Ok (successCount
           + applied_count (verdicts (cookie_store w) (cookie_calls w) configs),
           failCount
           + failed_count (verdicts (cookie_store w) (cookie_calls w) configs),
           (errors
            ++ failure_details cookies
                 (verdicts (cookie_store w) (cookie_calls w) configs))%list)).
Proof.
  induction 1 as [|cookie config cookies configs Hc _ IH];
    intros w successCount failCount errors.
  - cbn. rewrite !Nat.add_0_r, !app_nil_r. now destruct w.
  - apply imported_config_inv in Hc as (cookieDetails & Hd & ->).
    destruct (importCookies_cookieDetails_ok _ _ Hd) as [Hurl Hname].
    cbn [importCookies_loop]. rewrite run_bind, Hd, run_of_result.
    rewrite run_bind, (run_setCookie _ _ Hurl).
    cbn [verdicts applied_count failed_count failure_details].
    destruct (cookie_store w (cookie_calls w) _) as [e|accepted].
    + rewrite run_bind, Hname, run_of_result, IH.
      cbn [cookie_calls cookie_store set_cookie_calls].
      rewrite <- !app_assoc. cbn [app]. now rewrite Nat.add_succ_r.
    + rewrite IH. cbn [cookie_calls cookie_store set_cookie_calls].
      rewrite <- !app_assoc. cbn [app]. now rewrite Nat.add_succ_r.
Qed.

Lemma run_importCookies_loop_abort (done : list JsValue)
    (configs : list (gmap string JsValue)) (bad : JsValue) (rest : list JsValue)
    (e : string) :
  Forall2 (fun cookie config => imported_config cookie = Ok config) done configs ->
  importCookies_cookieDetails bad = Err e ->
  forall (w : World) (successCount failCount : nat) (errors : list (JsValue * string)),
    run (importCookies_loop (done ++ bad :: rest) successCount failCount errors) w
    = (set_cookie_calls (cookie_calls w ++ configs) w, Err e).
Proof.
  intros Hdone Hbad.
  induction Hdone as [|cookie config cookies configs Hc _ IH];
    intros w successCount failCount errors.
  - cbn [app importCookies_loop]. rewrite run_bind, Hbad, run_of_result.
    rewrite app_nil_r. now destruct w.
  - apply imported_config_inv in Hc as (cookieDetails & Hd & ->).
    destruct (importCookies_cookieDetails_ok _ _ Hd) as [Hurl Hname].
    cbn [app importCookies_loop]. rewrite run_bind, Hd, run_of_result.
    rewrite run_bind, (run_setCookie _ _ Hurl).
    destruct (cookie_store w (cookie_calls w) _) as [e'|accepted].
    + rewrite run_bind, Hname, run_of_result, IH.
      cbn [cookie_calls set_cookie_calls]. now rewrite <- !app_assoc.
    + rewrite IH. cbn [cookie_calls set_cookie_calls]. now rewrite <- !app_assoc.
Qed.

Lemma default_bulkResult_errors (successCount failCount : nat)
    (details : list (JsValue * string)) :
  default [] (errors (bulkResult successCount failCount details)) = details.
Proof. now destruct details. Qed.

Section ImportOutcome.
Context `{WebPlatform}.

(** X21. An import whose cookies all yield a request writes them in
    order and answers with success: each accepted write counts as
    imported, each rejected one as failed with a detail naming the cookie,
    and the two counts add up to the number of cookies. *)
Theorem importCookies_accounting (w w1 : World) (jsonData : string)
    (encrypted : bool) (cookies : list JsValue)
    (configs : list (gmap string JsValue)) :
  is_empty jsonData = false ->
  run (if encrypted then decryptJSON (VString jsonData)
       else of_result (JSON_parse jsonData)) w = (w1, Ok (VArray cookies)) ->
  Forall2 (fun cookie config => imported_config cookie = Ok config) cookies configs ->
  exists result,
    run (importCookies jsonData encrypted) w
    = (set_cookie_calls (cookie_calls w1 ++ configs) w1, Ok (Success result))
    /\ applied result
       = applied_count (verdicts (cookie_store w1) (cookie_calls w1) configs)
    /\ failed result
       = failed_count (verdicts (cookie_store w1) (cookie_calls w1) configs)
    /\ default [] (errors result)
       = failure_details cookies (verdicts (cookie_store w1) (cookie_calls w1) configs)
    /\ applied result + failed result = length cookies
    /\ length (default [] (errors result)) = failed result.
Proof.
  intros Hn Hdecode Hall. unfold importCookies.
  rewrite run_try_catch, Hn, run_bind, Hdecode.
  cbn [Array_isArray negb]. rewrite run_bind. cbn [iterate of_result run].
  rewrite run_bind, (run_importCookies_loop_all cookies configs Hall).
  cbn [plus app]. eexists. split; [reflexivity|].
  set (answers := verdicts (cookie_store w1) (cookie_calls w1) configs).
  assert (Hlen : length cookies = length answers).
  { unfold answers. rewrite verdicts_length. exact (Forall2_length _ _ _ Hall). }
  rewrite default_bulkResult_errors. cbn [applied failed bulkResult].
  repeat split.
  - now rewrite counts_add_up.
  - now apply failure_details_length.
Qed.

(** X22. A cookie from which no request can be built (it is [null], or
    its domain is not a string) ends the import with a failure: the
    cookies before it have been written and stay written, those after it
    are not tried, and the answer carries no count. *)
Theorem importCookies_aborts (w w1 : World) (jsonData : string) (encrypted : bool)
    (done : list JsValue) (configs : list (gmap string JsValue)) (bad : JsValue)
    (rest : list JsValue) (e : string) :
  is_empty jsonData = false ->
  run (if encrypted then decryptJSON (VString jsonData)
       else of_result (JSON_parse jsonData)) w
  = (w1, Ok (VArray (done ++ bad :: rest))) ->
  Forall2 (fun cookie config => imported_config cookie = Ok config) done configs ->
  importCookies_cookieDetails bad = Err e ->
  run (importCookies jsonData encrypted) w
  = (set_cookie_calls (cookie_calls w1 ++ configs) w1, Ok (Failure e)).
Proof.
  intros Hn Hdecode Hdone Hbad. unfold importCookies.
  rewrite run_try_catch, Hn, run_bind, Hdecode.
  cbn [Array_isArray negb]. rewrite run_bind. cbn [iterate of_result run].
  now rewrite run_bind, (run_importCookies_loop_abort done configs bad rest e Hdone Hbad).
Qed.

(** X23. Data that does not decode to an array is not imported: the
    answer is the failure of the decoding, or that an array was expected,
    and no cookie is written. *)
Theorem importCookies_requires_array (w w1 : World) (jsonData : string)
    (encrypted : bool) (decoded : Result JsValue) :
  is_empty jsonData = false ->
  run (if encrypted then decryptJSON (VString jsonData)
       else of_result (JSON_parse jsonData)) w = (w1, decoded) ->
  match decoded with inr v => Array_isArray v | inl _ => false end = false ->
  run (importCookies jsonData encrypted) w
  = (w1, Ok (Failure match decoded with
                     | inl e => e
                     | inr _ => "Invalid cookie data: expected an array"
                     end))
  /\ cookie_calls w1 = cookie_calls w.
Proof.
  intros Hn Hdecode Harray. split.
  - unfold importCookies. rewrite run_try_catch, Hn, run_bind, Hdecode.
    destruct decoded as [e|v]; [reflexivity|]. now rewrite Harray.
  - assert (Hframe : framed (unchanged cookie_calls)
                       (if encrypted then decryptJSON (VString jsonData)
                        else of_result (JSON_parse jsonData))).
    { destruct encrypted; [now apply framed_decryptJSON|apply framed_of_result]. }
    pose proof (run_framed cookie_calls _ Hframe w) as Hc.
    now rewrite Hdecode in Hc.
Qed.

End ImportOutcome.

Lemma applyPreset_load_failure_witness :
  run (@loadPreset Reference.platform "missing") Reference.world
  = (Reference.world, Ok (Failure (not_found "missing")))
  /\ run (@applyPreset Reference.platform "missing" ".example.com") Reference.world
     = (Reference.world, Ok (Failure (not_found "missing"))).
Proof.
  assert (Hload : run (@loadPreset Reference.platform "missing") Reference.world
                  = (Reference.world, Ok (Failure (not_found "missing"))))
    by (vm_compute; reflexivity).
  split; [exact Hload|].
  exact (proj1 (@applyPreset_load_failure Reference.platform _ _ "missing"
                  ".example.com" _ eq_refl eq_refl Hload)).
Defined.

Lemma importCookies_accounting_witness :
  is_empty Reference.imported_text = false
  /\ run (if false
          then @decryptJSON Reference.platform (VString Reference.imported_text)
          else of_result (@JSON_parse Reference.platform Reference.imported_text))
       Reference.world
     = (Reference.world, Ok Reference.imported)
  /\ exists result,
       snd (run (@importCookies Reference.platform Reference.imported_text false)
              Reference.world)
       = Ok (Success result)
       /\ applied result + failed result = 2.
Proof.
  assert (Hn : is_empty Reference.imported_text = false) by (vm_compute; reflexivity).
  assert (Hdecode : run (if false
                         then @decryptJSON Reference.platform
                                (VString Reference.imported_text)
                         else of_result (@JSON_parse Reference.platform
                                           Reference.imported_text))
                      Reference.world
                    = (Reference.world, Ok Reference.imported))
    by (vm_compute; reflexivity).
  split; [exact Hn|]. split; [exact Hdecode|].
  destruct (@importCookies_accounting Reference.platform Reference.world
              Reference.world Reference.imported_text false _
              (Scenario.requests
                 match Reference.imported with VArray items => items | _ => [] end)
              Hn Hdecode)
    as (result & Hrun & _ & _ & _ & Hsum & _).
  - repeat constructor.
  - exists result. rewrite Hrun. split; [reflexivity|exact Hsum].
Defined.

Lemma importCookies_aborts_witness :
  is_empty Scenario.broken_text = false
  /\ importCookies_cookieDetails Scenario.second_cookie
     = Err "Cannot read properties of undefined (reading 'startsWith')"
  /\ run (@importCookies Reference.platform Scenario.broken_text false) Reference.world
     = (set_cookie_calls (Scenario.requests [Scenario.first_cookie]) Reference.world,
        Ok (Failure "Cannot read properties of undefined (reading 'startsWith')")).
Proof.
  assert (Hn : is_empty Scenario.broken_text = false) by (vm_compute; reflexivity).
  assert (Hdecode : run (if false
                         then @decryptJSON Reference.platform
                                (VString Scenario.broken_text)
                         else of_result (@JSON_parse Reference.platform
                                           Scenario.broken_text))
                      Reference.world
                    = (Reference.world,
                       Ok (VArray ([Scenario.first_cookie]
                                   ++ Scenario.second_cookie
                                   :: [Scenario.third_cookie]))))
    by (vm_compute; reflexivity).
  assert (Hbad : importCookies_cookieDetails Scenario.second_cookie
                 = Err "Cannot read properties of undefined (reading 'startsWith')")
    by (vm_compute; reflexivity).
  split; [exact Hn|]. split; [exact Hbad|].
  refine (@importCookies_aborts Reference.platform Reference.world Reference.world
            Scenario.broken_text false [Scenario.first_cookie]
            (Scenario.requests [Scenario.first_cookie]) Scenario.second_cookie
            [Scenario.third_cookie] _ Hn Hdecode _ Hbad).
  repeat constructor.
Defined.

Lemma importCookies_requires_array_witness :
  is_empty "123" = false
  /\ run (if false then @decryptJSON Reference.platform (VString "123")
          else of_result (@JSON_parse Reference.platform "123")) Reference.world
     = (Reference.world, Ok (VNumber 123))
  /\ run (@importCookies Reference.platform "123" false) Reference.world
     = (Reference.world, Ok (Failure "Invalid cookie data: expected an array")).
Proof.
  assert (Hdecode : run (if false then @decryptJSON Reference.platform (VString "123")
                         else of_result (@JSON_parse Reference.platform "123"))
                      Reference.world
                    = (Reference.world, Ok (VNumber 123)))
    by (vm_compute; reflexivity).
  split; [reflexivity|]. split; [exact Hdecode|].
  exact (proj1 (@importCookies_requires_array Reference.platform Reference.world
                  Reference.world "123" false (Ok (VNumber 123)) eq_refl Hdecode
                  eq_refl)).
Defined.

(** ** Export, removal and the popup *)

Section BackupProperties.
Context `{WebPlatform}.
Variable getAll : World -> gmap string JsValue -> Result (list JsValue).
Variable pretty : JsValue -> option string.

Lemma run_getCookies (w : World) (domain : JsValue) :
  run (getCookies getAll domain) w
  = (w, Ok (match getAll w (if truthy domain then {["domain" := domain]} else ∅) with
            | inl e => Failure e
            | inr cookies => Success cookies
            end)).
Proof.
  unfold getCookies, chrome_cookies_getAll. rewrite run_try_catch, run_bind.
  cbn [run]. rewrite run_of_result. now destruct (getAll w _).
Qed.

Lemma framed_getCookies {B} (f : World -> B) (domain : JsValue) :
  framed (unchanged f) (getCookies getAll domain).
Proof.
  unfold getCookies. apply framed_try_catch; [|intros e; exact I].
  apply framed_bind; [|intros cookies; exact I].
  intros w. split; [reflexivity|apply framed_of_result].
Qed.

Lemma framed_exportCookies {B} (f : World -> B) (domain : JsValue) (encrypted : bool) :
  (forall l w, f (set_storage_faults l w) = f w) ->
  (forall n w, f (set_entropy_used n w) = f w) ->
  (forall k w, f (set_masterEncryptionKey k w) = f w) ->
  framed (unchanged f) (exportCookies getAll pretty domain encrypted).
Proof.
  intros Hfaults Hentropy Hkey. unfold exportCookies.
  apply framed_try_catch; [|intros e; exact I].
  apply framed_bind; [apply framed_getCookies|].
  intros [cookies|e]; [|exact I].
  apply framed_bind; [|intros data; exact I].
  destruct encrypted; [|exact I].
  apply framed_bind; [now apply framed_encryptJSON|]. intros data. exact I.
Qed.

(** X24. An encrypted export of the cookies that the browser lists
    succeeds while storage works, and its data, given back to an
    encrypted import, decodes to the very list: the import then does what
    a plain import of any JSON text of that list does. A plain export
    touches nothing in the world. *)
Theorem export_then_import (w : World) (domain : JsValue) (cookies : list JsValue) :
  storage_faults w = [] ->
  getAll w (if truthy domain then {["domain" := domain]} else ∅) = Ok cookies ->
  serializable (VArray cookies) ->
  run (exportCookies getAll pretty domain false) w
  = (w, Ok (Success (pretty (VArray cookies), false)))
  /\ exists w1 data,
       run (exportCookies getAll pretty domain true) w
       = (w1, Ok (Success (Some data, true)))
       /\ is_empty data = false
       /\ run (decryptJSON (VString data)) w1 = (w1, Ok (VArray cookies))
       /\ forall text,
            is_empty text = false -> JSON_parse text = Ok (VArray cookies) ->
            run (importCookies data true) w1 = run (importCookies text false) w1.
Proof.
  intros Hf Hall Hs. split.
  - unfold exportCookies. rewrite run_try_catch, run_bind, run_getCookies, Hall.
    now rewrite run_bind.
  - exists (after_encrypt w), (sealed w (VArray cookies)).
    assert (Hf1 : storage_faults (after_encrypt w) = [])
      by (now rewrite (proj1 (after_encrypt_frame w))).
    assert (Hdecode : run (decryptJSON (VString (sealed w (VArray cookies))))
                        (after_encrypt w)
                      = (after_encrypt w, Ok (VArray cookies))).
    { rewrite (decryptJSON_no_faults _ _ Hf1).
      rewrite (proj1 (keyed_after_encrypt w)), (proj2 (keyed_after_encrypt w)).
      unfold opened, sealed. rewrite open_envelope_envelope; [reflexivity| |exact Hs].
      unfold nonce. now rewrite length_fmap, length_seq. }
    split; [|split; [apply sealed_nonempty|split; [exact Hdecode|]]].
    + unfold exportCookies. rewrite run_try_catch, run_bind, run_getCookies, Hall.
      rewrite run_bind, run_bind.
      now rewrite (encryptJSON_no_faults w (VArray cookies) Hf eq_refl).
    + intros text Ht Hparse. unfold importCookies.
      rewrite !run_try_catch, Ht, sealed_nonempty, !run_bind.
      now rewrite Hdecode, run_of_result, Hparse.
Qed.

(** X25. The handlers of the preset store never write a cookie. *)
Theorem preset_store_leaves_cookies (w : World) (presetName newName : string)
    (cookies : JsValue) :
  cookie_calls (fst (run (savePreset presetName cookies) w)) = cookie_calls w
  /\ cookie_calls (fst (run (loadPreset presetName) w)) = cookie_calls w
  /\ cookie_calls (fst (run getPresets w)) = cookie_calls w
  /\ cookie_calls (fst (run (deletePreset presetName) w)) = cookie_calls w
  /\ cookie_calls (fst (run (renamePreset presetName newName) w)) = cookie_calls w.
Proof.
  repeat split; apply run_framed.
  - now apply framed_savePreset.
  - now apply framed_loadPreset.
  - now apply framed_getPresets.
  - now apply framed_deletePreset.
  - now apply framed_renamePreset.
Qed.

(** X26. The handlers that read presets or write cookies never change
    the stored preset map: loading, listing, applying, importing,
    exporting, listing cookies and writing one leave it as it is. *)
Theorem readers_keep_presets (w : World) (presetName domain jsonData : string)
    (encrypted : bool) (target : JsValue) (cookieDetails : gmap string JsValue) :
  presets (fst (run (loadPreset presetName) w)) = presets w
  /\ presets (fst (run getPresets w)) = presets w
  /\ presets (fst (run (applyPreset presetName domain) w)) = presets w
  /\ presets (fst (run (importCookies jsonData encrypted) w)) = presets w
  /\ presets (fst (run (exportCookies getAll pretty target encrypted) w)) = presets w
  /\ presets (fst (run (getCookies getAll target) w)) = presets w
  /\ presets (fst (run (setCookie cookieDetails) w)) = presets w.
Proof.
  repeat split; apply run_framed.
  - now apply framed_loadPreset.
  - now apply framed_getPresets.
  - now apply framed_applyPreset.
  - now apply framed_importCookies.
  - now apply framed_exportCookies.
  - apply framed_getCookies.
  - now apply framed_setCookie.
Qed.

Variable remove : World -> gmap string JsValue -> World * Result JsValue.

(** X27. Every handler of the service worker answers: whatever storage,
    the browser and the platform do, its promise resolves with a response
    and is never rejected. *)
Theorem handlers_answer (presetName newName domain jsonData : string)
    (encrypted : bool) (target cookies : JsValue)
    (cookieDetails : gmap string JsValue) :
  answers (getCookies getAll target)
  /\ answers (setCookie cookieDetails)
  /\ answers (deleteCookie remove cookieDetails)
  /\ answers (savePreset presetName cookies)
  /\ answers (loadPreset presetName)
  /\ answers getPresets
  /\ answers (deletePreset presetName)
  /\ answers (renamePreset presetName newName)
  /\ answers (applyPreset presetName domain)
  /\ answers (exportCookies getAll pretty target encrypted)
  /\ answers (importCookies jsonData encrypted).
Proof.
  repeat split; intros w; apply run_try_catch_fail.
Qed.

End BackupProperties.

Lemma export_then_import_witness :
  storage_faults Reference.world = []
  /\ @serializable Reference.platform Reference.imported
  /\ exists w1 data,
       run (@exportCookies Reference.platform Scenario.getAll Reference.stringify
              (VString "example.com") true) Reference.world
       = (w1, Ok (Success (Some data, true)))
       /\ run (@decryptJSON Reference.platform (VString data)) w1
          = (w1, Ok Reference.imported).
Proof.
  assert (Hs : @serializable Reference.platform Reference.imported)
    by (vm_compute; reflexivity).
  split; [reflexivity|]. split; [exact Hs|].
  destruct (@export_then_import Reference.platform Scenario.getAll
              Reference.stringify Reference.world (VString "example.com") _
              eq_refl eq_refl Hs)
    as (_ & w1 & data & Hexport & _ & Hdecode & _).
  exists w1, data. split; [exact Hexport|exact Hdecode].
Defined.

Section RemovalProperties.
Variable remove : World -> gmap string JsValue -> World * Result JsValue.

(** X28. For a listed cookie whose domain is a string, the popup asks to
    delete it at the very URL that the worker builds when it writes a
    cookie of that domain and [secure] flag. The worker passes the request
    to the browser when the cookie has a non-empty name, and refuses it
    otherwise, without reaching the browser. *)
Theorem handleDeleteCookie_request (w : World) (cookie : JsValue) (domain : string) :
  read cookie "domain" = VString domain ->
  exists details,
    handleDeleteCookie_cookieDetails cookie = Ok details
    /\ constructUrl (read cookie "domain") (read cookie "secure")
       = Ok (target_url domain (read cookie "secure"))
    /\ details !! "url" = Some (VString (target_url domain (read cookie "secure")))
    /\ details !! "name" = Some (read cookie "name")
    /\ run (deleteCookie remove details) w
       = if truthy (read cookie "name") then
           let '(w', r) := remove w details in
           (w', Ok (match r with inl e => Failure e | inr removed => Success removed end))
         else (w, Ok (Failure "Both url and name are required")).
Proof.
  intros Hdomain.
  destruct cookie as [| |b|n|s|items|props|what];
    try (cbn in Hdomain; unfold inherited in Hdomain; cbn in Hdomain;
         discriminate Hdomain).
  unfold read in *. cbn [get_property] in *.
  set (secure := prop_get props "secure").
  set (url := target_url domain secure).
  set (details := <["name" := prop_get props "name"]>
                    ({["url" := VString url]} : gmap string JsValue)).
  exists details.
  assert (Hurl : "http" ++ (if truthy secure then "s" else "") ++ "://"
                 ++ stripLeadingDot domain = url).
  { unfold url, target_url. now destruct (truthy secure). }
  split; [|split; [|split; [|split]]].
  - unfold handleDeleteCookie_cookieDetails. cbn [get_property].
    fold secure. now rewrite Hdomain, Hurl.
  - now rewrite Hdomain.
  - unfold details. rewrite lookup_insert_ne by discriminate.
    apply lookup_singleton_eq.
  - apply lookup_insert_eq.
  - unfold deleteCookie. rewrite run_try_catch.
    rewrite (prop_get_own details "name" (prop_get props "name"))
      by apply lookup_insert_eq.
    rewrite (prop_get_own details "url" (VString url))
      by (unfold details; rewrite lookup_insert_ne by discriminate;
          apply lookup_singleton_eq).
    assert (Ht : truthy (VString url) = true) by apply target_url_truthy.
    rewrite Ht. cbn [negb orb].
    destruct (truthy (prop_get props "name")); [|reflexivity].
    cbn [negb]. rewrite run_bind. unfold chrome_cookies_remove. cbn [run].
    destruct (remove w _) as [w' [e|removed]]; reflexivity.
Qed.

End RemovalProperties.

Lemma handleDeleteCookie_request_witness :
  read Scenario.first_cookie "domain" = VString ".example.com"
  /\ exists details,
       handleDeleteCookie_cookieDetails Scenario.first_cookie = Ok details
       /\ details !! "url" = Some (VString "http://example.com")
       /\ run (deleteCookie Scenario.remove details) Reference.world
          = (Reference.world, Ok (Success (VObject details))).
Proof.
  assert (Hd : read Scenario.first_cookie "domain" = VString ".example.com")
    by (vm_compute; reflexivity).
  split; [exact Hd|].
  destruct (handleDeleteCookie_request Scenario.remove Reference.world
              Scenario.first_cookie ".example.com" Hd)
    as (details & Hdetails & _ & Hurl & _ & Hrun).
  exists details. split; [exact Hdetails|].
  assert (Hsecure : read Scenario.first_cookie "secure" = VUndefined)
    by (vm_compute; reflexivity).
  assert (Hname : read Scenario.first_cookie "name" = VString "sid")
    by (vm_compute; reflexivity).
  rewrite Hsecure in Hurl. rewrite Hname in Hrun.
  split; [exact Hurl|exact Hrun].
Defined.

Lemma substring_length (n : nat) (s : string) :
  String.length (String.substring 0 n s) = Nat.min n (String.length s).
Proof.
  revert s. induction n as [|n IH]; intros [|c s]; cbn; try reflexivity.
  now rewrite IH.
Qed.

Lemma substring_all (n : nat) (s : string) :
  String.length s <= n -> String.substring 0 n s = s.
Proof.
  revert s. induction n as [|n IH]; intros [|c s]; cbn; intros Hl;
    try reflexivity; try lia.
  now rewrite IH by lia.
Qed.

Lemma string_app_length (s t : string) :
  String.length (s ++ t) = String.length s + String.length t.
Proof. induction s as [|c s IH]; simpl; [reflexivity|]. now f_equal. Qed.

(** X29. The text that the popup shows for a cookie value is never
    longer than the limit plus the three dots; it starts with the first
    characters of the value up to the limit, and it is the value itself
    when the value fits. *)
Theorem truncateValue_bounded (value : string) (maxLength : nat) :
  String.length (truncateValue value maxLength) <= maxLength + 3
  /\ (exists rest,
        truncateValue value maxLength = String.substring 0 maxLength value ++ rest
        /\ (rest = "" \/ rest = "..."))
  /\ (String.length value <= maxLength -> truncateValue value maxLength = value).
Proof.
  unfold truncateValue. destruct value as [|c value].
  - cbn. split; [lia|]. split; [|reflexivity].
    exists "". split; [|now left]. now destruct maxLength.
  - cbn [is_empty]. destruct (maxLength <? _)%nat eqn:Hlt.
    + apply Nat.ltb_lt in Hlt. split; [|split].
      * rewrite string_app_length, substring_length. cbn [String.length] in *. lia.
      * exists "...". split; [reflexivity|now right].
      * lia.
    + apply Nat.ltb_ge in Hlt. split; [lia|]. split; [|reflexivity].
      exists "". split; [|now left].
      rewrite substring_all by exact Hlt.
      clear. induction (String c value) as [|d s IH]; [reflexivity|].
      change (String d s = String d (s ++ "")). now f_equal.
Qed.

(** ** Examples of the properties of named presets *)

Lemma rename_then_load_witness :
  storage_faults Scenario.two_presets = []
  /\ run (renamePreset "A" "C") Scenario.two_presets
     = (Scenario.after_rename, Ok (Success ("A", "C")))
  /\ ("A" ∉ Object_prototype)
  /\ snd (run (@loadPreset Reference.platform "A") Scenario.after_rename)
     = Ok (Failure (not_found "A"))
  /\ snd (run (@loadPreset Reference.platform "C") Scenario.after_rename)
     = snd (run (@loadPreset Reference.platform "A") Scenario.two_presets).
Proof.
  assert (H1 : storage_faults Scenario.two_presets = []) by (vm_compute; reflexivity).
  assert (H2 : run (renamePreset "A" "C") Scenario.two_presets
               = (Scenario.after_rename, Ok (Success ("A", "C"))))
    by (vm_compute; reflexivity).
  assert (H3 : "A" ∉ Object_prototype)
    by (apply (bool_decide_unpack _); vm_compute; exact I).
  destruct (@rename_then_load Reference.platform _ _ "A" "C" H1 H2 H3) as [HA HC].
  split; [exact H1|]. split; [exact H2|]. split; [exact H3|].
  split; [exact HA|exact HC].
Defined.

Lemma save_overwrites_witness :
  storage_faults Reference.world = []
  /\ is_empty (trim "A") = false
  /\ @serializable Reference.platform Reference.cookies
  /\ exists w1 w2,
       run (@savePreset Reference.platform "A" (VArray [])) Reference.world
       = (w1, Ok (Success "A"))
       /\ run (@savePreset Reference.platform "A" Reference.cookies) w1
          = (w2, Ok (Success "A"))
       /\ snd (run (@loadPreset Reference.platform "A") w2)
          = Ok (Success Reference.cookies).
Proof.
  assert (Hs : @serializable Reference.platform Reference.cookies)
    by (vm_compute; reflexivity).
  split; [reflexivity|]. split; [reflexivity|]. split; [exact Hs|].
  refine (@save_overwrites Reference.platform Reference.world "A" [] _
            eq_refl eq_refl _ Hs).
  discriminate.
Defined.

Lemma save_under_given_name_witness :
  storage_faults (Reference.saved "B") = []
  /\ is_empty (trim "A") = false
  /\ exists w1,
       run (@savePreset Reference.platform "A" Reference.cookies) (Reference.saved "B")
       = (w1, Ok (Success "A"))
       /\ preset_object w1 !! "A"
          = Some (VString (@sealed Reference.platform (Reference.saved "B")
                             Reference.cookies))
       /\ preset_object w1 !! "B"
          = persisted <$> (preset_object (Reference.saved "B") !! "B")
       /\ snd (run (@loadPreset Reference.platform "B") w1)
          = snd (run (@loadPreset Reference.platform "B") (Reference.saved "B")).
Proof.
  assert (H1 : storage_faults (Reference.saved "B") = []) by (vm_compute; reflexivity).
  split; [exact H1|]. split; [reflexivity|].
  refine (@save_under_given_name Reference.platform (Reference.saved "B") "A" "B" _
            H1 eq_refl _ _ eq_refl); discriminate.
Defined.

(** ** Requests to the Cookie Store *)

Lemma framed_weaken {A} (R R' : World -> World -> Prop) (t : Async A) :
  (forall w w', R w w' -> R' w w') -> framed R t -> framed R' t.
Proof.
  intros HR. induction t as [a|e|k IH|k IH] using Async_induction; cbn;
    try (intros; exact I).
  - intros Ht w. specialize (Ht w). specialize (IH w).
    destruct (k w) as [w' t']. cbn in IH. destruct Ht. split; auto.
  - intros Ht w. specialize (Ht w). specialize (IH w).
    destruct (k w) as [w' t']. cbn in IH. destruct Ht. split; auto.
Qed.

Lemma appends_requests_refl (w : World) : appends_requests w w.
Proof. exists []. split; [now rewrite app_nil_r|constructor]. Qed.

Lemma appends_requests_trans (w1 w2 w3 : World) :
  appends_requests w1 w2 -> appends_requests w2 w3 -> appends_requests w1 w3.
Proof.
  intros (l1 & H1 & Hl1) (l2 & H2 & Hl2). exists (l1 ++ l2)%list. split.
  - now rewrite H2, H1, app_assoc.
  - now apply Forall_app.
Qed.

Lemma unchanged_appends (w w' : World) :
  unchanged cookie_calls w w' -> appends_requests w w'.
Proof.
  unfold unchanged. intros Hc. exists []. split; [now rewrite app_nil_r|constructor].
Qed.

Lemma run_appends {A} (t : Async A) :
  framed appends_requests t -> forall w, appends_requests w (fst (run t w)).
Proof.
  induction t as [a|e|k IH|k IH] using Async_induction; cbn; intros Ht w;
    try apply appends_requests_refl.
  - specialize (Ht w). specialize (IH w). destruct (k w) as [w' t'].
    cbn in IH. destruct Ht as [Hw Ht].
    exact (appends_requests_trans _ _ _ Hw (IH Ht w')).
  - specialize (Ht w). specialize (IH w). destruct (k w) as [w' t'].
    cbn in IH. destruct Ht as [Hw Ht].
    exact (appends_requests_trans _ _ _ Hw (IH Ht w')).
Qed.

Lemma dom_prop_set (m : gmap string JsValue) (k k' : string) (v : JsValue) :
  is_Some (prop_set m k v !! k') -> k' = k \/ is_Some (m !! k').
Proof.
  destruct (decide (k' = k)) as [->|Hne]; [now left|].
  rewrite lookup_prop_set_ne by congruence. now right.
Qed.

Lemma cookieConfig_well_formed (url : JsValue) (cookieDetails : gmap string JsValue) :
  truthy url = true -> well_formed_request (cookieConfig url cookieDetails).
Proof.
  intros Hurl. split.
  - intros k. unfold cookieConfig. cbv zeta.
    repeat match goal with
           | |- is_Some ((if ?b then _ else _) !! _) -> _ => destruct b
           | |- is_Some (prop_set _ _ _ !! _) -> _ =>
               let H := fresh in
               intros H; apply dom_prop_set in H as [->|H];
               [unfold set_details;
                repeat first [apply list_elem_of_here|apply list_elem_of_further]
               |revert H]
           end.
    all: rewrite !lookup_insert_is_Some, lookup_singleton_is_Some.
    all: intros [<-|[_ [<-|[_ <-]]]]; unfold set_details;
      repeat first [apply list_elem_of_here|apply list_elem_of_further].
  - exists url. split; [|exact Hurl]. apply cookieConfig_lookups.
Qed.

Lemma framed_setCookie_requests (cookieDetails : gmap string JsValue) :
  framed appends_requests (setCookie cookieDetails).
Proof.
  unfold setCookie.
  destruct (negb (truthy (prop_get cookieDetails "url"))
            && negb (truthy (prop_get cookieDetails "domain"))); [exact I|].
  assert (Hset : forall url, truthy url = true ->
            framed appends_requests
              (try_catch
                 (cookie <- chrome_cookies_set (cookieConfig url cookieDetails) ;;
                  Resolve (Success cookie)) fail)).
  { intros url Hurl w. cbn. split.
    - exists [cookieConfig url cookieDetails]. split; [reflexivity|].
      constructor; [now apply cookieConfig_well_formed|constructor].
    - now destruct (cookie_store w _ _). }
  destruct (truthy (prop_get cookieDetails "url")) eqn:Hurl.
  - exact (Hset _ Hurl).
  - destruct (constructUrl _ _) as [e|u] eqn:Hc; [exact I|].
    cbn [of_result bind]. apply Hset.
    unfold constructUrl in Hc.
    destruct (prop_get cookieDetails "domain"); try discriminate Hc.
    injection Hc as <-. apply target_url_truthy.
Qed.

Lemma framed_applyPreset_loop_requests (domain : string) (cookies : list JsValue) :
  forall successCount failCount errors,
    framed appends_requests
      (applyPreset_loop domain cookies successCount failCount errors).
Proof.
  induction cookies as [|cookie rest IH]; intros successCount failCount errors;
    [exact I|].
  cbn [applyPreset_loop]. apply framed_bind; [apply framed_of_result|].
  intros cookieDetails. apply framed_bind; [apply framed_setCookie_requests|].
  intros [c|e]; [apply IH|].
  apply framed_bind; [apply framed_of_result|]. intros name. apply IH.
Qed.

Lemma framed_importCookies_loop_requests (cookies : list JsValue) :
  forall successCount failCount errors,
    framed appends_requests
      (importCookies_loop cookies successCount failCount errors).
Proof.
  induction cookies as [|cookie rest IH]; intros successCount failCount errors;
    [exact I|].
  cbn [importCookies_loop]. apply framed_bind; [apply framed_of_result|].
  intros cookieDetails. apply framed_bind; [apply framed_setCookie_requests|].
  intros [c|e]; [apply IH|].
  apply framed_bind; [apply framed_of_result|]. intros name. apply IH.
Qed.

Section Requests.
Context `{WebPlatform}.

(** X19. Every request that [setCookie], [applyPreset] or [importCookies]
    sends to the Cookie Store has a URL that is not empty and no property
    beyond those that [chrome.cookies.set] accepts, whatever the stored or
    imported cookies carry; [setCookie] sends at most one request. *)
Theorem cookie_requests_well_formed (w : World) (cookieDetails : gmap string JsValue)
    (presetName domain jsonData : string) (encrypted : bool) :
  appends_requests w (fst (run (setCookie cookieDetails) w))
  /\ length (cookie_calls (fst (run (setCookie cookieDetails) w)))
     <= S (length (cookie_calls w))
  /\ appends_requests w (fst (run (applyPreset presetName domain) w))
  /\ appends_requests w (fst (run (importCookies jsonData encrypted) w)).
Proof.
  split; [apply run_appends, framed_setCookie_requests|]. split; [|split].
  - unfold setCookie. rewrite run_try_catch.
    destruct (_ && _); [cbn; lia|]. rewrite run_bind.
    destruct (run _ w) as [w1 [e|url]] eqn:Hurl.
    + assert (w1 = w) as ->.
      { destruct (truthy _); [discriminate Hurl|].
        rewrite run_bind, run_of_result in Hurl.
        destruct (constructUrl _ _); now injection Hurl as <-. }
      cbn. lia.
    + assert (w1 = w) as ->.
      { destruct (truthy _); [now injection Hurl as <-|].
        rewrite run_bind, run_of_result in Hurl.
        destruct (constructUrl _ _); [discriminate Hurl|now injection Hurl as <-]. }
      rewrite run_bind, run_chrome_cookies_set.
      destruct (cookie_store w _ _); cbn; rewrite length_app; cbn; lia.
  - apply run_appends. unfold applyPreset.
    apply framed_try_catch; [|intros e; exact I].
    destruct (is_empty presetName); [exact I|].
    destruct (is_empty domain); [exact I|].
    apply framed_bind.
    + apply (framed_weaken _ _ _ unchanged_appends).
      now apply framed_loadPreset.
    + intros [cookies|e]; [|exact I].
      apply framed_bind; [apply framed_of_result|]. intros items.
      apply framed_bind; [apply framed_applyPreset_loop_requests|].
      intros [[s fl] errs]. exact I.
  - apply run_appends. unfold importCookies.
    apply framed_try_catch; [|intros e; exact I].
    destruct (is_empty jsonData); [exact I|].
    apply framed_bind.
    + destruct encrypted; [|apply framed_of_result].
      apply (framed_weaken _ _ _ unchanged_appends).
      now apply framed_decryptJSON.
    + intros cookies. destruct (negb _); [exact I|].
      apply framed_bind; [apply framed_of_result|]. intros items.
      apply framed_bind; [apply framed_importCookies_loop_requests|].
      intros [[s fl] errs]. exact I.
Qed.

End Requests.

(** ** Names without a visible character *)

Lemma trimStart_blank (s : string) : blank s -> trimStart s = "".
Proof.
  unfold blank. induction s as [|c s IH]; cbn; [reflexivity|].
  intros Hall. inversion Hall as [|? ? Hc Hrest]; subst. rewrite Hc. now apply IH.
Qed.

Lemma trimStart_visible (s : string) :
  ~ blank s -> is_empty (trimStart s) = false /\ ~ blank (trimStart s).
Proof.
  unfold blank. induction s as [|c s IH]; cbn.
  - intros Hn. exfalso. apply Hn. constructor.
  - intros Hn. destruct (is_whitespace c) eqn:Hc.
    + apply IH. intros Hall. apply Hn. now constructor.
    + split; [reflexivity|]. cbn. intros Hall.
      inversion Hall as [|? ? Hc' _]; subst. congruence.
Qed.

Lemma list_ascii_of_rev_app (s t : string) :
  String.list_ascii_of_string (String.rev_app s t)
  = (rev (String.list_ascii_of_string s) ++ String.list_ascii_of_string t)%list.
Proof.
  revert t. induction s as [|c s IH]; intros t; cbn; [reflexivity|].
  rewrite IH. cbn. now rewrite <- app_assoc.
Qed.

Lemma list_ascii_of_rev (s : string) :
  String.list_ascii_of_string (String.rev s) = rev (String.list_ascii_of_string s).
Proof. unfold String.rev. now rewrite list_ascii_of_rev_app, app_nil_r. Qed.

Lemma blank_rev (s : string) : blank (String.rev s) <-> blank s.
Proof.
  unfold blank. rewrite list_ascii_of_rev. split; intros Hall.
  - apply Forall_rev in Hall. now rewrite rev_involutive in Hall.
  - now apply Forall_rev.
Qed.

Lemma is_empty_rev (s : string) : is_empty (String.rev s) = is_empty s.
Proof.
  pose proof (list_ascii_of_rev s) as Hr.
  destruct s as [|c s]; [reflexivity|].
  destruct (String.rev (String c s)) as [|d r]; [|reflexivity].
  cbn in Hr. apply (f_equal (@length _)) in Hr.
  rewrite length_app in Hr. cbn in Hr. lia.
Qed.

Lemma trim_blank (s : string) : blank s -> is_empty (trim s) = true.
Proof. intros Hb. unfold trim. now rewrite (trimStart_blank s Hb). Qed.

Lemma trim_visible (s : string) : ~ blank s -> is_empty (trim s) = false.
Proof.
  intros Hn. unfold trim, trimEnd. rewrite is_empty_rev.
  apply trimStart_visible. rewrite blank_rev. now apply trimStart_visible.
Qed.

Section NameGuard.
Context `{WebPlatform}.

(** X3. With storage working, a save of an array succeeds exactly when
    the name has a visible character: a name of white space only, or the
    empty name, is refused before anything is read or written. *)
Theorem savePreset_name_guard (w : World) (presetName : string)
    (items : list JsValue) :
  storage_faults w = [] ->
  (blank presetName ->
   run (savePreset presetName (VArray items)) w
   = (w, Ok (Failure "Preset name is required")))
  /\ (~ blank presetName ->
      exists w', run (savePreset presetName (VArray items)) w
                 = (w', Ok (Success presetName))).
Proof.
  intros Hf. split.
  - intros Hb. unfold savePreset.
    now rewrite run_try_catch, (trim_blank _ Hb), orb_true_r.
  - intros Hn. eexists.
    apply (savePreset_no_faults w presetName items Hf (trim_visible _ Hn)).
Qed.

End NameGuard.

Lemma savePreset_name_guard_witness :
  storage_faults Reference.world = []
  /\ blank "  "
  /\ run (@savePreset Reference.platform "  " Reference.cookies) Reference.world
     = (Reference.world, Ok (Failure "Preset name is required")).
Proof.
  assert (Hb : blank "  ") by (repeat constructor).
  split; [reflexivity|]. split; [exact Hb|].
  exact (proj1 (@savePreset_name_guard Reference.platform Reference.world "  " _
                  eq_refl) Hb).
Defined.
